(** * RACF command language tooling: lexers, ADDUSER parser, document index

    A shallow embedding of
    - [examples/adduser_parser.py]: the tutorial lexer and the recursive
      descent parser for ADDUSER (module [AdduserParser]);
    - [server/racf_server.py]: the language server's lexer, the
      [RACFDocument] index with its position queries, and the request
      handlers for hover, completion, document symbols and the document
      store (module [RacfServer]).

    Conventions of the embedding.
    - Python [str] is [string], over an alphabet of 256 code points: ASCII,
      the rest of Latin-1, and the two upper-case letters that make it closed
      under [str.upper] (see [PyStr.code_point]).  On this alphabet
      [str.isalnum], [str.isdigit], [str.isspace] and [str.upper] are the
      Unicode ones: there are letters and digits beyond ASCII, and
      upper-casing can lengthen a string.  A statement that holds for ASCII
      text only says so with [PyStr.isascii].
    - Python [int] is [Z].
    - A lexer object [(source, pos, line, column)] is the unread suffix
      [source[pos:]] together with [line] and [column]; [self.tokens] is the
      list the loop produces, in order of the [append] calls.
    - A handler takes the entries of [params] it reads as arguments (uri,
      line, character, text); the dictionaries and lists it returns are
      [json] values, a dictionary being the list of its items in insertion
      order.  [None] from a handler that indexes a list stands for the
      [IndexError] the indexing raises.
    - [while] loops whose progress is not structural take a [fuel : nat];
      running out of fuel is [None] (lexer) or [Timeout] (parser) and never
      stands for a result of the program.
    - The interpreter's limit on the depth of calls is not modelled.
      [parse_segment] calls itself once per nested segment, so on a command
      nested deeper than the interpreter allows (about a thousand segments by
      default) the program raises [RecursionError] where the model goes on.
      A result of the model is the result of the program below that depth;
      statements about every input say which exceptions of its own the
      parser raises and that its loops end, not that it returns. *)

From Stdlib Require Import ZArith String Ascii List Bool Lia FunInd Sorted.
From stdpp Require Import gmap strings list.
Import ListNotations.

Local Open Scope string_scope.

(** ** Python string primitives *)

Module PyStr.

Definition NL : ascii := "010"%char.
Definition CR : ascii := "013"%char.
Definition TAB : ascii := "009"%char.
Definition QUOTE : ascii := "'"%char.

(** [c in s] for a one-character [c]. *)
Fixpoint char_in (c : ascii) (s : string) : bool :=
  match s with
  | EmptyString => false
  | String d s' => Ascii.eqb c d || char_in c s'
  end.

Definition between (lo hi : N) (c : ascii) : bool :=
  let n := N_of_ascii c in (lo <=? n)%N && (n <=? hi)%N.

(** The alphabet.  The character numbered [n] stands for the code point
    U+[n], with two exceptions: 128 and 129 stand for U+039C and U+0178, the
    upper-case forms of U+00B5 (micro sign) and U+00FF (y with diaeresis),
    and take the place of two control characters.  These 256 code points are
    closed under [str.upper], and on them the functions below are the
    methods of [str]. *)
Definition code_point (c : ascii) : N :=
  let n := N_of_ascii c in
  if (n =? 128)%N then 924%N else if (n =? 129)%N then 376%N else n.

(** [s.isascii()] *)
Definition isascii_char (c : ascii) : bool := (N_of_ascii c <? 128)%N.

Fixpoint isascii (s : string) : bool :=
  match s with
  | EmptyString => true
  | String c s' => isascii_char c && isascii s'
  end.

(** [c.isdigit()]: the decimal digits and the superscripts two, three and
    one. *)
Definition isdigit_char (c : ascii) : bool :=
  between 48 57 c || between 178 179 c || between 185 185 c.

(** [c.isalnum()]: letters, digits and other numeric characters. *)
Definition isalnum (c : ascii) : bool :=
  between 48 57 c || between 65 90 c || between 97 122 c
  || between 128 129 c || between 170 170 c || between 178 179 c
  || between 181 181 c || between 185 186 c || between 188 190 c
  || between 192 214 c || between 216 246 c || between 248 255 c.

(** [c.upper()] for a one-character string [c]: a string, because the
    upper-case form of U+00DF (sharp s) is the two letters SS. *)
Definition upper_char (c : ascii) : string :=
  let n := N_of_ascii c in
  if between 97 122 c || between 224 246 c || between 248 254 c
  then String (ascii_of_N (n - 32)) EmptyString
  else if (n =? 223)%N then "SS"
  else if (n =? 181)%N then String (ascii_of_N 128) EmptyString
  else if (n =? 255)%N then String (ascii_of_N 129) EmptyString
  else String c EmptyString.

(** [s.upper()] *)
Fixpoint upper (s : string) : string :=
  match s with
  | EmptyString => EmptyString
  | String c s' => upper_char c ++ upper s'
  end.

Fixpoint all_digits (s : string) : bool :=
  match s with
  | EmptyString => true
  | String c s' => isdigit_char c && all_digits s'
  end.

(** [s.isdigit()]: false on the empty string. *)
Definition isdigit (s : string) : bool :=
  match s with
  | EmptyString => false
  | _ => all_digits s
  end.

(** [s.lstrip(chars)] *)
Fixpoint lstrip (chars : string) (s : string) : string :=
  match s with
  | EmptyString => EmptyString
  | String c s' => if char_in c chars then lstrip chars s' else s
  end.

(** [len(s)] *)
Definition len (s : string) : Z := Z.of_nat (String.length s).

(** The character sets the lexers test membership in. *)
Definition SPACE_TAB : string := String " " (String TAB EmptyString).
Definition NL_CR : string := String NL (String CR EmptyString).
Definition WHITESPACE : string := String " " (String TAB NL_CR).

(** [c.isspace()]: tab to carriage return, file separator to unit separator,
    the blank, next line (U+0085) and the no-break space (U+00A0). *)
Definition isspace (c : ascii) : bool :=
  between 9 13 c || between 28 32 c || between 133 133 c
  || between 160 160 c.

(** [s.lstrip()], [s.rstrip()] and [s.strip()] with no argument *)
Fixpoint lstrip_space (s : string) : string :=
  match s with
  | EmptyString => EmptyString
  | String c s' => if isspace c then lstrip_space s' else s
  end.

Fixpoint rstrip_space (s : string) : string :=
  match s with
  | EmptyString => EmptyString
  | String c s' =>
      match rstrip_space s' with
      | EmptyString => if isspace c then EmptyString else String c EmptyString
      | r => String c r
      end
  end.

Definition strip (s : string) : string := rstrip_space (lstrip_space s).

(** [s.startswith(p)] *)
Fixpoint startswith (s p : string) : bool :=
  match p, s with
  | EmptyString, _ => true
  | String d p', String c s' => Ascii.eqb c d && startswith s' p'
  | String _ _, EmptyString => false
  end.

(** [s.endswith(p)] *)
Fixpoint endswith (s p : string) : bool :=
  String.eqb s p
  || match s with
     | EmptyString => false
     | String _ s' => endswith s' p
     end.

(** [sub in s] *)
Fixpoint contains (sub s : string) : bool :=
  startswith s sub
  || match s with
     | EmptyString => false
     | String _ s' => contains sub s'
     end.

(** [s.count(c)] for a one-character [c]. *)
Fixpoint count_char (c : ascii) (s : string) : Z :=
  match s with
  | EmptyString => 0%Z
  | String d s' => ((if Ascii.eqb d c then 1 else 0) + count_char c s')%Z
  end.

Fixpoint str_take (n : nat) (s : string) : string :=
  match n, s with
  | S n', String c s' => String c (str_take n' s')
  | _, _ => EmptyString
  end.

(** [s[:k]]: a negative [k] counts from the end of the string. *)
Definition slice_to (s : string) (k : Z) : string :=
  if (0 <=? k)%Z then str_take (Z.to_nat k) s
  else str_take (Z.to_nat (len s + k)) s.

(** [l[i]]: a negative [i] counts from the end of the list; [None] stands
    for [IndexError]. *)
Definition getitem {A : Type} (l : list A) (i : Z) : option A :=
  if (0 <=? i)%Z then l !! Z.to_nat i
  else if (0 <=? Z.of_nat (length l) + i)%Z
       then l !! Z.to_nat (Z.of_nat (length l) + i)
       else None.

End PyStr.

Import PyStr.

(** ** examples/adduser_parser.py *)

Module AdduserParser.

Inductive TokenType :=
  | COMMAND | KEYWORD | LPAREN | RPAREN | STRING
  | IDENTIFIER | NUMBER | CONTINUATION | EOF.

#[global] Instance TokenType_eq_dec : EqDecision TokenType.
Proof. solve_decision. Defined.

Record Token := mkToken {
  type : TokenType;
  value : string;
  line : Z;
  column : Z
}.

Definition ADDUSER_KEYWORDS : gset string := list_to_set [
  "ADDUSER"; "AU";
  "ADSP"; "NOADSP"; "AUDITOR"; "NOAUDITOR"; "GRPACC"; "NOGRPACC";
  "OIDCARD"; "NOOIDCARD"; "OPERATIONS"; "NOOPERATIONS";
  "RESTRICTED"; "NORESTRICTED"; "ROAUDIT"; "NOROAUDIT";
  "SPECIAL"; "NOSPECIAL"; "NOPASSWORD"; "NOCLAUTH";
  "ADDCATEGORY"; "AUTHORITY"; "CLAUTH"; "DATA"; "DFLTGRP";
  "MODEL"; "NAME"; "OWNER"; "PASSWORD"; "PHRASE";
  "SECLABEL"; "SECLEVEL"; "UACC";
  "CICS"; "DCE"; "DFP"; "EIM"; "KERB"; "LANGUAGE"; "LNOTES";
  "NDS"; "NETVIEW"; "OMVS"; "OPERPARM"; "OVM"; "PROXY";
  "TSO"; "WHEN"; "WORKATTR";
  "ASSIZEMAX"; "AUTOUID"; "UID"; "SHARED"; "CPUTIMEMAX";
  "FILEPROCMAX"; "HOME"; "MEMLIMIT"; "NOMEMLIMIT";
  "MMAPAREAMAX"; "PROCUSERMAX"; "PROGRAM"; "SHMEMMAX";
  "NOSHMEMMAX"; "THREADSMAX";
  "ACCTNUM"; "COMMAND"; "DEST"; "HOLDCLASS"; "JOBCLASS";
  "MAXSIZE"; "MSGCLASS"; "PROC"; "SIZE"; "SYS"; "UNIT"; "USERDATA";
  "DATAAPPL"; "DATACLAS"; "MGMTCLAS"; "STORCLAS";
  "DAYS"; "TIME";
  "ENCRYPT"; "KERBNAME"; "MAXTKTLFE";
  "DES"; "NODES"; "DES3"; "NODES3"; "DESD"; "NODESD";
  "AES128"; "NOAES128"; "AES256"; "NOAES256";
  "AES128SHA2"; "NOAES128SHA2"; "AES256SHA2"; "NOAES256SHA2";
  "PRIMARY"; "SECONDARY";
  "OPCLASS"; "OPIDENT"; "OPPRTY"; "RSLKEY"; "TIMEOUT"; "TSLKEY";
  "XRFSOFF"; "FORCE"; "NOFORCE";
  "NONE"; "READ"; "UPDATE"; "CONTROL"; "ALTER";
  "USE"; "CREATE"; "CONNECT"; "JOIN"
].

(** *** Lexer *)

(** The lexer's cursor: [source] is the unread text [self.source[self.pos:]]. *)
Record Lexer := mkLexer {
  source : string;
  cur_line : Z;
  cur_column : Z
}.

Definition Lexer_init (src : string) : Lexer := mkLexer src 1 1.

Definition current_char (lx : Lexer) : option ascii :=
  match source lx with
  | EmptyString => None
  | String c _ => Some c
  end.

Definition peek (lx : Lexer) : option ascii :=
  match source lx with
  | String _ (String d _) => Some d
  | _ => None
  end.

(** Line and column after consuming the character [c]. *)
Definition next_line (c : ascii) (ln : Z) : Z :=
  if Ascii.eqb c NL then (ln + 1)%Z else ln.
Definition next_column (c : ascii) (col : Z) : Z :=
  if Ascii.eqb c NL then 1%Z else (col + 1)%Z.

Definition advance (lx : Lexer) : Lexer :=
  match source lx with
  | EmptyString => mkLexer EmptyString (cur_line lx) (cur_column lx + 1)
  | String c s' =>
      mkLexer s' (next_line c (cur_line lx)) (next_column c (cur_column lx))
  end.

Fixpoint skip_whitespace_from (s : string) (ln col : Z) : Lexer :=
  match s with
  | EmptyString => mkLexer s ln col
  | String c s' =>
      if char_in c WHITESPACE
      then skip_whitespace_from s' (next_line c ln) (next_column c col)
      else mkLexer s ln col
  end.

Definition skip_whitespace (lx : Lexer) : Lexer :=
  skip_whitespace_from (source lx) (cur_line lx) (cur_column lx).

(** The [while] loop of [skip_comment], entered after the opening [/*]. *)
Fixpoint skip_comment_from (s : string) (ln col : Z) : Lexer :=
  match s with
  | EmptyString => mkLexer s ln col
  | String c s' =>
      match s' with
      | String d s'' =>
          if Ascii.eqb c "*" && Ascii.eqb d "/"
          then mkLexer s'' (next_line d (next_line c ln))
                           (next_column d (next_column c col))
          else skip_comment_from s' (next_line c ln) (next_column c col)
      | EmptyString =>
          skip_comment_from s' (next_line c ln) (next_column c col)
      end
  end.

Definition skip_comment (lx : Lexer) : Lexer :=
  match current_char lx, peek lx with
  | Some c, Some d =>
      if Ascii.eqb c "/" && Ascii.eqb d "*"
      then let lx2 := advance (advance lx) in
           skip_comment_from (source lx2) (cur_line lx2) (cur_column lx2)
      else lx
  | _, _ => lx
  end.

(** The [while] loop of [read_string], entered after the opening quote;
    returns the decoded [value] and the cursor after the literal. *)
Fixpoint read_string_from (s : string) (ln col : Z) : string * Lexer :=
  match s with
  | EmptyString => (EmptyString, mkLexer s ln col)
  | String c s' =>
      if Ascii.eqb c QUOTE then
        match s' with
        | String d s'' =>
            if Ascii.eqb d QUOTE
            then let '(v, lx) :=
                   read_string_from s'' (next_line d (next_line c ln))
                                        (next_column d (next_column c col)) in
                 (String QUOTE v, lx)
            else (EmptyString,
                  mkLexer s' (next_line c ln) (next_column c col))
        | EmptyString =>
            (EmptyString, mkLexer s' (next_line c ln) (next_column c col))
        end
      else
        let '(v, lx) :=
          read_string_from s' (next_line c ln) (next_column c col) in
        (String c v, lx)
  end.

Definition read_string (lx : Lexer) : Token * Lexer :=
  let lx1 := advance lx in
  let '(v, lx2) :=
    read_string_from (source lx1) (cur_line lx1) (cur_column lx1) in
  (mkToken STRING v (cur_line lx) (cur_column lx), lx2).

Definition ident_char (c : ascii) : bool := isalnum c || char_in c "@#$_".

Fixpoint read_word_from (s : string) (ln col : Z) : string * Lexer :=
  match s with
  | EmptyString => (EmptyString, mkLexer s ln col)
  | String c s' =>
      if ident_char c
      then let '(v, lx) :=
             read_word_from s' (next_line c ln) (next_column c col) in
           (String c v, lx)
      else (EmptyString, mkLexer s ln col)
  end.

Definition classify (v : string) (ln col : Z) : Token :=
  let up := upper v in
  if bool_decide (up ∈ ADDUSER_KEYWORDS) then
    if bool_decide (up = "ADDUSER") || bool_decide (up = "AU")
    then mkToken COMMAND up ln col
    else mkToken KEYWORD up ln col
  else if isdigit v then mkToken NUMBER v ln col
  else mkToken IDENTIFIER (upper v) ln col.

Definition read_identifier_or_keyword (lx : Lexer) : Token * Lexer :=
  let '(v, lx') :=
    read_word_from (source lx) (cur_line lx) (cur_column lx) in
  (classify v (cur_line lx) (cur_column lx), lx').

Definition here (ty : TokenType) (v : string) (lx : Lexer) : Token :=
  mkToken ty v (cur_line lx) (cur_column lx).

(** [self.peek() is None or self.peek() in '\n\r'] *)
Definition at_line_end (lx : Lexer) : bool :=
  match peek lx with
  | None => true
  | Some d => char_in d NL_CR
  end.

(** The main loop of [tokenize]; one unit of fuel per iteration. *)
Fixpoint tokenize_loop (fuel : nat) (lx : Lexer) : option (list Token) :=
  match fuel with
  | O => None
  | S fuel' =>
      match current_char lx with
      | None => Some [here EOF EmptyString lx]
      | Some c =>
          if char_in c WHITESPACE then
            tokenize_loop fuel' (skip_whitespace lx)
          else if Ascii.eqb c "/"
                  && bool_decide (peek lx = Some "*"%char) then
            tokenize_loop fuel' (skip_comment lx)
          else if Ascii.eqb c "-" && at_line_end lx then
            cons (here CONTINUATION "-" lx)
              <$> tokenize_loop fuel' (advance lx)
          else if Ascii.eqb c "(" then
            cons (here LPAREN "(" lx) <$> tokenize_loop fuel' (advance lx)
          else if Ascii.eqb c ")" then
            cons (here RPAREN ")" lx) <$> tokenize_loop fuel' (advance lx)
          else if Ascii.eqb c QUOTE then
            let '(t, lx') := read_string lx in
            cons t <$> tokenize_loop fuel' lx'
          else if isalnum c || char_in c "@#$" then
            let '(t, lx') := read_identifier_or_keyword lx in
            cons t <$> tokenize_loop fuel' lx'
          else
            tokenize_loop fuel' (advance lx)
      end
  end.

(** Every iteration consumes a character, so [len(source) + 1] iterations
    are enough (lemma [tokenize_total]). *)
Definition tokenize (src : string) : option (list Token) :=
  tokenize_loop (S (String.length src)) (Lexer_init src).

(** *** AST *)

(** [Segment.keywords] maps a keyword to [True], a string, a list of strings
    or a nested [Segment]. *)
Inductive Segment :=
  | mkSegment (name : string) (keywords : gmap string Value)
with Value :=
  | VTrue
  | VStr (s : string)
  | VList (l : list string)
  | VSegment (seg : Segment).

Definition seg_name (seg : Segment) : string :=
  match seg with mkSegment n _ => n end.
Definition seg_keywords (seg : Segment) : gmap string Value :=
  match seg with mkSegment _ k => k end.

Record AddUserCommand := mkAddUserCommand {
  userids : list string;
  keywords : gmap string Value;
  segments : gmap string Segment;
  flags : gset string
}.

(** *** Parser *)

Definition SEGMENT_NAMES : gset string := list_to_set [
  "CICS"; "DCE"; "DFP"; "EIM"; "KERB"; "LANGUAGE"; "LNOTES";
  "NDS"; "NETVIEW"; "OMVS"; "OPERPARM"; "OVM"; "PROXY";
  "TSO"; "WHEN"; "WORKATTR"; "ENCRYPT"
].

Definition FLAG_KEYWORDS : gset string := list_to_set [
  "ADSP"; "NOADSP"; "AUDITOR"; "NOAUDITOR"; "GRPACC"; "NOGRPACC";
  "OIDCARD"; "NOOIDCARD"; "OPERATIONS"; "NOOPERATIONS";
  "RESTRICTED"; "NORESTRICTED"; "ROAUDIT"; "NOROAUDIT";
  "SPECIAL"; "NOSPECIAL"; "NOPASSWORD"; "NOCLAUTH";
  "AUTOUID"; "SHARED"; "NOMEMLIMIT"; "NOSHMEMMAX";
  "DES"; "NODES"; "DES3"; "NODES3"; "DESD"; "NODESD";
  "AES128"; "NOAES128"; "AES256"; "NOAES256";
  "AES128SHA2"; "NOAES128SHA2"; "AES256SHA2"; "NOAES256SHA2";
  "FORCE"; "NOFORCE"
].

(** Exceptions the parser raises.  [SyntaxError_expected] is the error of
    [expect] (expected type, found type, line and column of the found token),
    [SyntaxError_command] the one of [parse]; [IndexError] is [tokens[-1]] on
    an empty token list.  The interpreter's [RecursionError] is not among
    them: the depth of calls is not bounded here. *)
Inductive exn :=
  | SyntaxError_expected (expected got : TokenType) (ln col : Z)
  | SyntaxError_command (ln : Z)
  | IndexError.

Inductive outcome (A : Type) :=
  | Done (a : A)
  | Raise (e : exn)
  | Timeout.
Arguments Done {A} a.
Arguments Raise {A} e.
Arguments Timeout {A}.

#[global] Instance outcome_bind : MBind outcome := fun A B f m =>
  match m with
  | Done a => f a
  | Raise e => Raise e
  | Timeout => Timeout
  end.

(** [Parser.__init__]: continuation tokens are dropped. *)
Definition Parser_init (toks : list Token) : list Token :=
  List.filter (fun t => negb (bool_decide (type t = CONTINUATION))) toks.

Definition is_value_type (ty : TokenType) : bool :=
  match ty with
  | IDENTIFIER | STRING | NUMBER | KEYWORD => true
  | _ => false
  end.

Definition set_keyword (kw : string) (v : Value) (seg : Segment) : Segment :=
  mkSegment (seg_name seg) (<[kw := v]> (seg_keywords seg)).

Definition add_flag (kw : string) (cmd : AddUserCommand) : AddUserCommand :=
  mkAddUserCommand (userids cmd) (keywords cmd) (segments cmd)
                   ({[kw]} ∪ flags cmd).
Definition add_segment (kw : string) (seg : Segment) (cmd : AddUserCommand)
  : AddUserCommand :=
  mkAddUserCommand (userids cmd) (keywords cmd) (<[kw := seg]> (segments cmd))
                   (flags cmd).
Definition add_keyword (kw : string) (v : Value) (cmd : AddUserCommand)
  : AddUserCommand :=
  mkAddUserCommand (userids cmd) (<[kw := v]> (keywords cmd)) (segments cmd)
                   (flags cmd).

(** The parser object is its (fixed) token list and the position [pos], which
    the methods below thread explicitly. *)
Section Parser.

Variable tokens : list Token.

Definition current (pos : nat) : outcome Token :=
  match tokens !! pos with
  | Some t => Done t
  | None =>
      match last tokens with
      | Some t => Done t
      | None => Raise IndexError
      end
  end.

Definition advance_tok (pos : nat) : outcome (Token * nat) :=
  token ← current pos;
  Done (token, S pos).

Definition expect (token_type : TokenType) (pos : nat)
  : outcome (Token * nat) :=
  token ← current pos;
  if decide (type token = token_type)
  then advance_tok pos
  else Raise (SyntaxError_expected token_type (type token)
                                   (line token) (column token)).

(** The [while] loop of [parse_value_list]. *)
Fixpoint parse_value_list_loop (fuel : nat) (values : list string) (pos : nat)
  : outcome (list string * nat) :=
  match fuel with
  | O => Timeout
  | S fuel' =>
      token ← current pos;
      if decide (type token = RPAREN) then Done (values, pos)
      else if is_value_type (type token) then
        '(_, pos') ← advance_tok pos;
        parse_value_list_loop fuel' (values ++ [value token]) pos'
      else Done (values, pos)
  end.

Definition parse_value_list (fuel : nat) (pos : nat)
  : outcome (list string * nat) :=
  '(_, pos1) ← expect LPAREN pos;
  '(values, pos2) ← parse_value_list_loop fuel [] pos1;
  '(_, pos3) ← expect RPAREN pos2;
  Done (values, pos3).

Definition parse_single_value (fuel : nat) (pos : nat)
  : outcome (Value * nat) :=
  '(values, pos') ← parse_value_list fuel pos;
  match values with
  | [v] => Done (VStr v, pos')
  | _ => Done (VList values, pos')
  end.

(** [parse_segment] and its [while] loop.  The recursion through nested
    segments is bounded by the fuel only, not by the interpreter's limit on
    the depth of calls. *)
Fixpoint parse_segment (fuel : nat) (name : string) (pos : nat)
  : outcome (Segment * nat) :=
  match fuel with
  | O => Timeout
  | S fuel' =>
      '(_, pos1) ← expect LPAREN pos;
      '(segment, pos2) ← parse_segment_loop fuel' (mkSegment name ∅) pos1;
      '(_, pos3) ← expect RPAREN pos2;
      Done (segment, pos3)
  end
with parse_segment_loop (fuel : nat) (segment : Segment) (pos : nat)
  : outcome (Segment * nat) :=
  match fuel with
  | O => Timeout
  | S fuel' =>
      token ← current pos;
      if decide (type token = RPAREN) then Done (segment, pos)
      else if decide (type token = KEYWORD) then
        '(tk, pos1) ← advance_tok pos;
        let kw := value tk in
        if decide (kw ∈ FLAG_KEYWORDS) then
          parse_segment_loop fuel' (set_keyword kw VTrue segment) pos1
        else
          next ← current pos1;
          if decide (type next = LPAREN) then
            if decide (kw ∈ SEGMENT_NAMES) then
              '(inner, pos2) ← parse_segment fuel' kw pos1;
              parse_segment_loop fuel'
                (set_keyword kw (VSegment inner) segment) pos2
            else
              '(v, pos2) ← parse_single_value fuel' pos1;
              parse_segment_loop fuel' (set_keyword kw v segment) pos2
          else parse_segment_loop fuel' segment pos1
      else if decide (type token = EOF) then Done (segment, pos)
      else
        '(_, pos1) ← advance_tok pos;
        parse_segment_loop fuel' segment pos1
  end.

(** The "Parse keywords" [while] loop of [parse]. *)
Fixpoint parse_keywords (fuel : nat) (cmd : AddUserCommand) (pos : nat)
  : outcome AddUserCommand :=
  match fuel with
  | O => Timeout
  | S fuel' =>
      token ← current pos;
      if decide (type token = EOF) then Done cmd
      else if decide (type token = KEYWORD) then
        '(tk, pos1) ← advance_tok pos;
        let kw := value tk in
        if decide (kw ∈ FLAG_KEYWORDS) then
          parse_keywords fuel' (add_flag kw cmd) pos1
        else if decide (kw ∈ SEGMENT_NAMES) then
          '(seg, pos2) ← parse_segment fuel' kw pos1;
          parse_keywords fuel' (add_segment kw seg cmd) pos2
        else
          next ← current pos1;
          if decide (type next = LPAREN) then
            '(v, pos2) ← parse_single_value fuel' pos1;
            parse_keywords fuel' (add_keyword kw v cmd) pos2
          else parse_keywords fuel' cmd pos1
      else
        '(_, pos1) ← advance_tok pos;
        parse_keywords fuel' cmd pos1
  end.

Definition parse (fuel : nat) : outcome AddUserCommand :=
  token ← current 0;
  if decide (type token = COMMAND) then
    '(_, pos1) ← advance_tok 0;
    '(ids, pos2) ← parse_value_list fuel pos1;
    parse_keywords fuel (mkAddUserCommand ids ∅ ∅ ∅) pos2
  else Raise (SyntaxError_command (line token)).

End Parser.

(** Every loop iteration and every recursive call consumes a token before
    the next one starts, so [len(tokens) + 1] units of fuel are enough for a
    token list that ends in its only [EOF] (lemma [parse_no_timeout]). *)
Definition Parser_parse (toks : list Token) : outcome AddUserCommand :=
  let tokens := Parser_init toks in
  parse tokens (S (length tokens)).

Definition parse_adduser (src : string) : outcome AddUserCommand :=
  match tokenize src with
  | Some toks => Parser_parse toks
  | None => Timeout
  end.

End AdduserParser.

(** ** server/racf_server.py *)

Module RacfServer.

(** [RACF_COMMANDS]: command name and abbreviation (the description is not
    used by the lexer). *)
Definition RACF_COMMANDS : list (string * string) := [
  ("ADDUSER", "AU"); ("ALTUSER", "ALU"); ("DELUSER", "DU");
  ("LISTUSER", "LU"); ("PASSWORD", "PW");
  ("ADDGROUP", "AG"); ("ALTGROUP", "ALG"); ("DELGROUP", "DG");
  ("LISTGRP", "LG");
  ("CONNECT", "CO"); ("REMOVE", "RE");
  ("ADDSD", "AD"); ("ALTDSD", "ALD"); ("DELDSD", "DD"); ("LISTDSD", "LD");
  ("RDEFINE", "RDEF"); ("RALTER", "RALT"); ("RDELETE", "RDEL");
  ("RLIST", "RL");
  ("PERMIT", "PE");
  ("SETROPTS", "SETR");
  ("SEARCH", "SR");
  ("RACDCERT", EmptyString)
].

Definition BASE_KEYWORDS : list string := [
  "ADSP"; "NOADSP"; "AUDITOR"; "NOAUDITOR"; "GRPACC"; "NOGRPACC";
  "OIDCARD"; "NOOIDCARD"; "OPERATIONS"; "NOOPERATIONS";
  "RESTRICTED"; "NORESTRICTED"; "ROAUDIT"; "NOROAUDIT";
  "SPECIAL"; "NOSPECIAL"; "NOPASSWORD"; "NOCLAUTH";
  "ADDCATEGORY"; "AUTHORITY"; "CLAUTH"; "DATA"; "DFLTGRP";
  "MODEL"; "NAME"; "OWNER"; "PASSWORD"; "PHRASE";
  "SECLABEL"; "SECLEVEL"; "UACC"
].

Definition SEGMENTS : list string := [
  "CICS"; "DCE"; "DFP"; "EIM"; "KERB"; "LANGUAGE"; "LNOTES";
  "NDS"; "NETVIEW"; "OMVS"; "OPERPARM"; "OVM"; "PROXY";
  "TSO"; "WHEN"; "WORKATTR"
].

Definition OMVS_KEYWORDS : list string := [
  "ASSIZEMAX"; "AUTOUID"; "UID"; "SHARED"; "CPUTIMEMAX";
  "FILEPROCMAX"; "HOME"; "MEMLIMIT"; "NOMEMLIMIT";
  "MMAPAREAMAX"; "PROCUSERMAX"; "PROGRAM"; "SHMEMMAX";
  "NOSHMEMMAX"; "THREADSMAX"
].

Definition TSO_KEYWORDS : list string := [
  "ACCTNUM"; "COMMAND"; "DEST"; "HOLDCLASS"; "JOBCLASS";
  "MAXSIZE"; "MSGCLASS"; "PROC"; "SECLABEL"; "SIZE"; "UNIT"; "USERDATA"
].

Definition ACCESS_LEVELS : list string :=
  ["NONE"; "READ"; "UPDATE"; "CONTROL"; "ALTER"].

Definition GROUP_AUTHORITIES : list string :=
  ["USE"; "CREATE"; "CONNECT"; "JOIN"].

Definition RESOURCE_CLASSES : list string := [
  "DATASET"; "FACILITY"; "PROGRAM"; "TERMINAL"; "SDSF"; "TAPEVOL";
  "DASDVOL"; "JESSPOOL"; "JESJOBS"; "SURROGAT"; "OPERCMDS"; "CONSOLE"
].

Definition ALL_KEYWORDS : gset string :=
  list_to_set (map fst RACF_COMMANDS)
  ∪ list_to_set
      (List.filter (fun k => negb (String.eqb k EmptyString))
                   (map snd RACF_COMMANDS))
  ∪ list_to_set BASE_KEYWORDS
  ∪ list_to_set SEGMENTS
  ∪ list_to_set OMVS_KEYWORDS
  ∪ list_to_set TSO_KEYWORDS
  ∪ list_to_set ACCESS_LEVELS
  ∪ list_to_set GROUP_AUTHORITIES
  ∪ list_to_set RESOURCE_CLASSES
  ∪ list_to_set ["CLASS"; "ID"; "ACCESS"; "AUDIT"; "ALL"; "MASK"; "REFRESH";
                 "HISTORY"; "INTERVAL"; "CLASSACT"; "RACLIST"; "GID";
                 "SUPGROUP"].

Inductive TokenType :=
  | COMMAND | KEYWORD | SEGMENT | LPAREN | RPAREN | STRING
  | IDENTIFIER | NUMBER | CONTINUATION | COMMENT | EOF.

#[global] Instance TokenType_eq_dec : EqDecision TokenType.
Proof. solve_decision. Defined.

Record Token := mkToken {
  type : TokenType;
  value : string;
  line : Z;
  column : Z;
  end_column : Z
}.

(** [Token(type, value, line, column)]: [end_column] is left at its default
    [0], which [__post_init__] replaces by [column + len(value)]. *)
Definition Token_new (ty : TokenType) (v : string) (ln col : Z) : Token :=
  mkToken ty v ln col (col + len v).

(** *** Lexer *)

Record Lexer := mkLexer {
  source : string;
  cur_line : Z;
  cur_column : Z
}.

Definition Lexer_init (src : string) : Lexer := mkLexer src 0 0.

Definition current_char (lx : Lexer) : option ascii :=
  match source lx with
  | EmptyString => None
  | String c _ => Some c
  end.

Definition peek (lx : Lexer) : option ascii :=
  match source lx with
  | String _ (String d _) => Some d
  | _ => None
  end.

Definition next_line (c : ascii) (ln : Z) : Z :=
  if Ascii.eqb c NL then (ln + 1)%Z else ln.
Definition next_column (c : ascii) (col : Z) : Z :=
  if Ascii.eqb c NL then 0%Z else (col + 1)%Z.

Definition advance (lx : Lexer) : Lexer :=
  match source lx with
  | EmptyString => mkLexer EmptyString (cur_line lx) (cur_column lx + 1)
  | String c s' =>
      mkLexer s' (next_line c (cur_line lx)) (next_column c (cur_column lx))
  end.

Fixpoint skip_whitespace_from (s : string) (ln col : Z) : Lexer :=
  match s with
  | EmptyString => mkLexer s ln col
  | String c s' =>
      if char_in c SPACE_TAB
      then skip_whitespace_from s' (next_line c ln) (next_column c col)
      else mkLexer s ln col
  end.

Definition skip_whitespace (lx : Lexer) : Lexer :=
  skip_whitespace_from (source lx) (cur_line lx) (cur_column lx).

(** The [while] loop of [read_comment], entered after the opening
    slash-star; returns the text appended to [value] and the cursor. *)
Fixpoint read_comment_from (s : string) (ln col : Z) : string * Lexer :=
  match s with
  | EmptyString => (EmptyString, mkLexer s ln col)
  | String c s' =>
      match s' with
      | String d s'' =>
          if Ascii.eqb c "*" && Ascii.eqb d "/"
          then ("*/", mkLexer s'' (next_line d (next_line c ln))
                                  (next_column d (next_column c col)))
          else
            let '(v, lx) :=
              read_comment_from s' (next_line c ln) (next_column c col) in
            (String c v, lx)
      | EmptyString =>
          let '(v, lx) :=
            read_comment_from s' (next_line c ln) (next_column c col) in
          (String c v, lx)
      end
  end.

Definition read_comment (lx : Lexer) : Token * Lexer :=
  let lx2 := advance (advance lx) in
  let '(v, lx') :=
    read_comment_from (source lx2) (cur_line lx2) (cur_column lx2) in
  (Token_new COMMENT ("/*" ++ v) (cur_line lx) (cur_column lx), lx').

Fixpoint read_string_from (s : string) (ln col : Z) : string * Lexer :=
  match s with
  | EmptyString => (EmptyString, mkLexer s ln col)
  | String c s' =>
      if Ascii.eqb c QUOTE then
        match s' with
        | String d s'' =>
            if Ascii.eqb d QUOTE
            then let '(v, lx) :=
                   read_string_from s'' (next_line d (next_line c ln))
                                        (next_column d (next_column c col)) in
                 (String QUOTE v, lx)
            else (EmptyString,
                  mkLexer s' (next_line c ln) (next_column c col))
        | EmptyString =>
            (EmptyString, mkLexer s' (next_line c ln) (next_column c col))
        end
      else
        let '(v, lx) :=
          read_string_from s' (next_line c ln) (next_column c col) in
        (String c v, lx)
  end.

Definition read_string (lx : Lexer) : Token * Lexer :=
  let lx1 := advance lx in
  let '(v, lx2) :=
    read_string_from (source lx1) (cur_line lx1) (cur_column lx1) in
  (Token_new STRING v (cur_line lx) (cur_column lx), lx2).

Definition ident_char (c : ascii) : bool := isalnum c || char_in c "@#$._".

Fixpoint read_word_from (s : string) (ln col : Z) : string * Lexer :=
  match s with
  | EmptyString => (EmptyString, mkLexer s ln col)
  | String c s' =>
      if ident_char c
      then let '(v, lx) :=
             read_word_from s' (next_line c ln) (next_column c col) in
           (String c v, lx)
      else (EmptyString, mkLexer s ln col)
  end.

Definition classify (v : string) (ln col : Z) : Token :=
  let up := upper v in
  if bool_decide (up ∈ map fst RACF_COMMANDS) then Token_new COMMAND up ln col
  else if bool_decide (up ∈ map snd RACF_COMMANDS)
  then Token_new COMMAND up ln col
  else if bool_decide (up ∈ SEGMENTS) then Token_new SEGMENT up ln col
  else if bool_decide (up ∈ ALL_KEYWORDS) then Token_new KEYWORD up ln col
  else if isdigit v then Token_new NUMBER v ln col
  else Token_new IDENTIFIER (upper v) ln col.

Definition read_identifier (lx : Lexer) : Token * Lexer :=
  let '(v, lx') :=
    read_word_from (source lx) (cur_line lx) (cur_column lx) in
  (classify v (cur_line lx) (cur_column lx), lx').

Definition here (ty : TokenType) (v : string) (lx : Lexer) : Token :=
  Token_new ty v (cur_line lx) (cur_column lx).

(** [rest = self.source[self.pos + 1:].lstrip(' \t')] followed by
    [not rest or rest[0] == '\n']. *)
Definition at_line_end (lx : Lexer) : bool :=
  match source lx with
  | EmptyString => true
  | String _ s' =>
      match lstrip SPACE_TAB s' with
      | EmptyString => true
      | String d _ => Ascii.eqb d NL
      end
  end.

(** The main loop of [tokenize]; one unit of fuel per iteration. *)
Fixpoint tokenize_loop (fuel : nat) (lx : Lexer) : option (list Token) :=
  match fuel with
  | O => None
  | S fuel' =>
      match current_char lx with
      | None => Some [here EOF EmptyString lx]
      | Some c =>
          if char_in c SPACE_TAB then
            tokenize_loop fuel' (skip_whitespace lx)
          else if Ascii.eqb c NL then
            tokenize_loop fuel' (advance lx)
          else if Ascii.eqb c "/"
                  && bool_decide (peek lx = Some "*"%char) then
            let '(t, lx') := read_comment lx in
            cons t <$> tokenize_loop fuel' lx'
          else if Ascii.eqb c "-" then
            if at_line_end lx then
              cons (here CONTINUATION "-" lx)
                <$> tokenize_loop fuel' (advance lx)
            else tokenize_loop fuel' (advance lx)
          else if Ascii.eqb c "(" then
            cons (here LPAREN "(" lx) <$> tokenize_loop fuel' (advance lx)
          else if Ascii.eqb c ")" then
            cons (here RPAREN ")" lx) <$> tokenize_loop fuel' (advance lx)
          else if Ascii.eqb c QUOTE then
            let '(t, lx') := read_string lx in
            cons t <$> tokenize_loop fuel' lx'
          else if isalnum c || char_in c "@#$%" then
            let '(t, lx') := read_identifier lx in
            cons t <$> tokenize_loop fuel' lx'
          else
            tokenize_loop fuel' (advance lx)
      end
  end.

(** [Lexer(source).tokenize()], cut off after [fuel] iterations. *)
Definition tokenize (fuel : nat) (src : string) : option (list Token) :=
  tokenize_loop fuel (Lexer_init src).

(** *** Document *)

Record RACFCommand := mkRACFCommand {
  name : string;
  cmd_line : Z;
  end_line : Z;
  arguments : list string;
  keywords : gmap string AdduserParser.Value;
  segments : gmap string (gmap string AdduserParser.Value);
  flags : gset string
}.

(** [RACFCommand(name=..., line=..., end_line=...)]: the other fields take
    their default factories. *)
Definition RACFCommand_new (n : string) (ln eln : Z) : RACFCommand :=
  mkRACFCommand n ln eln [] ∅ ∅ ∅.

(** The inner loop of [RACFDocument.parse]: from [tokens[j:]], the line of
    the last token before the next COMMAND or EOF token. *)
Fixpoint find_end_line (toks : list Token) (eln : Z) : Z :=
  match toks with
  | [] => eln
  | t :: rest =>
      if decide (type t = COMMAND) then eln
      else if decide (type t = EOF) then eln
      else find_end_line rest (line t)
  end.

(** The outer loop of [RACFDocument.parse] over [tokens[i:]]. *)
Fixpoint detect_commands (toks : list Token) : list RACFCommand :=
  match toks with
  | [] => []
  | token :: rest =>
      if decide (type token = COMMAND) then
        RACFCommand_new (value token) (line token)
                        (find_end_line rest (line token))
          :: detect_commands rest
      else detect_commands rest
  end.

(** [content.split('\n')] *)
Fixpoint split_lines (s : string) : list string :=
  match s with
  | EmptyString => [EmptyString]
  | String c s' =>
      if Ascii.eqb c NL then EmptyString :: split_lines s'
      else match split_lines s' with
           | l :: ls => String c l :: ls
           | [] => [String c EmptyString]
           end
  end.

Record RACFDocument := mkRACFDocument {
  uri : string;
  content : string;
  lines : list string;
  commands : list RACFCommand;
  tokens : list Token
}.

(** [RACFDocument(uri, content)]; [None] when the lexer has not returned
    within [fuel] iterations. *)
Definition RACFDocument_new (fuel : nat) (u : string) (text : string)
  : option RACFDocument :=
  toks ← tokenize fuel text;
  Some (mkRACFDocument u text (split_lines text) (detect_commands toks) toks).

Definition covers (t : Token) (ln ch : Z) : Prop :=
  line t = ln ∧ (column t <= ch)%Z ∧ (ch < end_column t)%Z.

#[global] Instance covers_dec t ln ch : Decision (covers t ln ch).
Proof. unfold covers. apply _. Defined.

Fixpoint token_at (toks : list Token) (ln ch : Z) : option Token :=
  match toks with
  | [] => None
  | token :: rest =>
      if decide (line token = ln) then
        if decide ((column token <= ch)%Z ∧ (ch < end_column token)%Z)
        then Some token
        else token_at rest ln ch
      else token_at rest ln ch
  end.

Definition get_token_at_position (doc : RACFDocument) (ln ch : Z)
  : option Token :=
  token_at (tokens doc) ln ch.

Definition in_span (cmd : RACFCommand) (ln : Z) : Prop :=
  (cmd_line cmd <= ln)%Z ∧ (ln <= end_line cmd)%Z.

Fixpoint command_at (cmds : list RACFCommand) (ln : Z) : option RACFCommand :=
  match cmds with
  | [] => None
  | cmd :: rest =>
      if decide ((cmd_line cmd <= ln)%Z ∧ (ln <= end_line cmd)%Z)
      then Some cmd
      else command_at rest ln
  end.

Definition get_command_at_line (doc : RACFDocument) (ln : Z)
  : option RACFCommand :=
  command_at (commands doc) ln.

(** *** Language server: the tables with their descriptions *)

(** The dictionaries of the module in the order of their literals, as
    [dict.items()] yields them.  [RACF_COMMANDS], [BASE_KEYWORDS] and the
    other key lists above are their [keys()]. *)

Definition RACF_COMMANDS_items : list (string * (string * string)) := [
  ("ADDUSER", ("AU", "Create a new user profile"));
  ("ALTUSER", ("ALU", "Modify an existing user profile"));
  ("DELUSER", ("DU", "Delete a user profile"));
  ("LISTUSER", ("LU", "Display user profile information"));
  ("PASSWORD", ("PW", "Change user password"));
  ("ADDGROUP", ("AG", "Create a new group profile"));
  ("ALTGROUP", ("ALG", "Modify an existing group profile"));
  ("DELGROUP", ("DG", "Delete a group profile"));
  ("LISTGRP", ("LG", "Display group profile information"));
  ("CONNECT", ("CO", "Connect a user to a group"));
  ("REMOVE", ("RE", "Remove a user from a group"));
  ("ADDSD", ("AD", "Add a dataset profile"));
  ("ALTDSD", ("ALD", "Alter a dataset profile"));
  ("DELDSD", ("DD", "Delete a dataset profile"));
  ("LISTDSD", ("LD", "List dataset profile"));
  ("RDEFINE", ("RDEF", "Define a general resource profile"));
  ("RALTER", ("RALT", "Alter a general resource profile"));
  ("RDELETE", ("RDEL", "Delete a general resource profile"));
  ("RLIST", ("RL", "List a general resource profile"));
  ("PERMIT", ("PE", "Add/change/delete access to a resource"));
  ("SETROPTS", ("SETR", "Set RACF system options"));
  ("SEARCH", ("SR", "Search the RACF database"));
  ("RACDCERT", (EmptyString, "Administer digital certificates"))
].

Definition BASE_KEYWORDS_items : list (string * string) := [
  ("ADSP", "Automatic dataset protection");
  ("NOADSP", "No automatic dataset protection");
  ("AUDITOR", "User has auditor authority");
  ("NOAUDITOR", "User does not have auditor authority");
  ("GRPACC", "Group access for datasets"); ("NOGRPACC", "No group access");
  ("OIDCARD", "Require operator ID card");
  ("NOOIDCARD", "No operator ID card required");
  ("OPERATIONS", "Operations authority");
  ("NOOPERATIONS", "No operations authority");
  ("RESTRICTED", "Restricted user"); ("NORESTRICTED", "Not restricted");
  ("ROAUDIT", "Read-only auditor"); ("NOROAUDIT", "Not read-only auditor");
  ("SPECIAL", "SPECIAL authority (full admin)");
  ("NOSPECIAL", "No SPECIAL authority");
  ("NOPASSWORD", "No password required"); ("NOCLAUTH", "No class authority");
  ("ADDCATEGORY", "Security category list");
  ("AUTHORITY", "Group authority (USE, CREATE, CONNECT, JOIN)");
  ("CLAUTH", "Class authority list");
  ("DATA", "Installation-defined data (quoted string)");
  ("DFLTGRP", "Default group"); ("MODEL", "Model dataset profile");
  ("NAME", "User name (quoted string)");
  ("OWNER", "Profile owner (userid or group)");
  ("PASSWORD", "Initial password");
  ("PHRASE", "Password phrase (quoted string)");
  ("SECLABEL", "Security label"); ("SECLEVEL", "Security level");
  ("UACC", "Universal access (NONE, READ, UPDATE, CONTROL, ALTER)")
].

Definition SEGMENTS_items : list (string * string) := [
  ("CICS", "CICS segment - transaction processing settings");
  ("DCE", "DCE segment - Distributed Computing Environment");
  ("DFP", "DFP segment - Data Facility Product settings");
  ("EIM", "EIM segment - Enterprise Identity Mapping");
  ("KERB", "KERB segment - Kerberos authentication");
  ("LANGUAGE", "LANGUAGE segment - language preferences");
  ("LNOTES", "LNOTES segment - Lotus Notes");
  ("NDS", "NDS segment - Novell Directory Services");
  ("NETVIEW", "NETVIEW segment - network management");
  ("OMVS", "OMVS segment - z/OS UNIX settings");
  ("OPERPARM", "OPERPARM segment - operator parameters");
  ("OVM", "OVM segment - OpenExtensions");
  ("PROXY", "PROXY segment - LDAP proxy");
  ("TSO", "TSO segment - Time Sharing Option settings");
  ("WHEN", "WHEN segment - time/day restrictions");
  ("WORKATTR", "WORKATTR segment - work attributes")
].

Definition OMVS_KEYWORDS_items : list (string * string) := [
  ("ASSIZEMAX", "Maximum address space size");
  ("AUTOUID", "Automatically assign UID");
  ("UID", "User identifier (0-2147483647)"); ("SHARED", "UID can be shared");
  ("CPUTIMEMAX", "Maximum CPU time (seconds)");
  ("FILEPROCMAX", "Maximum files per process");
  ("HOME", "Home directory path (quoted)"); ("MEMLIMIT", "Memory limit");
  ("NOMEMLIMIT", "No memory limit");
  ("MMAPAREAMAX", "Maximum memory map area");
  ("PROCUSERMAX", "Maximum processes per UID");
  ("PROGRAM", "Initial program (shell path, quoted)");
  ("SHMEMMAX", "Maximum shared memory");
  ("NOSHMEMMAX", "No shared memory limit");
  ("THREADSMAX", "Maximum threads per process")
].

Definition TSO_KEYWORDS_items : list (string * string) := [
  ("ACCTNUM", "Account number"); ("COMMAND", "Command issued at logon");
  ("DEST", "Destination ID"); ("HOLDCLASS", "Hold class (single char)");
  ("JOBCLASS", "Job class (single char)");
  ("MAXSIZE", "Maximum region size (KB)");
  ("MSGCLASS", "Message class (single char)");
  ("PROC", "Logon procedure name"); ("SECLABEL", "Security label");
  ("SIZE", "Default region size (KB)"); ("UNIT", "Unit name");
  ("USERDATA", "User data")
].

Definition ACCESS_LEVELS_items : list (string * string) := [
  ("NONE", "No access"); ("READ", "Read access");
  ("UPDATE", "Read and write access"); ("CONTROL", "Control access (VSAM)");
  ("ALTER", "Full control including delete")
].

Definition RESOURCE_CLASSES_items : list (string * string) := [
  ("DATASET", "Dataset profiles");
  ("FACILITY", "Facility class (system resources)");
  ("PROGRAM", "Program profiles"); ("TERMINAL", "Terminal profiles");
  ("SDSF", "SDSF class"); ("TAPEVOL", "Tape volume profiles");
  ("DASDVOL", "DASD volume profiles"); ("JESSPOOL", "JES spool profiles");
  ("JESJOBS", "JES job profiles"); ("SURROGAT", "Surrogate class");
  ("OPERCMDS", "Operator commands"); ("CONSOLE", "Console class")
].

(** [d.get(k)] on a dictionary given by its items. *)
Definition dict_get {V : Type} (d : list (string * V)) (k : string)
  : option V :=
  snd <$> List.find (fun kv => String.eqb (fst kv) k) d.

(** *** Language server: requests *)

(** The values the handlers build: Python dictionaries (in insertion
    order), lists, strings, integers and booleans, as [json.dumps] takes
    them. *)
#[warnings="-register-all"] Inductive json :=
  | JNull
  | JBool (b : bool)
  | JInt (n : Z)
  | JStr (s : string)
  | JList (l : list json)
  | JObj (fields : list (string * json)).

(** [self.documents] *)
Definition documents := gmap string RACFDocument.

Definition NLNL : string := String NL (String NL EmptyString).

Definition markdown (v : string) : json :=
  JObj [("contents", JObj [("kind", JStr "markdown"); ("value", JStr v)])].

(** The body of [handle_hover] after the token is found; [word] is
    [token.value.upper()]. *)
Definition hover_word (word : string) : option json :=
  match dict_get RACF_COMMANDS_items word with
  | Some (abbrev, desc) =>
      let abbrev_str :=
        if String.eqb abbrev EmptyString then EmptyString
        else " (abbreviation: " ++ abbrev ++ ")" in
      Some (markdown ("**" ++ word ++ "**" ++ abbrev_str ++ NLNL ++ desc))
  | None =>
  match List.find (fun e => String.eqb word (fst (snd e)))
                  RACF_COMMANDS_items with
  | Some (cmd, (abbrev, desc)) =>
      Some (markdown ("**" ++ word ++ "** (full: " ++ cmd ++ ")"
                      ++ NLNL ++ desc))
  | None =>
  match dict_get BASE_KEYWORDS_items word with
  | Some desc => Some (markdown ("**" ++ word ++ "**" ++ NLNL ++ desc))
  | None =>
  match dict_get SEGMENTS_items word with
  | Some desc => Some (markdown ("**" ++ word ++ "**" ++ NLNL ++ desc))
  | None =>
  match dict_get OMVS_KEYWORDS_items word with
  | Some desc =>
      Some (markdown ("**" ++ word ++ "** (OMVS segment)" ++ NLNL ++ desc))
  | None =>
  match dict_get TSO_KEYWORDS_items word with
  | Some desc =>
      Some (markdown ("**" ++ word ++ "** (TSO segment)" ++ NLNL ++ desc))
  | None =>
  match dict_get ACCESS_LEVELS_items word with
  | Some desc =>
      Some (markdown ("**" ++ word ++ "**" ++ NLNL ++ "Access level: "
                      ++ desc))
  | None =>
  match dict_get RESOURCE_CLASSES_items word with
  | Some desc =>
      Some (markdown ("**" ++ word ++ "**" ++ NLNL ++ "Resource class: "
                      ++ desc))
  | None => None
  end end end end end end end end.

(** [handle_hover], with [params] given as the uri of the text document and
    the line and character of the position. *)
Definition handle_hover (docs : documents) (u : string) (ln ch : Z)
  : option json :=
  match docs !! u with
  | None => None
  | Some doc =>
      match get_token_at_position doc ln ch with
      | None => None
      | Some token => hover_word (upper (value token))
      end
  end.

(** The completion items of [handle_completion], one constructor of items
    per [append] of the source. *)
Definition omvs_item (kv : string * string) : json :=
  JObj [("label", JStr (fst kv)); ("kind", JInt 14); ("detail", JStr (snd kv));
        ("documentation", JStr ("OMVS segment: " ++ snd kv))].

Definition tso_item (kv : string * string) : json :=
  JObj [("label", JStr (fst kv)); ("kind", JInt 14); ("detail", JStr (snd kv));
        ("documentation", JStr ("TSO segment: " ++ snd kv))].

Definition access_item (kv : string * string) : json :=
  JObj [("label", JStr (fst kv)); ("kind", JInt 21);
        ("detail", JStr (snd kv))].

Definition command_item (e : string * (string * string)) : json :=
  let '(cmd_name, (abbrev, desc)) := e in
  JObj [("label", JStr cmd_name); ("kind", JInt 14);
        ("detail",
         JStr (if String.eqb abbrev EmptyString then desc
               else "(" ++ abbrev ++ ") " ++ desc));
        ("documentation", JStr desc)].

Definition keyword_item (kv : string * string) : json :=
  JObj [("label", JStr (fst kv)); ("kind", JInt 14);
        ("detail", JStr (snd kv))].

Definition segment_item (kv : string * string) : json :=
  JObj [("label", JStr (fst kv)); ("kind", JInt 7); ("detail", JStr (snd kv));
        ("insertText", JStr (fst kv ++ "($0)"));
        ("insertTextFormat", JInt 2)].

Definition common_items : list json := [
  JObj [("label", JStr "CLASS"); ("kind", JInt 14);
        ("detail", JStr "Resource class")];
  JObj [("label", JStr "ID"); ("kind", JInt 14);
        ("detail", JStr "User or group ID")];
  JObj [("label", JStr "ACCESS"); ("kind", JInt 14);
        ("detail", JStr "Access level")]
].

(** The loop [for seg in SEGMENTS.keys(): if seg + '(' in prefix:
    last_segment = seg]. *)
Definition last_segment (prefix : string) : option string :=
  fold_left (fun acc seg => if contains (seg ++ "(") prefix then Some seg
                            else acc)
            SEGMENTS None.

(** [handle_completion], with [params] given as the uri and the line and
    character of the position; [None] stands for the [IndexError] of
    [doc.lines[line]]. *)
Definition handle_completion (docs : documents) (u : string)
    (ln character : Z) : option (list json) :=
  match docs !! u with
  | None => Some []
  | Some doc =>
      if (Z.of_nat (length (lines doc)) <=? ln)%Z then Some []
      else
        line_text ← getitem (lines doc) ln;
        let prefix := upper (slice_to line_text character) in
        let cmd := get_command_at_line doc ln in
        let open_parens := (count_char "(" prefix - count_char ")" prefix)%Z in
        Some
          (if (0 <? open_parens)%Z then
             if bool_decide (last_segment prefix = Some "OMVS")
             then map omvs_item OMVS_KEYWORDS_items
             else if bool_decide (last_segment prefix = Some "TSO")
             then map tso_item TSO_KEYWORDS_items
             else map access_item ACCESS_LEVELS_items
           else if negb (bool_decide (is_Some cmd))
                   || String.eqb (strip prefix) EmptyString
                   || endswith (rstrip_space prefix) (String NL EmptyString)
           then map command_item RACF_COMMANDS_items
           else (map keyword_item BASE_KEYWORDS_items
                 ++ map segment_item SEGMENTS_items
                 ++ common_items)%list)
  end.

(** One entry of [handle_document_symbol]; [None] stands for the
    [IndexError] of [doc.lines[cmd.end_line]]. *)
Definition symbol_of (doc : RACFDocument) (cmd : RACFCommand) : option json :=
  let detail :=
    match arguments cmd with
    | [] => EmptyString
    | a :: _ => a
    end in
  end_character ←
    (if (end_line cmd <? Z.of_nat (length (lines doc)))%Z
     then len <$> getitem (lines doc) (end_line cmd)
     else Some 0%Z);
  Some (JObj [
    ("name", JStr (name cmd));
    ("detail", JStr detail);
    ("kind", JInt 12);
    ("range", JObj [
       ("start", JObj [("line", JInt (cmd_line cmd)); ("character", JInt 0)]);
       ("end", JObj [("line", JInt (end_line cmd));
                     ("character", JInt end_character)])]);
    ("selectionRange", JObj [
       ("start", JObj [("line", JInt (cmd_line cmd)); ("character", JInt 0)]);
       ("end", JObj [("line", JInt (cmd_line cmd));
                     ("character", JInt (len (name cmd)))])])]).

Definition handle_document_symbol (docs : documents) (u : string)
  : option (list json) :=
  match docs !! u with
  | None => Some []
  | Some doc => mapM (symbol_of doc) (commands doc)
  end.

(** [handle_did_open]; [None] when the lexer has not returned within [fuel]
    iterations. *)
Definition handle_did_open (fuel : nat) (docs : documents) (u text : string)
  : option documents :=
  doc ← RACFDocument_new fuel u text;
  Some (<[u := doc]> docs).

(** [handle_did_change]: [changes] is [params.get('contentChanges', [])],
    each change given by its ['text'] entry if it has one. *)
Definition handle_did_change (fuel : nat) (docs : documents) (u : string)
    (changes : list (option string)) : option documents :=
  match changes with
  | [] => Some docs
  | change :: _ => handle_did_open fuel docs u (default EmptyString change)
  end.

(** [handle_did_close] *)
Definition handle_did_close (docs : documents) (u : string) : documents :=
  delete u docs.

End RacfServer.

(** ** Vocabulary of the properties *)

(** [s] with every quote character doubled, and the literal built from it. *)
Fixpoint escape_quotes (s : string) : string :=
  match s with
  | EmptyString => EmptyString
  | String c s' =>
      if Ascii.eqb c QUOTE
      then String QUOTE (String QUOTE (escape_quotes s'))
      else String c (escape_quotes s')
  end.

Definition quoted (s : string) : string :=
  String QUOTE (escape_quotes s ++ String QUOTE EmptyString).

(** A piece of source text is lexically closed when the lexer, started on it
    outside any literal, has left every string literal and every comment it
    entered by the time the text ends.  [string_end s] is the text after the
    quote that closes a literal whose body starts at [s]; [comment_end s] is
    the text after the star-slash that closes a comment whose body starts at
    [s]. *)
Fixpoint string_end (s : string) : option string :=
  match s with
  | EmptyString => None
  | String c s' =>
      if Ascii.eqb c QUOTE then
        match s' with
        | String d s'' => if Ascii.eqb d QUOTE then string_end s'' else Some s'
        | EmptyString => Some s'
        end
      else string_end s'
  end.

Fixpoint comment_end (s : string) : option string :=
  match s with
  | EmptyString => None
  | String c s' =>
      match s' with
      | String d s'' =>
          if Ascii.eqb c "*" && Ascii.eqb d "/" then Some s''
          else comment_end s'
      | EmptyString => None
      end
  end.


(** [sep.join(pieces)] *)
Fixpoint join_lines (sep : string) (pieces : list string) : string :=
  match pieces with
  | [] => EmptyString
  | [p] => p
  | p :: rest => p ++ sep ++ join_lines sep rest
  end.

(** A continuation marker at the end of a physical line, and what replaces
    it when the command is written on one line. *)
Definition CONTINUED_LINE_BREAK : string := String "-" (String NL EmptyString).

(** What the parser sees of a token list: type and value of the tokens that
    are not continuation markers. *)
Definition token_stream (toks : list AdduserParser.Token)
  : list (AdduserParser.TokenType * string) :=
  map (fun t => (AdduserParser.type t, AdduserParser.value t))
      (AdduserParser.Parser_init toks).

(** The AST of a parse, if it returned one. *)
Definition ast_of (r : AdduserParser.outcome AdduserParser.AddUserCommand)
  : option AdduserParser.AddUserCommand :=
  match r with
  | AdduserParser.Done cmd => Some cmd
  | _ => None
  end.

(** ** Shape of the parser's result *)

(** What [parse_segment] can store under the key [k] of [Segment.keywords]:
    [True] for a flag keyword, a nested [Segment] named [k] for a segment
    name, and otherwise the value of a parenthesised list: the string itself
    when the list has one element, the list when it has none or several. *)
Inductive wf_value : string -> AdduserParser.Value -> Prop :=
  | wf_flag k :
      k ∈ AdduserParser.FLAG_KEYWORDS -> wf_value k AdduserParser.VTrue
  | wf_str k s :
      k ∉ AdduserParser.FLAG_KEYWORDS -> k ∉ AdduserParser.SEGMENT_NAMES ->
      wf_value k (AdduserParser.VStr s)
  | wf_list k l :
      k ∉ AdduserParser.FLAG_KEYWORDS -> k ∉ AdduserParser.SEGMENT_NAMES ->
      length l <> 1 -> wf_value k (AdduserParser.VList l)
  | wf_nested k kws :
      k ∉ AdduserParser.FLAG_KEYWORDS -> k ∈ AdduserParser.SEGMENT_NAMES ->
      (forall k' v, kws !! k' = Some v -> wf_value k' v) ->
      wf_value k (AdduserParser.VSegment (AdduserParser.mkSegment k kws)).

(** The three containers of an [AddUserCommand] and what each can hold. *)
Record wf_command (cmd : AdduserParser.AddUserCommand) : Prop := {
  wf_flags :
    forall k, k ∈ AdduserParser.flags cmd -> k ∈ AdduserParser.FLAG_KEYWORDS;
  wf_segments :
    forall k seg, AdduserParser.segments cmd !! k = Some seg ->
      wf_value k (AdduserParser.VSegment seg);
  wf_keywords :
    forall k v, AdduserParser.keywords cmd !! k = Some v ->
      wf_value k v /\ (k ∉ AdduserParser.FLAG_KEYWORDS)
      /\ (k ∉ AdduserParser.SEGMENT_NAMES)
}.

(** ** Tokens as the example lexer classifies them *)

(** What the value of a token of each type can be. *)
Definition adduser_token_ok (t : AdduserParser.Token) : Prop :=
  let v := AdduserParser.value t in
  match AdduserParser.type t with
  | AdduserParser.COMMAND => v = "ADDUSER" \/ v = "AU"
  | AdduserParser.KEYWORD =>
      v ∈ AdduserParser.ADDUSER_KEYWORDS /\ v <> "ADDUSER" /\ v <> "AU"
  | AdduserParser.LPAREN => v = "("
  | AdduserParser.RPAREN => v = ")"
  | AdduserParser.STRING => True
  | AdduserParser.IDENTIFIER =>
      (v ∉ AdduserParser.ADDUSER_KEYWORDS) /\ upper v = v
      /\ v <> EmptyString /\ isdigit v = false
  | AdduserParser.NUMBER =>
      isdigit v = true /\ (v ∉ AdduserParser.ADDUSER_KEYWORDS)
  | AdduserParser.CONTINUATION => v = "-"
  | AdduserParser.EOF => v = EmptyString
  end.

(** ** Tokens as the server's lexer classifies them *)

(** What the value of a token of each type can be; [end_column] is the one
    [__post_init__] computes. *)
Definition racf_token_ok (t : RacfServer.Token) : Prop :=
  let v := RacfServer.value t in
  RacfServer.end_column t = (RacfServer.column t + len v)%Z
  /\ match RacfServer.type t with
     | RacfServer.COMMAND =>
         v <> EmptyString
         /\ (v ∈ map fst RacfServer.RACF_COMMANDS
             \/ v ∈ map snd RacfServer.RACF_COMMANDS)
     | RacfServer.SEGMENT =>
         v ∈ RacfServer.SEGMENTS
         /\ (v ∉ map fst RacfServer.RACF_COMMANDS)
         /\ (v ∉ map snd RacfServer.RACF_COMMANDS)
     | RacfServer.KEYWORD =>
         v ∈ RacfServer.ALL_KEYWORDS
         /\ (v ∉ map fst RacfServer.RACF_COMMANDS)
         /\ (v ∉ map snd RacfServer.RACF_COMMANDS)
         /\ (v ∉ RacfServer.SEGMENTS)
     | RacfServer.LPAREN => v = "("
     | RacfServer.RPAREN => v = ")"
     | RacfServer.STRING => True
     | RacfServer.IDENTIFIER =>
         (v ∉ RacfServer.ALL_KEYWORDS) /\ upper v = v
         /\ v <> EmptyString /\ isdigit v = false
     | RacfServer.NUMBER =>
         isdigit v = true /\ (v ∉ RacfServer.ALL_KEYWORDS)
     | RacfServer.CONTINUATION => v = "-"
     | RacfServer.COMMENT => exists body, v = "/*" ++ body
     | RacfServer.EOF => v = EmptyString
     end.

(** [doc.lines[token.line][token.column:token.end_column]], for a token
    whose line and columns are not negative. *)
Definition token_text (doc : RacfServer.RACFDocument) (t : RacfServer.Token)
  : option string :=
  l ← RacfServer.lines doc !! Z.to_nat (RacfServer.line t);
  Some (substring (Z.to_nat (RacfServer.column t))
                  (Z.to_nat (RacfServer.end_column t - RacfServer.column t))
                  l).

(** The token types whose value is a word or a punctuation character of the
    text. *)
Definition is_word_type (ty : RacfServer.TokenType) : bool :=
  match ty with
  | RacfServer.COMMAND | RacfServer.KEYWORD | RacfServer.SEGMENT
  | RacfServer.IDENTIFIER | RacfServer.NUMBER
  | RacfServer.LPAREN | RacfServer.RPAREN | RacfServer.CONTINUATION => true
  | _ => false
  end.

(** * Properties *)

Lemma append_cons c s t : String c s ++ t = String c (s ++ t).
Proof. reflexivity. Qed.

Lemma append_nil t : EmptyString ++ t = t.
Proof. reflexivity. Qed.

(** ** String literals (both lexers) *)

Section StringLiterals.

Lemma example_read_string_escape s ln col :
  exists ln' col',
    AdduserParser.read_string_from
      (escape_quotes s ++ String QUOTE EmptyString) ln col
    = (s, AdduserParser.mkLexer EmptyString ln' col').
Proof.
  revert ln col. induction s as [|c s IH]; intros ln col.
  - rewrite append_nil. simpl. eauto.
  - simpl. destruct (Ascii.eqb c QUOTE) eqn:Hc.
    + rewrite !append_cons. cbn [AdduserParser.read_string_from].
      change (Ascii.eqb QUOTE QUOTE) with true. cbv iota.
      edestruct IH as (ln' & col' & ->).
      apply Ascii.eqb_eq in Hc. subst c. eauto.
    + rewrite !append_cons. cbn [AdduserParser.read_string_from]. rewrite Hc.
      edestruct IH as (ln' & col' & ->). eauto.
Qed.

Lemma server_read_string_escape s ln col :
  exists ln' col',
    RacfServer.read_string_from
      (escape_quotes s ++ String QUOTE EmptyString) ln col
    = (s, RacfServer.mkLexer EmptyString ln' col').
Proof.
  revert ln col. induction s as [|c s IH]; intros ln col.
  - rewrite append_nil. simpl. eauto.
  - simpl. destruct (Ascii.eqb c QUOTE) eqn:Hc.
    + rewrite !append_cons. cbn [RacfServer.read_string_from].
      change (Ascii.eqb QUOTE QUOTE) with true. cbv iota.
      edestruct IH as (ln' & col' & ->).
      apply Ascii.eqb_eq in Hc. subst c. eauto.
    + rewrite !append_cons. cbn [RacfServer.read_string_from]. rewrite Hc.
      edestruct IH as (ln' & col' & ->). eauto.
Qed.

Lemma example_tokenize_loop_quoted s fuel :
  exists ln col,
    AdduserParser.tokenize_loop (S (S fuel))
                                (AdduserParser.Lexer_init (quoted s))
    = Some [AdduserParser.mkToken AdduserParser.STRING s 1 1;
            AdduserParser.mkToken AdduserParser.EOF EmptyString ln col].
Proof.
  destruct (example_read_string_escape s 1 2) as (ln & col & E).
  exists ln, col.
  change (AdduserParser.tokenize_loop (S (S fuel))
            (AdduserParser.Lexer_init (quoted s)))
    with (let '(t, lx') :=
            AdduserParser.read_string (AdduserParser.Lexer_init (quoted s)) in
          cons t <$> AdduserParser.tokenize_loop (S fuel) lx').
  unfold AdduserParser.read_string, quoted.
  cbn [AdduserParser.advance AdduserParser.source AdduserParser.cur_line
       AdduserParser.cur_column AdduserParser.Lexer_init].
  change (AdduserParser.next_line QUOTE 1) with 1%Z.
  change (AdduserParser.next_column QUOTE 1) with 2%Z.
  rewrite E. reflexivity.
Qed.

(** C6.  For every string [s], lexing the literal made of a quote, [s] with
    its quotes doubled, and a closing quote yields exactly one STRING token
    whose value is [s] itself (case and embedded quotes included), followed
    by the end-of-input token; this holds for the lexer of the example parser
    and for the lexer of the server. *)
Theorem quoted_literal_roundtrip (s : string) :
  (exists ln col,
     AdduserParser.tokenize (quoted s)
     = Some [AdduserParser.mkToken AdduserParser.STRING s 1 1;
             AdduserParser.mkToken AdduserParser.EOF EmptyString ln col])
  /\ (forall fuel, exists ln col,
        RacfServer.tokenize (S (S fuel)) (quoted s)
        = Some [RacfServer.Token_new RacfServer.STRING s 0 0;
                RacfServer.Token_new RacfServer.EOF EmptyString ln col]).
Proof.
  split.
  - unfold AdduserParser.tokenize.
    assert (exists k, String.length (quoted s) = S k) as [k ->]
      by (unfold quoted; simpl; eauto).
    apply example_tokenize_loop_quoted.
  - intros fuel. unfold RacfServer.tokenize.
    destruct (server_read_string_escape s 0 1) as (ln & col & E).
    exists ln, col.
    change (RacfServer.tokenize_loop (S (S fuel))
              (RacfServer.Lexer_init (quoted s)))
      with (let '(t, lx') :=
              RacfServer.read_string (RacfServer.Lexer_init (quoted s)) in
            cons t <$> RacfServer.tokenize_loop (S fuel) lx').
    unfold RacfServer.read_string, quoted.
    cbn [RacfServer.advance RacfServer.source RacfServer.cur_line
         RacfServer.cur_column RacfServer.Lexer_init].
    change (RacfServer.next_line QUOTE 0) with 0%Z.
    change (RacfServer.next_column QUOTE 0) with 1%Z.
    rewrite E. reflexivity.
Qed.

End StringLiterals.

(** ** The lexer of the example parser always returns *)

Module ExampleLexerFacts.
Import AdduserParser.

Functional Scheme example_tokenize_loop_ind :=
  Induction for tokenize_loop Sort Prop.

Lemma skip_whitespace_from_length s ln col :
  String.length (source (skip_whitespace_from s ln col)) <= String.length s.
Proof.
  revert ln col. induction s as [|c s IH]; intros ln col;
    cbn [skip_whitespace_from]; [simpl; lia|].
  destruct (char_in c WHITESPACE); [|simpl; lia].
  specialize (IH (next_line c ln) (next_column c col)). simpl. lia.
Qed.

Lemma skip_comment_from_length s ln col :
  String.length (source (skip_comment_from s ln col)) <= String.length s.
Proof.
  revert ln col. induction s as [|c s IH]; intros ln col; [simpl; lia|].
  cbn [skip_comment_from]. destruct s as [|d s''].
  - simpl. lia.
  - destruct (Ascii.eqb c "*" && Ascii.eqb d "/").
    + simpl. lia.
    + specialize (IH (next_line c ln) (next_column c col)).
      simpl in *. lia.
Qed.

Lemma read_string_from_length n : forall s ln col,
  String.length s <= n ->
  String.length (source (read_string_from s ln col).2) <= String.length s.
Proof.
  induction n as [|n IH]; intros s ln col Hn.
  - destruct s; [simpl; lia | simpl in Hn; lia].
  - destruct s as [|c s]; [simpl; lia|].
    cbn [read_string_from]. destruct (Ascii.eqb c QUOTE).
    + destruct s as [|d s''].
      * simpl. lia.
      * destruct (Ascii.eqb d QUOTE).
        -- specialize (IH s'' (next_line d (next_line c ln))
                          (next_column d (next_column c col))).
           destruct (read_string_from s'' _ _) as [v lx].
           simpl in *. lia.
        -- simpl. lia.
    + specialize (IH s (next_line c ln) (next_column c col)).
      destruct (read_string_from s _ _) as [v lx]. simpl in *. lia.
Qed.

Lemma read_word_from_length s ln col :
  String.length (source (read_word_from s ln col).2) <= String.length s.
Proof.
  revert ln col. induction s as [|c s IH]; intros ln col;
    cbn [read_word_from]; [simpl; lia|].
  destruct (ident_char c); [|simpl; lia].
  specialize (IH (next_line c ln) (next_column c col)).
  destruct (read_word_from s _ _) as [v lx]. simpl in *. lia.
Qed.

Lemma word_start_ident_char c :
  isalnum c || char_in c "@#$" = true -> ident_char c = true.
Proof.
  unfold ident_char. intros H. apply orb_true_iff in H as [H|H].
  - rewrite H. reflexivity.
  - apply orb_true_iff. right. simpl in *.
    repeat (apply orb_true_iff in H as [H|H]; [rewrite H; rewrite ?orb_true_r; reflexivity|]).
    discriminate.
Qed.

Lemma current_char_source lx c :
  current_char lx = Some c -> exists s', source lx = String c s'.
Proof.
  unfold current_char. destruct (source lx); [discriminate|].
  intros [= ->]. eauto.
Qed.

Lemma advance_length lx c :
  current_char lx = Some c ->
  S (String.length (source (advance lx))) = String.length (source lx).
Proof.
  intros (s' & E)%current_char_source. unfold advance. rewrite E. reflexivity.
Qed.

Lemma skip_whitespace_length lx c :
  current_char lx = Some c -> char_in c WHITESPACE = true ->
  String.length (source (skip_whitespace lx)) < String.length (source lx).
Proof.
  intros (s' & E)%current_char_source Hc. unfold skip_whitespace.
  rewrite E. cbn [skip_whitespace_from]. rewrite Hc.
  pose proof (skip_whitespace_from_length s' (next_line c (cur_line lx))
                (next_column c (cur_column lx))).
  simpl. lia.
Qed.

Lemma skip_comment_length lx c :
  current_char lx = Some c ->
  Ascii.eqb c "/" && bool_decide (peek lx = Some "*"%char) = true ->
  String.length (source (skip_comment lx)) < String.length (source lx).
Proof.
  intros Hc H. apply andb_true_iff in H as [H1 H2].
  apply bool_decide_eq_true in H2.
  unfold skip_comment. rewrite Hc, H2, H1.
  change (Ascii.eqb "*" "*") with true. cbv iota beta. cbn [andb].
  destruct lx as [[|c0 [|d s'']] ln col]; try discriminate.
  cbn [advance source cur_line cur_column].
  pose proof (skip_comment_from_length s''
     (next_line d (next_line c0 ln)) (next_column d (next_column c0 col))).
  simpl. lia.
Qed.

Lemma read_string_length lx c t lx' :
  current_char lx = Some c -> read_string lx = (t, lx') ->
  String.length (source lx') < String.length (source lx).
Proof.
  intros Hc. unfold read_string.
  pose proof (advance_length _ _ Hc) as Ha.
  pose proof (read_string_from_length _ (source (advance lx))
                (cur_line (advance lx)) (cur_column (advance lx))
                (Nat.le_refl _)) as Hr.
  destruct (read_string_from _ _ _) as [v lx2]. intros [<- <-]%pair_equal_spec.
  simpl in Hr. lia.
Qed.

Lemma read_identifier_length lx c t lx' :
  current_char lx = Some c -> isalnum c || char_in c "@#$" = true ->
  read_identifier_or_keyword lx = (t, lx') ->
  String.length (source lx') < String.length (source lx).
Proof.
  intros (s' & E)%current_char_source Hc%word_start_ident_char.
  unfold read_identifier_or_keyword. rewrite E.
  cbn [read_word_from]. rewrite Hc.
  pose proof (read_word_from_length s' (next_line c (cur_line lx))
                (next_column c (cur_column lx))) as Hr.
  destruct (read_word_from s' _ _) as [v lx2]. intros [<- <-]%pair_equal_spec.
  simpl in *. lia.
Qed.

(** A token list as the lexer produces it: tokens that are not EOF, then one
    EOF token. *)
Definition eof_terminated (toks : list Token) : Prop :=
  exists body eof,
    toks = (body ++ [eof])%list /\ type eof = EOF
    /\ Forall (fun t => type t <> EOF) body.

Lemma eof_terminated_cons t toks :
  type t <> EOF -> eof_terminated toks -> eof_terminated (t :: toks).
Proof.
  intros Ht (body & eof & -> & He & Hb).
  exists (t :: body), eof. repeat split; auto.
Qed.

Lemma read_string_type lx t lx' : read_string lx = (t, lx') -> type t = STRING.
Proof.
  unfold read_string. destruct (read_string_from _ _ _).
  intros [<- _]%pair_equal_spec. reflexivity.
Qed.

Lemma classify_type v ln col : type (classify v ln col) <> EOF.
Proof.
  unfold classify. repeat (case_match; simpl); discriminate.
Qed.

Lemma read_identifier_type lx t lx' :
  read_identifier_or_keyword lx = (t, lx') -> type t <> EOF.
Proof.
  unfold read_identifier_or_keyword. destruct (read_word_from _ _ _).
  intros [<- _]%pair_equal_spec. apply classify_type.
Qed.

Lemma tokenize_loop_total fuel lx :
  String.length (source lx) < fuel ->
  exists toks, tokenize_loop fuel lx = Some toks /\ eof_terminated toks.
Proof.
  revert fuel lx.
  apply (example_tokenize_loop_ind (fun fuel lx res =>
    String.length (source lx) < fuel ->
    exists toks, res = Some toks /\ eof_terminated toks)).
  - intros; lia.
  - intros fuel lx fuel' _ c Hc Hws IH Hlen. apply IH.
    pose proof (skip_whitespace_length _ _ Hc Hws). lia.
  - intros fuel lx fuel' _ c Hc _ Hcm IH Hlen. apply IH.
    pose proof (skip_comment_length _ _ Hc Hcm). lia.
  - intros fuel lx fuel' _ c Hc _ _ _ IH Hlen.
    destruct IH as (toks & -> & Ht).
    { pose proof (advance_length _ _ Hc). lia. }
    eexists. split; [reflexivity|].
    apply eof_terminated_cons; [discriminate | assumption].
  - intros fuel lx fuel' _ c Hc _ _ _ _ IH Hlen.
    destruct IH as (toks & -> & Ht).
    { pose proof (advance_length _ _ Hc). lia. }
    eexists. split; [reflexivity|].
    apply eof_terminated_cons; [discriminate | assumption].
  - intros fuel lx fuel' _ c Hc _ _ _ _ _ IH Hlen.
    destruct IH as (toks & -> & Ht).
    { pose proof (advance_length _ _ Hc). lia. }
    eexists. split; [reflexivity|].
    apply eof_terminated_cons; [discriminate | assumption].
  - intros fuel lx fuel' _ c Hc _ _ _ _ _ _ t lx' Hrd IH Hlen.
    destruct IH as (toks & -> & Ht).
    { pose proof (read_string_length _ _ _ _ Hc Hrd). lia. }
    eexists. split; [reflexivity|]. apply eof_terminated_cons; [|assumption].
    rewrite (read_string_type _ _ _ Hrd). discriminate.
  - intros fuel lx fuel' _ c Hc _ _ _ _ _ _ Hw t lx' Hrd IH Hlen.
    destruct IH as (toks & -> & Ht).
    { pose proof (read_identifier_length _ _ _ _ Hc Hw Hrd). lia. }
    eexists. split; [reflexivity|]. apply eof_terminated_cons; [|assumption].
    eapply read_identifier_type; eauto.
  - intros fuel lx fuel' _ c Hc _ _ _ _ _ _ _ IH Hlen. apply IH.
    pose proof (advance_length _ _ Hc). lia.
  - intros fuel lx fuel' _ _ Hlen.
    eexists. split; [reflexivity|]. exists [], (here EOF EmptyString lx).
    repeat split; auto.
Qed.

(** The example lexer returns on every input, and what it returns ends with
    its only EOF token. *)
Lemma example_tokenize_total (src : string) :
  exists toks, tokenize src = Some toks /\ eof_terminated toks.
Proof.
  unfold tokenize. apply tokenize_loop_total. simpl. lia.
Qed.

End ExampleLexerFacts.

(** ** ASCII text

    Upper-casing keeps the length of ASCII text; beyond ASCII it need not:
    [upper_char] of the sharp s is two letters. *)

Module AsciiText.

(** The upper-case form of an ASCII character. *)
Definition ascii_upper (c : ascii) : ascii :=
  if between 97 122 c then ascii_of_N (N_of_ascii c - 32) else c.

Lemma upper_char_ascii c :
  isascii_char c = true -> upper_char c = String (ascii_upper c) EmptyString.
Proof.
  destruct c as [[] [] [] [] [] [] [] []]; intros H;
    first [discriminate H | reflexivity].
Qed.

Lemma isascii_cons c s :
  isascii (String c s) = true -> isascii_char c = true /\ isascii s = true.
Proof. cbn [isascii]. apply andb_prop. Qed.

Lemma upper_cons_ascii c s :
  isascii_char c = true -> upper (String c s) = String (ascii_upper c) (upper s).
Proof.
  intros Hc. cbn [upper]. rewrite (upper_char_ascii c Hc).
  now rewrite append_cons, append_nil.
Qed.

Lemma upper_length s :
  isascii s = true -> String.length (upper s) = String.length s.
Proof.
  induction s as [|c s IH]; [reflexivity|].
  intros [Hc Hs]%isascii_cons. rewrite (upper_cons_ascii c s Hc).
  cbn [String.length]. now rewrite IH.
Qed.

(** The sharp s is a letter whose upper-case form is longer than itself. *)
Example upper_sharp_s :
  isalnum "223" = true /\ upper (String "223" EmptyString) = "SS".
Proof. split; reflexivity. Qed.

End AsciiText.

(** ** The lexer of the server: positions of the tokens *)

Module ServerLexerFacts.
Import RacfServer AsciiText.

Functional Scheme server_tokenize_loop_ind :=
  Induction for tokenize_loop Sort Prop.

Local Open Scope Z_scope.

(** Token [u] starts where token [t] ends, or later. *)
Definition follows (t u : Token) : Prop :=
  line t < line u \/ (line t = line u /\ end_column t <= column u).

Definition cursor_le (lx lx' : Lexer) : Prop :=
  cur_line lx < cur_line lx'
  \/ (cur_line lx' = cur_line lx /\ cur_column lx <= cur_column lx').

Definition starts_after (lx : Lexer) (t : Token) : Prop :=
  cur_line lx < line t
  \/ (line t = cur_line lx /\ cur_column lx <= column t).

Definition ends_before (t : Token) (lx : Lexer) : Prop :=
  line t < cur_line lx
  \/ (cur_line lx = line t /\ end_column t <= cur_column lx).

Lemma cursor_le_refl lx : cursor_le lx lx.
Proof. unfold cursor_le. lia. Qed.

Lemma starts_after_mono lx lx' t :
  cursor_le lx lx' -> starts_after lx' t -> starts_after lx t.
Proof. unfold cursor_le, starts_after. lia. Qed.

Lemma ends_before_follows t lx u :
  ends_before t lx -> starts_after lx u -> follows t u.
Proof. unfold ends_before, starts_after, follows. lia. Qed.

Lemma len_cons c s : len (String c s) = 1 + len s.
Proof. unfold len. simpl String.length. lia. Qed.

Lemma len_nonneg s : 0 <= len s.
Proof. unfold len. lia. Qed.

Lemma len_upper s : isascii s = true -> len (upper s) = len s.
Proof. intros H. unfold len. now rewrite upper_length. Qed.

Lemma next_pos_cases c ln col :
  (c = NL /\ next_line c ln = ln + 1 /\ next_column c col = 0)
  \/ (c <> NL /\ next_line c ln = ln /\ next_column c col = col + 1).
Proof.
  unfold next_line, next_column. destruct (Ascii.eqb c NL) eqn:E.
  - left. apply Ascii.eqb_eq in E. auto.
  - right. apply Ascii.eqb_neq in E. auto.
Qed.

Ltac next_pos c ln col :=
  let Hnl := fresh "Hnl" in
  let Hnc := fresh "Hnc" in
  destruct (next_pos_cases c ln col) as [(? & Hnl & Hnc)|(? & Hnl & Hnc)];
  rewrite Hnl, Hnc in *.

(** After a sub-lexer started at [(ln, col)] has read the text [v]: the
    cursor is on a later line, or on the same line at least [len v] columns
    further. *)
Definition moved (ln col : Z) (v : string) (lx' : Lexer) : Prop :=
  ln < cur_line lx' \/ (cur_line lx' = ln /\ col + len v <= cur_column lx').

Lemma skip_whitespace_from_moved s ln col :
  moved ln col EmptyString (skip_whitespace_from s ln col).
Proof.
  unfold moved. change (len EmptyString) with 0.
  revert ln col. induction s as [|c s IH]; intros ln col;
    cbn [skip_whitespace_from]; [simpl; lia|].
  destruct (char_in c SPACE_TAB); [|simpl; lia].
  specialize (IH (next_line c ln) (next_column c col)).
  next_pos c ln col; lia.
Qed.

Lemma read_comment_from_moved s : forall ln col,
  moved ln col (read_comment_from s ln col).1 (read_comment_from s ln col).2.
Proof.
  unfold moved.
  induction s as [|c s IH]; intros ln col.
  - simpl. change (len EmptyString) with 0. lia.
  - cbn [read_comment_from].
    specialize (IH (next_line c ln) (next_column c col)).
    destruct s as [|d s''].
    + destruct (read_comment_from EmptyString _ _) as [v lx] eqn:E.
      cbn [fst snd] in *. rewrite len_cons.
      next_pos c ln col; lia.
    + destruct (Ascii.eqb c "*" && Ascii.eqb d "/") eqn:Ht.
      * apply andb_true_iff in Ht as [->%Ascii.eqb_eq ->%Ascii.eqb_eq].
        cbn. change (len "*/") with 2. lia.
      * destruct (read_comment_from (String d s'') _ _) as [v lx] eqn:E.
        cbn [fst snd] in *. rewrite len_cons.
        next_pos c ln col; lia.
Qed.

Lemma read_string_from_moved n : forall s ln col,
  (String.length s <= n)%nat ->
  moved ln col (read_string_from s ln col).1 (read_string_from s ln col).2.
Proof.
  unfold moved.
  induction n as [|n IH]; intros s ln col Hn.
  - destruct s; [|simpl in Hn; lia]. simpl.
    change (len EmptyString) with 0. lia.
  - destruct s as [|c s].
    { simpl. change (len EmptyString) with 0. lia. }
    cbn [read_string_from]. destruct (Ascii.eqb c QUOTE) eqn:Hq.
    + apply Ascii.eqb_eq in Hq. subst c. destruct s as [|d s''].
      * cbn. change (len EmptyString) with 0. lia.
      * destruct (Ascii.eqb d QUOTE) eqn:Hd.
        -- apply Ascii.eqb_eq in Hd. subst d.
           specialize (IH s'' (next_line QUOTE (next_line QUOTE ln))
                          (next_column QUOTE (next_column QUOTE col))).
           destruct (read_string_from s'' _ _) as [v lx].
           cbn [fst snd] in *. rewrite len_cons.
           change (next_line QUOTE (next_line QUOTE ln)) with ln in IH.
           change (next_column QUOTE (next_column QUOTE col))
             with (col + 1 + 1) in IH.
           simpl in Hn. lia.
        -- cbn. change (len EmptyString) with 0. lia.
    + specialize (IH s (next_line c ln) (next_column c col)).
      destruct (read_string_from s _ _) as [v lx].
      cbn [fst snd] in *. rewrite len_cons. simpl in Hn.
      next_pos c ln col; lia.
Qed.

Lemma ident_char_not_NL c : ident_char c = true -> c <> NL.
Proof. intros H ->. vm_compute in H. discriminate. Qed.

Lemma read_word_from_moved s : forall ln col,
  moved ln col (read_word_from s ln col).1 (read_word_from s ln col).2.
Proof.
  unfold moved.
  induction s as [|c s IH]; intros ln col.
  - simpl. change (len EmptyString) with 0. lia.
  - cbn [read_word_from]. destruct (ident_char c) eqn:Hc.
    + specialize (IH (next_line c ln) (next_column c col)).
      destruct (read_word_from s _ _) as [v lx].
      cbn [fst snd] in *. rewrite len_cons.
      next_pos c ln col; lia.
    + cbn. change (len EmptyString) with 0. lia.
Qed.

(** The cursor only moves forward. *)
Lemma advance_cursor_le lx : cursor_le lx (advance lx).
Proof.
  unfold cursor_le, advance. destruct (source lx) as [|c s]; cbn; [lia|].
  next_pos c (cur_line lx) (cur_column lx); lia.
Qed.

Lemma skip_whitespace_cursor_le lx : cursor_le lx (skip_whitespace lx).
Proof.
  pose proof (skip_whitespace_from_moved (source lx) (cur_line lx)
                (cur_column lx)) as H.
  unfold moved in H. change (len EmptyString) with 0 in H.
  unfold cursor_le, skip_whitespace. lia.
Qed.

Lemma moved_cursor_le lx v lx' :
  moved (cur_line lx) (cur_column lx) v lx' -> cursor_le lx lx'.
Proof. pose proof (len_nonneg v). unfold moved, cursor_le. lia. Qed.

(** A one-character token, read by [advance]. *)
Lemma advance_ends_before ty c lx :
  current_char lx = Some c -> c <> NL ->
  ends_before (here ty (String c EmptyString) lx) (advance lx).
Proof.
  unfold current_char, advance, ends_before, here, Token_new.
  destruct (source lx) as [|c' s]; [discriminate|]. intros [= ->] Hc.
  cbn. change (len (String c EmptyString)) with 1.
  next_pos c (cur_line lx) (cur_column lx); [contradiction|lia].
Qed.

(** What each token-producing step guarantees: the token sits at the cursor
    and the cursor after the step is past the token's span. *)
Definition token_step (lx : Lexer) (t : Token) (lx' : Lexer) : Prop :=
  line t = cur_line lx /\ column t = cur_column lx
  /\ column t <= end_column t /\ ends_before t lx'.

Lemma token_step_cursor_le lx t lx' : token_step lx t lx' -> cursor_le lx lx'.
Proof. unfold token_step, ends_before, cursor_le. lia. Qed.

Lemma token_step_starts_after lx t lx' : token_step lx t lx' -> starts_after lx t.
Proof. unfold token_step, starts_after. lia. Qed.

Lemma advance_token_step ty c lx :
  current_char lx = Some c -> c <> NL ->
  token_step lx (here ty (String c EmptyString) lx) (advance lx).
Proof.
  intros Hc Hn. pose proof (advance_ends_before ty c lx Hc Hn).
  unfold token_step. repeat split; auto.
  cbn. change (len (String c EmptyString)) with 1. lia.
Qed.

Lemma read_comment_token_step lx t lx' :
  current_char lx = Some "/"%char -> peek lx = Some "*"%char ->
  read_comment lx = (t, lx') -> token_step lx t lx'.
Proof.
  destruct lx as [[|c [|d s]] ln col]; cbn; try discriminate.
  intros [= ->] [= ->]. unfold read_comment.
  cbn [advance source cur_line cur_column].
  change (next_line "*" (next_line "/" ln)) with ln.
  change (next_column "*" (next_column "/" col)) with (col + 1 + 1).
  pose proof (read_comment_from_moved s ln (col + 1 + 1)) as H.
  destruct (read_comment_from s ln (col + 1 + 1)) as [v lx2].
  intros [= <- <-]. unfold moved in H. cbn [fst snd] in H.
  pose proof (len_nonneg v).
  unfold token_step, ends_before, Token_new. cbn.
  rewrite !append_cons, append_nil, !len_cons. lia.
Qed.

Lemma read_string_token_step lx t lx' :
  current_char lx = Some QUOTE ->
  read_string lx = (t, lx') -> token_step lx t lx'.
Proof.
  destruct lx as [[|c s] ln col]; cbn; try discriminate.
  intros [= ->]. unfold read_string.
  cbn [advance source cur_line cur_column].
  change (next_line QUOTE ln) with ln.
  change (next_column QUOTE col) with (col + 1).
  pose proof (read_string_from_moved _ s ln (col + 1) (Nat.le_refl _)) as H.
  destruct (read_string_from s ln (col + 1)) as [v lx2].
  intros [= <- <-]. unfold moved in H. cbn [fst snd] in H.
  pose proof (len_nonneg v).
  unfold token_step, ends_before, Token_new. cbn. lia.
Qed.

Lemma classify_position v ln col :
  line (classify v ln col) = ln /\ column (classify v ln col) = col
  /\ end_column (classify v ln col)
     = col + len (value (classify v ln col)).
Proof.
  unfold classify, Token_new.
  repeat case_match; cbn; auto.
Qed.

Lemma classify_len v ln col :
  isascii v = true -> len (value (classify v ln col)) = len v.
Proof.
  intros Hv. unfold classify, Token_new.
  repeat case_match; cbn; rewrite ?(len_upper v Hv); auto.
Qed.

(** *** What is left of an ASCII text is ASCII *)

Definition ascii_left (lx : Lexer) : Prop := isascii (source lx) = true.

Lemma advance_ascii lx : ascii_left lx -> ascii_left (advance lx).
Proof.
  unfold ascii_left, advance. destruct (source lx) as [|c s]; [auto|].
  now intros [_ Hs]%isascii_cons.
Qed.

Lemma skip_whitespace_from_ascii s : forall ln col,
  isascii s = true -> ascii_left (skip_whitespace_from s ln col).
Proof.
  unfold ascii_left.
  induction s as [|c s IH]; intros ln col Hs; cbn [skip_whitespace_from];
    [reflexivity|].
  destruct (char_in c SPACE_TAB); [|exact Hs].
  apply IH. now apply isascii_cons in Hs.
Qed.

Lemma read_comment_from_ascii s : forall ln col,
  isascii s = true -> ascii_left (read_comment_from s ln col).2.
Proof.
  unfold ascii_left.
  induction s as [|c s IH]; intros ln col Hs; [reflexivity|].
  apply isascii_cons in Hs as [_ Hs].
  specialize (IH (next_line c ln) (next_column c col) Hs).
  cbn [read_comment_from]. destruct s as [|d s''].
  - now destruct (read_comment_from EmptyString _ _).
  - destruct (Ascii.eqb c "*" && Ascii.eqb d "/").
    + cbn. now apply isascii_cons in Hs.
    + now destruct (read_comment_from (String d s'') _ _).
Qed.

Lemma read_string_from_ascii n : forall s ln col,
  (String.length s <= n)%nat -> isascii s = true ->
  ascii_left (read_string_from s ln col).2.
Proof.
  unfold ascii_left.
  induction n as [|n IH]; intros s ln col Hn Hs.
  - destruct s; [reflexivity|simpl in Hn; lia].
  - destruct s as [|c s]; [reflexivity|].
    apply isascii_cons in Hs as [_ Hs]. cbn [read_string_from].
    destruct (Ascii.eqb c QUOTE).
    + destruct s as [|d s'']; [reflexivity|].
      destruct (Ascii.eqb d QUOTE); [|exact Hs].
      apply isascii_cons in Hs as [_ Hs].
      specialize (IH s'' (next_line d (next_line c ln))
                     (next_column d (next_column c col))
                     ltac:(simpl in Hn; lia) Hs).
      now destruct (read_string_from s'' _ _).
    + specialize (IH s (next_line c ln) (next_column c col)
                     ltac:(simpl in Hn; lia) Hs).
      now destruct (read_string_from s _ _).
Qed.

Lemma read_word_from_ascii s : forall ln col,
  isascii s = true ->
  isascii (read_word_from s ln col).1 = true
  /\ ascii_left (read_word_from s ln col).2.
Proof.
  unfold ascii_left.
  induction s as [|c s IH]; intros ln col Hs; cbn [read_word_from];
    [split; reflexivity|].
  destruct (ident_char c); [|split; [reflexivity|exact Hs]].
  apply isascii_cons in Hs as [Hc Hs].
  destruct (IH (next_line c ln) (next_column c col) Hs) as [Hv Hl].
  destruct (read_word_from s _ _) as [v lx]. cbn [fst snd] in *.
  split; [|exact Hl]. cbn [isascii]. now rewrite Hc.
Qed.

Lemma skip_whitespace_ascii lx : ascii_left lx -> ascii_left (skip_whitespace lx).
Proof. apply skip_whitespace_from_ascii. Qed.

Lemma read_comment_ascii lx : ascii_left lx -> ascii_left (read_comment lx).2.
Proof.
  intros H%advance_ascii%advance_ascii. unfold read_comment.
  pose proof (read_comment_from_ascii (source (advance (advance lx)))
                (cur_line (advance (advance lx)))
                (cur_column (advance (advance lx))) H) as Hr.
  now destruct (read_comment_from _ _ _).
Qed.

Lemma read_string_ascii lx : ascii_left lx -> ascii_left (read_string lx).2.
Proof.
  intros H%advance_ascii. unfold read_string.
  pose proof (read_string_from_ascii _ (source (advance lx))
                (cur_line (advance lx)) (cur_column (advance lx))
                (Nat.le_refl _) H) as Hr.
  now destruct (read_string_from _ _ _).
Qed.

Lemma read_identifier_ascii lx :
  ascii_left lx -> ascii_left (read_identifier lx).2.
Proof.
  intros H. unfold read_identifier.
  destruct (read_word_from_ascii (source lx) (cur_line lx) (cur_column lx) H)
    as [_ Hr].
  now destruct (read_word_from _ _ _).
Qed.

(** In ASCII text the span of a word token is the word that was read. *)
Lemma read_identifier_token_step lx t lx' :
  ascii_left lx -> read_identifier lx = (t, lx') -> token_step lx t lx'.
Proof.
  intros Ha. unfold read_identifier.
  pose proof (read_word_from_moved (source lx) (cur_line lx) (cur_column lx))
    as H.
  destruct (read_word_from_ascii (source lx) (cur_line lx) (cur_column lx) Ha)
    as [Hv _].
  destruct (read_word_from _ _ _) as [v lx2]. intros [= <- <-].
  unfold moved in H. cbn [fst snd] in H, Hv.
  destruct (classify_position v (cur_line lx) (cur_column lx))
    as (Hl & Hc & He).
  pose proof (classify_len v (cur_line lx) (cur_column lx) Hv) as Hlen.
  pose proof (len_nonneg v).
  unfold token_step, ends_before. rewrite Hl, Hc, He, Hlen. lia.
Qed.

(** *** The order of the tokens *)

(** Token [u] starts where token [t] starts, or later. *)
Definition precedes (t u : Token) : Prop :=
  line t < line u \/ (line t = line u /\ column t <= column u).

(** The token sits at the cursor, and the cursor only moved forward. *)
Definition token_start (lx : Lexer) (t : Token) (lx' : Lexer) : Prop :=
  line t = cur_line lx /\ column t = cur_column lx /\ cursor_le lx lx'.

Lemma token_step_start lx t lx' : token_step lx t lx' -> token_start lx t lx'.
Proof.
  intros H. pose proof (token_step_cursor_le _ _ _ H).
  unfold token_step in H. unfold token_start. tauto.
Qed.

Lemma read_identifier_token_start lx t lx' :
  read_identifier lx = (t, lx') -> token_start lx t lx'.
Proof.
  unfold read_identifier.
  pose proof (read_word_from_moved (source lx) (cur_line lx) (cur_column lx))
    as H.
  destruct (read_word_from _ _ _) as [v lx2]. intros [= <- <-].
  apply moved_cursor_le in H.
  destruct (classify_position v (cur_line lx) (cur_column lx))
    as (Hl & Hc & _).
  unfold token_start. auto.
Qed.

(** The tokens of a run start at or after the cursor it started from, in
    the order of their start positions. *)
Definition started_from (lx : Lexer) (toks : list Token) : Prop :=
  Forall (starts_after lx) toks /\ StronglySorted precedes toks.

Lemma started_from_skip lx lx' toks :
  cursor_le lx lx' -> started_from lx' toks -> started_from lx toks.
Proof.
  intros Hle [Hs Ho]. split; [|assumption].
  eapply Forall_impl; [exact Hs|]. intros t. now apply starts_after_mono.
Qed.

Lemma started_from_cons lx t lx' toks :
  token_start lx t lx' -> started_from lx' toks -> started_from lx (t :: toks).
Proof.
  intros (Hl & Hc & Hle) [Hs Ho].
  assert (Forall (starts_after lx) toks) as Hs'.
  { eapply Forall_impl; [exact Hs|]. intros u. now apply starts_after_mono. }
  split.
  - constructor; [|exact Hs']. unfold starts_after. lia.
  - constructor; [assumption|].
    eapply Forall_impl; [exact Hs'|]. intros u.
    unfold starts_after, precedes. lia.
Qed.

(** ... and, in ASCII text, each token starts where the previous one ends,
    or later. *)
Definition ordered_from (lx : Lexer) (toks : list Token) : Prop :=
  Forall (starts_after lx) toks /\ StronglySorted follows toks.

Lemma ordered_from_skip lx lx' toks :
  cursor_le lx lx' -> ordered_from lx' toks -> ordered_from lx toks.
Proof.
  intros Hle [Hs Ho]. split; [|assumption].
  eapply Forall_impl; [exact Hs|]. intros t. now apply starts_after_mono.
Qed.

Lemma ordered_from_cons lx t lx' toks :
  token_step lx t lx' -> ordered_from lx' toks -> ordered_from lx (t :: toks).
Proof.
  intros Hstep [Hs Ho]. split.
  - constructor; [eapply token_step_starts_after; eauto|].
    eapply Forall_impl; [exact Hs|]. intros u.
    apply starts_after_mono. eapply token_step_cursor_le; eauto.
  - constructor; [assumption|].
    eapply Forall_impl; [exact Hs|]. intros u.
    apply ends_before_follows. apply Hstep.
Qed.

Lemma eqb_char c d : Ascii.eqb c d = true -> c = d.
Proof. apply Ascii.eqb_eq. Qed.

Ltac char_is c :=
  match goal with
  | H : Ascii.eqb c _ = true |- _ => apply Ascii.eqb_eq in H; subst c
  end.

Ltac start_case lx' step :=
  match goal with
  | IH : forall toks, tokenize_loop ?f lx' = Some toks -> _,
    H0 : cons ?t <$> tokenize_loop ?f lx' = Some ?toks |- _ =>
      let rest := fresh "rest" in
      let Hrest := fresh "Hrest" in
      destruct (tokenize_loop f lx') as [rest|] eqn:Hrest;
      [|discriminate];
      injection H0 as <-;
      apply (started_from_cons _ _ lx');
      [step | apply IH; reflexivity]
  end.

Lemma tokenize_loop_started fuel lx :
  forall toks, tokenize_loop fuel lx = Some toks -> started_from lx toks.
Proof.
  revert fuel lx.
  apply (server_tokenize_loop_ind (fun fuel lx res =>
    forall toks, res = Some toks -> started_from lx toks)).
  all: intros.
  - discriminate.
  - eapply started_from_skip; [apply skip_whitespace_cursor_le | eauto].
  - eapply started_from_skip; [apply advance_cursor_le | eauto].
  - apply andb_true_iff in e3 as [e3 Hpk]. char_is c.
    apply bool_decide_eq_true in Hpk.
    start_case lx'
      ltac:(now apply token_step_start, read_comment_token_step).
  - char_is c.
    start_case (advance lx)
      ltac:(now apply token_step_start, advance_token_step).
  - eapply started_from_skip; [apply advance_cursor_le | eauto].
  - char_is c.
    start_case (advance lx)
      ltac:(now apply token_step_start, advance_token_step).
  - char_is c.
    start_case (advance lx)
      ltac:(now apply token_step_start, advance_token_step).
  - char_is c.
    start_case lx' ltac:(now apply token_step_start, read_string_token_step).
  - start_case lx' ltac:(now apply read_identifier_token_start).
  - eapply started_from_skip; [apply advance_cursor_le | eauto].
  - injection H as <-. split.
    + constructor; [|constructor]. unfold starts_after, here. cbn. lia.
    + constructor; constructor.
Qed.

(** The tokens of a document are in the order of their start positions. *)
Lemma tokenize_started fuel src toks :
  tokenize fuel src = Some toks -> StronglySorted precedes toks.
Proof. intros H. apply tokenize_loop_started in H. apply H. Qed.

Ltac token_case lx' step :=
  match goal with
  | IH : forall toks, tokenize_loop ?f lx' = Some toks -> _,
    H0 : cons ?t <$> tokenize_loop ?f lx' = Some ?toks |- _ =>
      let rest := fresh "rest" in
      let Hrest := fresh "Hrest" in
      destruct (tokenize_loop f lx') as [rest|] eqn:Hrest;
      [|discriminate];
      injection H0 as <-;
      apply (ordered_from_cons _ _ lx');
      [step | apply IH; [reflexivity|]]
  end.

Ltac next_ascii lem :=
  match goal with
  | Ha : ascii_left ?lx, E : _ ?lx = (_, ?lx') |- ascii_left ?lx' =>
      let X := fresh in
      pose proof (lem lx Ha) as X; now rewrite E in X
  end.

Lemma tokenize_loop_ordered fuel lx :
  forall toks,
    tokenize_loop fuel lx = Some toks -> ascii_left lx -> ordered_from lx toks.
Proof.
  revert fuel lx.
  apply (server_tokenize_loop_ind (fun fuel lx res =>
    forall toks, res = Some toks -> ascii_left lx -> ordered_from lx toks)).
  all: intros.
  - discriminate.
  - eapply ordered_from_skip; [apply skip_whitespace_cursor_le|].
    eauto using skip_whitespace_ascii.
  - eapply ordered_from_skip; [apply advance_cursor_le|].
    eauto using advance_ascii.
  - apply andb_true_iff in e3 as [e3 Hpk]. char_is c.
    apply bool_decide_eq_true in Hpk.
    token_case lx' ltac:(now apply read_comment_token_step).
    next_ascii read_comment_ascii.
  - char_is c.
    token_case (advance lx) ltac:(now apply advance_token_step).
    now apply advance_ascii.
  - eapply ordered_from_skip; [apply advance_cursor_le|].
    eauto using advance_ascii.
  - char_is c.
    token_case (advance lx) ltac:(now apply advance_token_step).
    now apply advance_ascii.
  - char_is c.
    token_case (advance lx) ltac:(now apply advance_token_step).
    now apply advance_ascii.
  - char_is c.
    token_case lx' ltac:(now apply read_string_token_step).
    next_ascii read_string_ascii.
  - token_case lx' ltac:(now apply read_identifier_token_step).
    next_ascii read_identifier_ascii.
  - eapply ordered_from_skip; [apply advance_cursor_le|].
    eauto using advance_ascii.
  - injection H as <-. split.
    + constructor; [|constructor]. unfold starts_after, here. cbn. lia.
    + constructor; constructor.
Qed.

(** The tokens of an ASCII document: in order, with pairwise disjoint spans
    on a line. *)
Lemma tokenize_ordered fuel src toks :
  isascii src = true -> tokenize fuel src = Some toks ->
  StronglySorted follows toks.
Proof.
  intros Ha H. apply tokenize_loop_ordered in H; [apply H|exact Ha].
Qed.

End ServerLexerFacts.

(** ** The document index of the server *)

Module DocumentFacts.
Import RacfServer ServerLexerFacts.

Local Open Scope Z_scope.

Lemma StronglySorted_lookup {A} (R : A -> A -> Prop) (l : list A) :
  StronglySorted R l ->
  forall (i j : nat) x y, (i < j)%nat -> l !! i = Some x -> l !! j = Some y -> R x y.
Proof.
  induction 1 as [|a l Hs IH Ha]; intros i j x y Hij Hi Hj.
  - rewrite lookup_nil in Hi. discriminate.
  - destruct j as [|j]; [lia|]. cbn in Hj. destruct i as [|i].
    + injection Hi as <-. rewrite Forall_forall in Ha. apply Ha.
      eapply list_elem_of_lookup_2; eauto.
    + cbn in Hi. apply (IH i j x y); [lia|assumption|assumption].
Qed.

(** *** [get_token_at_position] *)

Lemma follows_not_both t u ln ch :
  follows t u -> covers t ln ch -> covers u ln ch -> False.
Proof. unfold follows, covers. lia. Qed.

Lemma token_at_cons t rest ln ch :
  token_at (t :: rest) ln ch
  = if decide (covers t ln ch) then Some t else token_at rest ln ch.
Proof.
  cbn [token_at]. unfold covers.
  repeat case_decide; try reflexivity; exfalso; tauto.
Qed.

Lemma token_at_covering toks ln ch :
  StronglySorted follows toks ->
  forall t, t ∈ toks -> covers t ln ch -> token_at toks ln ch = Some t.
Proof.
  induction 1 as [|t0 rest Hs IH H0]; intros t Hin Hc.
  - apply elem_of_nil in Hin. contradiction.
  - rewrite token_at_cons. rewrite Forall_forall in H0.
    apply elem_of_cons in Hin as [->|Hin].
    + rewrite decide_True by assumption. reflexivity.
    + case_decide as Hc0.
      * exfalso. eapply follows_not_both; [apply H0; eassumption|eauto..].
      * now apply IH.
Qed.

Lemma token_at_none toks ln ch :
  (forall t, t ∈ toks -> ~ covers t ln ch) -> token_at toks ln ch = None.
Proof.
  induction toks as [|t0 rest IH]; intros H; [reflexivity|].
  rewrite token_at_cons. rewrite decide_False.
  - apply IH. intros t Ht. apply H. now apply list_elem_of_further.
  - apply H. apply list_elem_of_here.
Qed.

Lemma document_tokens fuel u text doc :
  RACFDocument_new fuel u text = Some doc ->
  tokenize fuel text = Some (tokens doc)
  /\ commands doc = detect_commands (tokens doc).
Proof.
  unfold RACFDocument_new. destruct (tokenize fuel text) as [toks|]; [|discriminate].
  cbn. intros [= <-]. auto.
Qed.

(** In a document built from ASCII text, at every position [(ln, ch)]: at
    most one token (comments included) has [ln] as its line and [ch] inside
    its span from [column] up to but excluding [end_column];
    [get_token_at_position] returns exactly the token that covers the
    position; and it returns [None] when no token covers it. *)
Lemma ascii_token_at_position fuel u text doc :
  isascii text = true ->
  RACFDocument_new fuel u text = Some doc ->
  forall ln ch,
    (forall (i j : nat) ti tj,
        tokens doc !! i = Some ti -> tokens doc !! j = Some tj ->
        covers ti ln ch -> covers tj ln ch -> i = j)
    /\ (forall t, t ∈ tokens doc -> covers t ln ch ->
          get_token_at_position doc ln ch = Some t)
    /\ ((forall t, t ∈ tokens doc -> ~ covers t ln ch) ->
          get_token_at_position doc ln ch = None).
Proof.
  intros Hascii Hdoc ln ch. apply document_tokens in Hdoc as [Htok _].
  apply tokenize_ordered in Htok; [|exact Hascii]. repeat split.
  - intros i j ti tj Hi Hj Hci Hcj.
    destruct (Nat.lt_total i j) as [Hlt|[Heq|Hlt]]; [|assumption|]; exfalso.
    + eapply follows_not_both; [|exact Hci|exact Hcj].
      eapply StronglySorted_lookup; eauto.
    + eapply follows_not_both; [|exact Hcj|exact Hci].
      eapply StronglySorted_lookup; eauto.
  - intros t Hin Hc. unfold get_token_at_position.
    now apply token_at_covering.
  - intros H. unfold get_token_at_position. now apply token_at_none.
Qed.

(** *** [RACFDocument.parse] and [get_command_at_line] *)

Definition line_le (t u : Token) : Prop := line t <= line u.

Lemma precedes_line_le toks :
  StronglySorted precedes toks -> StronglySorted line_le toks.
Proof.
  induction 1 as [|t rest Hs IH Ht]; constructor; [assumption|].
  eapply Forall_impl; [exact Ht|]. unfold precedes, line_le. lia.
Qed.

Lemma find_end_line_bounds rest : forall e,
  Forall (fun u => e <= line u) rest -> StronglySorted line_le rest ->
  e <= find_end_line rest e
  /\ forall u, u ∈ rest -> type u = COMMAND -> find_end_line rest e <= line u.
Proof.
  induction rest as [|h r IH]; intros e He Hs.
  - split; [simpl; lia|]. intros u Hu. apply elem_of_nil in Hu. contradiction.
  - apply Forall_cons in He as [Heh Her].
    apply StronglySorted_inv in Hs as [Hsr Hh].
    cbn [find_end_line]. rewrite Forall_forall in Her.
    case_decide as Hc; [|case_decide as Hf].
    + split; [lia|]. intros u [->|Hu]%elem_of_cons _; auto.
    + split; [lia|]. intros u [->|Hu]%elem_of_cons _; auto.
    + destruct (IH (line h)) as [Hge Hle]; [exact Hh|exact Hsr|].
      split; [lia|]. intros u [->|Hu]%elem_of_cons Hty; [contradiction|auto].
Qed.

(** A command as [RACFDocument.parse] leaves it: made from a COMMAND token,
    with nothing but its name and lines filled in. *)
Definition bare_command_of (toks : list Token) (c : RACFCommand) : Prop :=
  exists tok, tok ∈ toks /\ type tok = COMMAND
    /\ name c = value tok /\ cmd_line c = line tok
    /\ arguments c = [] /\ keywords c = ∅ /\ segments c = ∅ /\ flags c = ∅.

Lemma detect_commands_bare toks :
  Forall (bare_command_of toks) (detect_commands toks).
Proof.
  induction toks as [|t rest IH]; cbn [detect_commands]; [constructor|].
  assert (Forall (bare_command_of (t :: rest)) (detect_commands rest)) as IH'.
  { eapply Forall_impl; [exact IH|].
    intros c (tok & Hin & H). exists tok. split; [|exact H].
    now apply list_elem_of_further. }
  case_decide as Hc; [|exact IH'].
  constructor; [|exact IH'].
  exists t. repeat split; auto. apply list_elem_of_here.
Qed.

Lemma detect_commands_names toks :
  map (fun c => (name c, cmd_line c)) (detect_commands toks)
  = map (fun t => (value t, line t))
        (List.filter (fun t => bool_decide (type t = COMMAND)) toks).
Proof.
  induction toks as [|t rest IH]; [reflexivity|].
  cbn [detect_commands List.filter]. case_decide as Hc.
  - rewrite bool_decide_eq_true_2 by assumption. cbn. now rewrite IH.
  - rewrite bool_decide_eq_false_2 by assumption. exact IH.
Qed.

Definition span_follows (c c' : RACFCommand) : Prop :=
  end_line c <= cmd_line c'.

Lemma detect_commands_spans toks :
  StronglySorted line_le toks ->
  Forall (fun c => cmd_line c <= end_line c) (detect_commands toks)
  /\ StronglySorted span_follows (detect_commands toks).
Proof.
  induction 1 as [|t rest Hs IH Ht]; cbn [detect_commands].
  - split; constructor.
  - destruct IH as [IH1 IH2]. case_decide as Hc; [|auto].
    destruct (find_end_line_bounds rest (line t)) as [Hge Hle];
      [exact Ht|exact Hs|].
    split; constructor; auto.
    pose proof (detect_commands_bare rest) as Hb.
    eapply Forall_impl; [exact Hb|].
    intros c (tok & Hin & Hty & _ & Hl & _).
    unfold span_follows. cbn. rewrite Hl. now apply Hle.
Qed.

Lemma command_at_cons c rest ln :
  command_at (c :: rest) ln
  = if decide (in_span c ln) then Some c else command_at rest ln.
Proof. reflexivity. Qed.

Lemma command_at_first cmds ln :
  match command_at cmds ln with
  | Some c =>
      exists i : nat, cmds !! i = Some c /\ in_span c ln
        /\ forall (j : nat) cj, (j < i)%nat -> cmds !! j = Some cj -> ~ in_span cj ln
  | None => forall c, c ∈ cmds -> ~ in_span c ln
  end.
Proof.
  induction cmds as [|c0 rest IH].
  - cbn. intros c Hc. apply elem_of_nil in Hc. contradiction.
  - rewrite command_at_cons. case_decide as H0.
    + exists 0%nat. split; [reflexivity|]. split; [exact H0|].
      intros j cj Hj. lia.
    + destruct (command_at rest ln) as [c|].
      * destruct IH as (i & Hi & Hin & Hfirst). exists (S i).
        split; [exact Hi|]. split; [exact Hin|]. intros [|j] cj Hj Hcj.
        -- cbn in Hcj. injection Hcj as <-. exact H0.
        -- cbn in Hcj. apply (Hfirst j cj); [lia|assumption].
      * intros c [->|Hc]%elem_of_cons; auto.
Qed.

(** C1 (as amended).  Building a document never runs a structured parser:
    the commands are exactly the COMMAND tokens, in order, each with the
    token's value as name and the token's line as start line, a start line
    that does not exceed the end line, and empty arguments, keywords,
    segments and flags. *)
Theorem document_commands_are_bare fuel u text doc :
  RACFDocument_new fuel u text = Some doc ->
  map (fun c => (name c, cmd_line c)) (commands doc)
  = map (fun t => (value t, line t))
        (List.filter (fun t => bool_decide (type t = COMMAND)) (tokens doc))
  /\ Forall (fun c =>
       cmd_line c <= end_line c
       /\ arguments c = [] /\ keywords c = ∅ /\ segments c = ∅
       /\ flags c = ∅) (commands doc).
Proof.
  intros Hdoc. apply document_tokens in Hdoc as [Htok ->].
  apply tokenize_started, precedes_line_le in Htok.
  split; [apply detect_commands_names|].
  destruct (detect_commands_spans _ Htok) as [Hle _].
  pose proof (detect_commands_bare (tokens doc)) as Hb.
  rewrite Forall_forall in Hle, Hb. apply Forall_forall. intros c Hc.
  destruct (Hb c Hc) as (tok & _ & _ & _ & _ & Ha & Hk & Hs & Hf).
  repeat split; auto.
Qed.

(** C2 (as amended).  The command spans of a built document are in source
    order and may touch: for commands at indices [i < j], the first one's
    end line is at most the second one's start line (so a line they share is
    the end line of the first and the start line of the second), and every
    span is non-empty.  [get_command_at_line] returns the first command, in
    source order, whose span contains the line, and [None] when no span
    contains it. *)
Theorem command_spans_ordered fuel u text doc :
  RACFDocument_new fuel u text = Some doc ->
  (forall (i j : nat) ci cj,
      (i < j)%nat ->
      commands doc !! i = Some ci -> commands doc !! j = Some cj ->
      cmd_line ci <= end_line ci /\ end_line ci <= cmd_line cj
      /\ cmd_line cj <= end_line cj)
  /\ forall ln,
       match get_command_at_line doc ln with
       | Some c =>
           exists i : nat, commands doc !! i = Some c /\ in_span c ln
             /\ forall (j : nat) cj,
                  (j < i)%nat -> commands doc !! j = Some cj -> ~ in_span cj ln
       | None => forall c, c ∈ commands doc -> ~ in_span c ln
       end.
Proof.
  intros Hdoc. split; [|intros ln; apply command_at_first].
  apply document_tokens in Hdoc as [Htok ->].
  apply tokenize_started, precedes_line_le in Htok.
  destruct (detect_commands_spans _ Htok) as [Hle Hs].
  rewrite Forall_forall in Hle.
  intros i j ci cj Hij Hi Hj. repeat split.
  - apply Hle. eapply list_elem_of_lookup_2; eauto.
  - eapply (StronglySorted_lookup span_follows); eauto.
  - apply Hle. eapply list_elem_of_lookup_2; eauto.
Qed.

End DocumentFacts.

(** *** Concrete documents *)

Module DocumentExamples.
Import RacfServer DocumentFacts.

Local Open Scope Z_scope.

(** Two commands, the first with an unmatched parenthesis, the second well
    formed. *)
Definition malformed_then_wellformed : string :=
  "ADDUSER (JSMITH NAME(" ++ String NL
  "ADDUSER (BOB) SPECIAL NAME('Bob') OMVS(UID(7))".

(** C1, counterexample.  The document built from a malformed command
    followed by a well-formed one has two commands, but the second one is not
    parsed: its arguments, keywords, segments and flags are empty, although
    the ADDUSER parser finds the user id, the flag SPECIAL, the keyword NAME
    and the segment OMVS in that very command. *)
Lemma document_second_command_not_parsed :
  exists doc c1 c2 cmd,
    RACFDocument_new 64 "file:///a.racf" malformed_then_wellformed = Some doc
    /\ commands doc = [c1; c2]
    /\ (name c2, cmd_line c2, end_line c2) = ("ADDUSER", 1, 1)
    /\ arguments c2 = [] /\ keywords c2 = ∅ /\ segments c2 = ∅
    /\ flags c2 = ∅
    /\ AdduserParser.parse_adduser
         "ADDUSER (BOB) SPECIAL NAME('Bob') OMVS(UID(7))"
       = AdduserParser.Done cmd
    /\ AdduserParser.userids cmd = ["BOB"]
    /\ AdduserParser.flags cmd = {["SPECIAL"]}
    /\ AdduserParser.keywords cmd !! "NAME" = Some (AdduserParser.VStr "Bob")
    /\ is_Some (AdduserParser.segments cmd !! "OMVS").
Proof.
  do 4 eexists.
  split; [vm_compute; reflexivity|].
  split; [reflexivity|].
  split; [reflexivity|].
  do 4 (split; [reflexivity|]).
  split; [vm_compute; reflexivity|].
  split; [reflexivity|].
  split; [vm_compute; reflexivity|].
  split; [vm_compute; reflexivity|].
  vm_compute. eexists. reflexivity.
Qed.

Lemma document_commands_are_bare_witness :
  exists doc,
    RACFDocument_new 64 "file:///a.racf" malformed_then_wellformed = Some doc
    /\ map (fun c => (name c, cmd_line c)) (commands doc)
       = map (fun t => (value t, line t))
           (List.filter (fun t => bool_decide (type t = COMMAND)) (tokens doc))
    /\ Forall (fun c =>
         cmd_line c <= end_line c
         /\ arguments c = [] /\ keywords c = ∅ /\ segments c = ∅
         /\ flags c = ∅) (commands doc).
Proof.
  eexists. split; [vm_compute; reflexivity|].
  apply (document_commands_are_bare 64 "file:///a.racf"
           malformed_then_wellformed).
  vm_compute. reflexivity.
Defined.

(** PASSWORD is a keyword of ADDUSER and also a command name: the lexer
    classifies it as a command. *)
Definition adduser_with_password : string :=
  "ADDUSER (JSMITH) PASSWORD(SECRET)".

(** C2, counterexample.  One line of text yields two commands whose spans
    both contain line 0, so the spans are not pairwise disjoint and more
    than one command contains the queried line. *)
Lemma command_spans_overlap :
  exists doc c1 c2,
    RACFDocument_new 64 "file:///a.racf" adduser_with_password = Some doc
    /\ commands doc = [c1; c2]
    /\ name c1 = "ADDUSER" /\ name c2 = "PASSWORD"
    /\ in_span c1 0 /\ in_span c2 0
    /\ get_command_at_line doc 0 = Some c1.
Proof.
  do 3 eexists.
  split; [vm_compute; reflexivity|].
  split; [reflexivity|].
  do 2 (split; [reflexivity|]).
  unfold in_span. cbn. split; [lia|]. split; [lia|]. reflexivity.
Qed.

Lemma command_spans_ordered_witness :
  exists doc,
    RACFDocument_new 64 "file:///a.racf" adduser_with_password = Some doc
    /\ (forall (i j : nat) ci cj,
          (i < j)%nat ->
          commands doc !! i = Some ci -> commands doc !! j = Some cj ->
          cmd_line ci <= end_line ci /\ end_line ci <= cmd_line cj
          /\ cmd_line cj <= end_line cj)
    /\ forall ln,
         match get_command_at_line doc ln with
         | Some c =>
             exists i : nat, commands doc !! i = Some c /\ in_span c ln
               /\ forall (j : nat) cj,
                    (j < i)%nat -> commands doc !! j = Some cj
                    -> ~ in_span cj ln
         | None => forall c, c ∈ commands doc -> ~ in_span c ln
         end.
Proof.
  eexists. split; [vm_compute; reflexivity|].
  apply (command_spans_ordered 64 "file:///a.racf" adduser_with_password).
  vm_compute. reflexivity.
Defined.

(** C4.  The text made of a sharp s, an opening parenthesis and an x.  The
    word read at the sharp s is one character long, its upper-case form SS is
    two characters long, and [end_column] is computed from the latter: the
    spans of the IDENTIFIER token and of the parenthesis both contain column
    1, and [get_token_at_position] answers with the first of the two. *)
Theorem sharp_s_token_spans_overlap :
  let text := String "223" "(x" in
  let word := Token_new IDENTIFIER "SS" 0 0 in
  let paren := Token_new LPAREN "(" 0 1 in
  exists doc,
    RACFDocument_new 8 "file:///a.racf" text = Some doc
    /\ tokens doc = [word; paren; Token_new IDENTIFIER "X" 0 2;
                     Token_new EOF EmptyString 0 3]
    /\ isascii text = false
    /\ covers word 0 1 /\ covers paren 0 1 /\ word <> paren
    /\ get_token_at_position doc 0 1 = Some word.
Proof.
  intros text word paren. eexists.
  split; [vm_compute; reflexivity|].
  split; [reflexivity|].
  split; [reflexivity|].
  unfold covers. cbn.
  repeat split; try lia; discriminate.
Qed.

(** The same queries in ASCII text: the spans do not overlap. *)
Example ascii_token_spans_disjoint :
  exists doc,
    RACFDocument_new 64 "file:///a.racf" adduser_with_password = Some doc
    /\ forall ln ch,
         (forall (i j : nat) ti tj,
             tokens doc !! i = Some ti -> tokens doc !! j = Some tj ->
             covers ti ln ch -> covers tj ln ch -> i = j)
         /\ (forall t, t ∈ tokens doc -> covers t ln ch ->
               get_token_at_position doc ln ch = Some t)
         /\ ((forall t, t ∈ tokens doc -> ~ covers t ln ch) ->
               get_token_at_position doc ln ch = None).
Proof.
  eexists. split; [vm_compute; reflexivity|].
  apply (ascii_token_at_position 64 "file:///a.racf" adduser_with_password);
    [reflexivity|].
  vm_compute. reflexivity.
Qed.

(** The position queries on that document: inside a word, inside blanks. *)
Example token_at_position_examples :
  exists doc,
    RACFDocument_new 64 "file:///a.racf" adduser_with_password = Some doc
    /\ get_token_at_position doc 0 3 = Some (Token_new COMMAND "ADDUSER" 0 0)
    /\ get_token_at_position doc 0 7 = None
    /\ get_token_at_position doc 0 10
       = Some (Token_new IDENTIFIER "JSMITH" 0 9)
    /\ get_token_at_position doc 1 0 = None.
Proof.
  eexists. split; [vm_compute; reflexivity|].
  repeat split; vm_compute; reflexivity.
Qed.

End DocumentExamples.

(** ** Termination of the lexers, and the continuation marker *)

Module LexerDivergence.
Import RacfServer.

Lemma percent_step fuel ln col :
  tokenize_loop (S fuel) (mkLexer "%" ln col)
  = cons (classify EmptyString ln col)
      <$> tokenize_loop fuel (mkLexer "%" ln col).
Proof. reflexivity. Qed.

Lemma percent_loop fuel : forall ln col,
  tokenize_loop fuel (mkLexer "%" ln col) = None.
Proof.
  induction fuel as [|fuel IH]; intros ln col; [reflexivity|].
  rewrite percent_step, IH. reflexivity.
Qed.

(** The word read at a percent sign is empty, and the empty word is the
    abbreviation of RACDCERT: each iteration appends a COMMAND token with an
    empty value and leaves the cursor where it was. *)
Lemma percent_reads_empty_command ln col :
  read_identifier (mkLexer "%" ln col)
  = (Token_new COMMAND EmptyString ln col, mkLexer "%" ln col).
Proof. reflexivity. Qed.

(** C3.  On the one-character source made of a percent sign, the main loop
    of the server's [tokenize] never reaches its end: whatever the number of
    iterations allowed, no token list is returned. *)
Theorem server_tokenize_percent_never_returns :
  forall fuel, tokenize fuel "%" = None.
Proof. intros fuel. apply percent_loop. Qed.

(** C9.  A minus sign followed by a blank and a newline: the server's lexer
    emits a CONTINUATION token for it, the lexer of the example parser emits
    nothing (it looks only at the character right after the minus sign). *)
Theorem example_continuation_needs_adjacent_newline :
  let src := String "-" (String " " (String NL EmptyString)) in
  AdduserParser.tokenize src
  = Some [AdduserParser.mkToken AdduserParser.EOF EmptyString 2 1]
  /\ tokenize 8 src
     = Some [Token_new CONTINUATION "-" 0 0; Token_new EOF EmptyString 1 0].
Proof. split; vm_compute; reflexivity. Qed.

End LexerDivergence.

(** ** The ADDUSER parser *)

Module ParserFacts.
Import AdduserParser.

Section Steps.

Variable tokens : list Token.

(** One iteration of each loop. *)
Lemma parse_keywords_S fuel cmd pos :
  parse_keywords tokens (S fuel) cmd pos =
    token ← current tokens pos;
    if decide (type token = EOF) then Done cmd
    else if decide (type token = KEYWORD) then
      '(tk, pos1) ← advance_tok tokens pos;
      let kw := value tk in
      if decide (kw ∈ FLAG_KEYWORDS) then
        parse_keywords tokens fuel (add_flag kw cmd) pos1
      else if decide (kw ∈ SEGMENT_NAMES) then
        '(seg, pos2) ← parse_segment tokens fuel kw pos1;
        parse_keywords tokens fuel (add_segment kw seg cmd) pos2
      else
        next ← current tokens pos1;
        if decide (type next = LPAREN) then
          '(v, pos2) ← parse_single_value tokens fuel pos1;
          parse_keywords tokens fuel (add_keyword kw v cmd) pos2
        else parse_keywords tokens fuel cmd pos1
    else
      '(_, pos1) ← advance_tok tokens pos;
      parse_keywords tokens fuel cmd pos1.
Proof. reflexivity. Qed.

Lemma parse_segment_loop_S fuel segment pos :
  parse_segment_loop tokens (S fuel) segment pos =
    token ← current tokens pos;
    if decide (type token = RPAREN) then Done (segment, pos)
    else if decide (type token = KEYWORD) then
      '(tk, pos1) ← advance_tok tokens pos;
      let kw := value tk in
      if decide (kw ∈ FLAG_KEYWORDS) then
        parse_segment_loop tokens fuel (set_keyword kw VTrue segment) pos1
      else
        next ← current tokens pos1;
        if decide (type next = LPAREN) then
          if decide (kw ∈ SEGMENT_NAMES) then
            '(inner, pos2) ← parse_segment tokens fuel kw pos1;
            parse_segment_loop tokens fuel
              (set_keyword kw (VSegment inner) segment) pos2
          else
            '(v, pos2) ← parse_single_value tokens fuel pos1;
            parse_segment_loop tokens fuel (set_keyword kw v segment) pos2
        else parse_segment_loop tokens fuel segment pos1
    else if decide (type token = EOF) then Done (segment, pos)
    else
      '(_, pos1) ← advance_tok tokens pos;
      parse_segment_loop tokens fuel segment pos1.
Proof. reflexivity. Qed.

Lemma parse_segment_S fuel name pos :
  parse_segment tokens (S fuel) name pos =
    '(_, pos1) ← expect tokens LPAREN pos;
    '(segment, pos2) ← parse_segment_loop tokens fuel (mkSegment name ∅) pos1;
    '(_, pos3) ← expect tokens RPAREN pos2;
    Done (segment, pos3).
Proof. reflexivity. Qed.

Lemma parse_value_list_loop_S fuel values pos :
  parse_value_list_loop tokens (S fuel) values pos =
    token ← current tokens pos;
    if decide (type token = RPAREN) then Done (values, pos)
    else if is_value_type (type token) then
      '(_, pos') ← advance_tok tokens pos;
      parse_value_list_loop tokens fuel (values ++ [value token])%list pos'
    else Done (values, pos).
Proof. reflexivity. Qed.

Lemma current_lookup pos t : tokens !! pos = Some t -> current tokens pos = Done t.
Proof. unfold current. now intros ->. Qed.

Lemma advance_tok_lookup pos t :
  tokens !! pos = Some t -> advance_tok tokens pos = Done (t, S pos).
Proof. unfold advance_tok. intros ->%current_lookup. reflexivity. Qed.

(** C10.  A keyword token that is not a flag keyword and is not followed by
    a left parenthesis is skipped: the keyword loop of [parse] (for a keyword
    that is not a segment name either) and the loop of [parse_segment] go on
    from the next token with the same command, respectively the same segment;
    nothing is recorded and no error is raised by the step. *)
Theorem unvalued_keyword_is_skipped pos t next :
  tokens !! pos = Some t -> type t = KEYWORD ->
  value t ∉ FLAG_KEYWORDS ->
  current tokens (S pos) = Done next -> type next <> LPAREN ->
  (value t ∉ SEGMENT_NAMES ->
   forall fuel cmd,
     parse_keywords tokens (S fuel) cmd pos
     = parse_keywords tokens fuel cmd (S pos))
  /\ (forall fuel segment,
        parse_segment_loop tokens (S fuel) segment pos
        = parse_segment_loop tokens fuel segment (S pos)).
Proof.
  intros Ht Hty Hflag Hnext Hnp. split.
  - intros Hseg fuel cmd. rewrite parse_keywords_S.
    rewrite (current_lookup _ _ Ht), (advance_tok_lookup _ _ Ht).
    cbn [mbind outcome_bind]. rewrite Hty.
    rewrite (decide_False (P := KEYWORD = EOF)) by discriminate.
    rewrite (decide_True (P := KEYWORD = KEYWORD)) by reflexivity.
    cbv zeta.
    rewrite (decide_False (P := value t ∈ FLAG_KEYWORDS)) by assumption.
    rewrite (decide_False (P := value t ∈ SEGMENT_NAMES)) by assumption.
    rewrite Hnext. cbn [mbind outcome_bind].
    rewrite (decide_False (P := type next = LPAREN)) by assumption.
    reflexivity.
  - intros fuel segment. rewrite parse_segment_loop_S.
    rewrite (current_lookup _ _ Ht), (advance_tok_lookup _ _ Ht).
    cbn [mbind outcome_bind]. rewrite Hty.
    rewrite (decide_False (P := KEYWORD = RPAREN)) by discriminate.
    rewrite (decide_True (P := KEYWORD = KEYWORD)) by reflexivity.
    cbv zeta.
    rewrite (decide_False (P := value t ∈ FLAG_KEYWORDS)) by assumption.
    rewrite Hnext. cbn [mbind outcome_bind].
    rewrite (decide_False (P := type next = LPAREN)) by assumption.
    reflexivity.
Qed.

(** *** What the loops can do to the flags and the keyword mappings *)

Definition scalar_or_list (v : Value) : Prop :=
  match v with
  | VStr _ | VList _ => True
  | _ => False
  end.

Lemma parse_single_value_scalar_or_list fuel pos v pos' :
  parse_single_value tokens fuel pos = Done (v, pos') -> scalar_or_list v.
Proof.
  unfold parse_single_value.
  destruct (parse_value_list tokens fuel pos) as [[values p]| |];
    cbn [mbind outcome_bind]; try discriminate.
  destruct values as [|x [|y l]]; intros [= <- _]; exact I.
Qed.

(** The command [cmd'] results from [cmd] by steps of the keyword loop. *)
Record cmd_grows (cmd cmd' : AddUserCommand) : Prop := {
  grows_flags : flags cmd ⊆ flags cmd';
  grows_flags_only :
    forall k, k ∈ flags cmd' -> k ∈ flags cmd \/ k ∈ FLAG_KEYWORDS;
  grows_keywords_flag :
    forall k, k ∈ FLAG_KEYWORDS \/ k ∈ SEGMENT_NAMES ->
              keywords cmd' !! k = keywords cmd !! k;
  grows_segments_flag :
    forall k, k ∈ FLAG_KEYWORDS -> segments cmd' !! k = segments cmd !! k;
  grows_keywords :
    forall k v, keywords cmd !! k = Some v -> scalar_or_list v ->
                exists v', keywords cmd' !! k = Some v' /\ scalar_or_list v';
  grows_segments :
    forall k, is_Some (segments cmd !! k) -> is_Some (segments cmd' !! k)
}.

Lemma cmd_grows_refl cmd : cmd_grows cmd cmd.
Proof. split; eauto. Qed.

Lemma cmd_grows_trans c1 c2 c3 :
  cmd_grows c1 c2 -> cmd_grows c2 c3 -> cmd_grows c1 c3.
Proof.
  intros [A1 A2 A3 A4 A5 A6] [B1 B2 B3 B4 B5 B6]. split.
  - etrans; eassumption.
  - intros k Hk. destruct (B2 k Hk) as [H|H]; auto.
  - intros k Hk. rewrite B3, A3; auto.
  - intros k Hk. rewrite B4, A4; auto.
  - intros k v Hk Hv. destruct (A5 k v Hk Hv) as (v' & Hk' & Hv'). eauto.
  - auto.
Qed.

Lemma cmd_grows_add_flag kw cmd :
  kw ∈ FLAG_KEYWORDS -> cmd_grows cmd (add_flag kw cmd).
Proof.
  intros Hkw. split; cbn; eauto.
  - apply union_subseteq_r.
  - intros k [->%elem_of_singleton|Hk]%elem_of_union; auto.
Qed.

Lemma cmd_grows_add_segment kw seg cmd :
  kw ∉ FLAG_KEYWORDS -> cmd_grows cmd (add_segment kw seg cmd).
Proof.
  intros Hkw. split; cbn; eauto.
  - intros k Hk. apply lookup_insert_ne. intros ->. contradiction.
  - intros k Hk. destruct (decide (kw = k)) as [->|Hne].
    + rewrite lookup_insert_eq. eauto.
    + rewrite lookup_insert_ne; auto.
Qed.

Lemma cmd_grows_add_keyword kw v cmd :
  kw ∉ FLAG_KEYWORDS -> kw ∉ SEGMENT_NAMES -> scalar_or_list v ->
  cmd_grows cmd (add_keyword kw v cmd).
Proof.
  intros Hkw Hseg Hv. split; cbn; eauto.
  - intros k Hk. apply lookup_insert_ne. intros ->. tauto.
  - intros k w Hk Hw. destruct (decide (kw = k)) as [->|Hne].
    + rewrite lookup_insert_eq. eauto.
    + rewrite lookup_insert_ne; eauto.
Qed.

Ltac bind_case H :=
  match type of H with
  | context [mbind _ ?m] =>
      let E := fresh "E" in
      destruct m as [?| |] eqn:E; cbn [mbind outcome_bind] in H;
      try discriminate H
  end.

Lemma parse_keywords_grows fuel : forall cmd pos cmd',
  parse_keywords tokens fuel cmd pos = Done cmd' -> cmd_grows cmd cmd'.
Proof.
  induction fuel as [|fuel IH]; intros cmd pos cmd' H; [discriminate|].
  rewrite parse_keywords_S in H. bind_case H.
  case_decide; [injection H as <-; apply cmd_grows_refl|].
  case_decide.
  - bind_case H. destruct a0 as [tk pos1]. cbv zeta in H.
    case_decide; [|case_decide].
    + eapply cmd_grows_trans; [|eapply IH; eassumption].
      now apply cmd_grows_add_flag.
    + bind_case H. destruct a0 as [seg pos2].
      eapply cmd_grows_trans; [|eapply IH; eassumption].
      now apply cmd_grows_add_segment.
    + bind_case H. case_decide; [|eauto].
      bind_case H. destruct a1 as [v pos2].
      eapply cmd_grows_trans; [|eapply IH; eassumption].
      apply cmd_grows_add_keyword; auto.
      eapply parse_single_value_scalar_or_list; eauto.
  - bind_case H. destruct a0 as [tk pos1]. eauto.
Qed.

(** The same for a segment's keyword mapping. *)
Definition not_true (v : Value) : Prop := v <> VTrue.

Record seg_grows (seg seg' : Segment) : Prop := {
  sgrows_name : seg_name seg' = seg_name seg;
  sgrows_flag :
    forall k, k ∈ FLAG_KEYWORDS -> seg_keywords seg !! k = Some VTrue ->
              seg_keywords seg' !! k = Some VTrue;
  sgrows_value :
    forall k v, k ∉ FLAG_KEYWORDS -> seg_keywords seg !! k = Some v ->
                not_true v ->
                exists v', seg_keywords seg' !! k = Some v' /\ not_true v'
}.

Lemma seg_grows_refl seg : seg_grows seg seg.
Proof. split; eauto. Qed.

Lemma seg_grows_trans s1 s2 s3 :
  seg_grows s1 s2 -> seg_grows s2 s3 -> seg_grows s1 s3.
Proof.
  intros [A1 A2 A3] [B1 B2 B3]. split.
  - congruence.
  - auto.
  - intros k v Hk Hs Hv. destruct (A3 k v Hk Hs Hv) as (v' & Hs' & Hv'). eauto.
Qed.

Lemma seg_grows_set_flag kw seg :
  kw ∈ FLAG_KEYWORDS -> seg_grows seg (set_keyword kw VTrue seg).
Proof.
  intros Hkw. destruct seg as [n kws]. split; cbn.
  - reflexivity.
  - intros k Hk Hs. destruct (decide (kw = k)) as [->|Hne].
    + apply lookup_insert_eq.
    + rewrite lookup_insert_ne; auto.
  - intros k v Hk Hs Hv. exists v. split; [|assumption].
    rewrite lookup_insert_ne; [assumption|]. intros ->. contradiction.
Qed.

Lemma seg_grows_set_value kw v seg :
  kw ∉ FLAG_KEYWORDS -> not_true v -> seg_grows seg (set_keyword kw v seg).
Proof.
  intros Hkw Hv. destruct seg as [n kws]. split; cbn.
  - reflexivity.
  - intros k Hk Hs. rewrite lookup_insert_ne; [assumption|]. intros ->. contradiction.
  - intros k w Hk Hs Hw. destruct (decide (kw = k)) as [->|Hne].
    + rewrite lookup_insert_eq. eauto.
    + rewrite lookup_insert_ne; eauto.
Qed.

Lemma scalar_or_list_not_true v : scalar_or_list v -> not_true v.
Proof. destruct v; cbn; intros H; try contradiction; discriminate. Qed.

Lemma parse_segment_loop_grows fuel : forall seg pos seg' pos',
  parse_segment_loop tokens fuel seg pos = Done (seg', pos') ->
  seg_grows seg seg'.
Proof.
  induction fuel as [|fuel IH]; intros seg pos seg' pos' H; [discriminate|].
  rewrite parse_segment_loop_S in H. bind_case H.
  case_decide; [injection H as <- _; apply seg_grows_refl|].
  case_decide.
  - bind_case H. destruct a0 as [tk pos1]. cbv zeta in H.
    case_decide.
    + eapply seg_grows_trans; [|eapply IH; eassumption].
      now apply seg_grows_set_flag.
    + bind_case H. case_decide; [|eauto]. case_decide.
      * bind_case H. destruct a1 as [inner pos2].
        eapply seg_grows_trans; [|eapply IH; eassumption].
        apply seg_grows_set_value; [assumption|discriminate].
      * bind_case H. destruct a1 as [v pos2].
        eapply seg_grows_trans; [|eapply IH; eassumption].
        apply seg_grows_set_value; [assumption|].
        eapply scalar_or_list_not_true, parse_single_value_scalar_or_list.
        eassumption.
  - case_decide; [injection H as <- _; apply seg_grows_refl|].
    bind_case H. destruct a0 as [tk pos1]. eauto.
Qed.

(** The dispatch of the two loops at a keyword token. *)
Lemma parse_keywords_at_keyword fuel cmd pos t :
  tokens !! pos = Some t -> type t = KEYWORD ->
  parse_keywords tokens (S fuel) cmd pos =
    if decide (value t ∈ FLAG_KEYWORDS) then
      parse_keywords tokens fuel (add_flag (value t) cmd) (S pos)
    else if decide (value t ∈ SEGMENT_NAMES) then
      '(seg, pos2) ← parse_segment tokens fuel (value t) (S pos);
      parse_keywords tokens fuel (add_segment (value t) seg cmd) pos2
    else
      next ← current tokens (S pos);
      if decide (type next = LPAREN) then
        '(v, pos2) ← parse_single_value tokens fuel (S pos);
        parse_keywords tokens fuel (add_keyword (value t) v cmd) pos2
      else parse_keywords tokens fuel cmd (S pos).
Proof.
  intros Ht Hty. rewrite parse_keywords_S.
  rewrite (current_lookup _ _ Ht), (advance_tok_lookup _ _ Ht).
  cbn [mbind outcome_bind]. rewrite Hty.
  rewrite (decide_False (P := KEYWORD = EOF)) by discriminate.
  rewrite (decide_True (P := KEYWORD = KEYWORD)) by reflexivity.
  reflexivity.
Qed.

Lemma parse_segment_loop_at_keyword fuel segment pos t :
  tokens !! pos = Some t -> type t = KEYWORD ->
  parse_segment_loop tokens (S fuel) segment pos =
    if decide (value t ∈ FLAG_KEYWORDS) then
      parse_segment_loop tokens fuel (set_keyword (value t) VTrue segment)
                         (S pos)
    else
      next ← current tokens (S pos);
      if decide (type next = LPAREN) then
        if decide (value t ∈ SEGMENT_NAMES) then
          '(inner, pos2) ← parse_segment tokens fuel (value t) (S pos);
          parse_segment_loop tokens fuel
            (set_keyword (value t) (VSegment inner) segment) pos2
        else
          '(v, pos2) ← parse_single_value tokens fuel (S pos);
          parse_segment_loop tokens fuel (set_keyword (value t) v segment) pos2
      else parse_segment_loop tokens fuel segment (S pos).
Proof.
  intros Ht Hty. rewrite parse_segment_loop_S.
  rewrite (current_lookup _ _ Ht), (advance_tok_lookup _ _ Ht).
  cbn [mbind outcome_bind]. rewrite Hty.
  rewrite (decide_False (P := KEYWORD = RPAREN)) by discriminate.
  rewrite (decide_True (P := KEYWORD = KEYWORD)) by reflexivity.
  reflexivity.
Qed.

Lemma set_keyword_lookup kw v seg :
  seg_keywords (set_keyword kw v seg) !! kw = Some v.
Proof. destruct seg. cbn. apply lookup_insert_eq. Qed.

(** C7 (as amended).  Let the token at [pos] be a keyword token.

    If the keyword is a flag keyword then, whatever follows it: the keyword
    loop of [parse], when it returns a command, has the keyword in [flags]
    and has changed neither the [keywords] nor the [segments] entry of that
    name; the loop of [parse_segment], when it returns a segment, has
    recorded [True] under the keyword.

    If the keyword is not a flag keyword and the next token is a left
    parenthesis then, when the loop returns (the value list or segment body
    was well formed): the keyword loop of [parse] has not added the keyword
    to [flags]; for a keyword that is not a segment name it has recorded a
    string or a list of strings under it in [keywords]; for a segment name
    it has recorded a segment under it in [segments] and has left [keywords]
    alone; the loop of [parse_segment] has recorded under the keyword a
    value other than [True]. *)
Theorem flag_value_disjointness pos t :
  tokens !! pos = Some t -> type t = KEYWORD ->
  (value t ∈ FLAG_KEYWORDS ->
     (forall fuel cmd cmd',
         parse_keywords tokens fuel cmd pos = Done cmd' ->
         value t ∈ flags cmd'
         /\ keywords cmd' !! value t = keywords cmd !! value t
         /\ segments cmd' !! value t = segments cmd !! value t)
     /\ (forall fuel seg seg' pos',
           parse_segment_loop tokens fuel seg pos = Done (seg', pos') ->
           seg_keywords seg' !! value t = Some VTrue))
  /\ (value t ∉ FLAG_KEYWORDS ->
      forall next, current tokens (S pos) = Done next -> type next = LPAREN ->
      (forall fuel cmd cmd',
          parse_keywords tokens fuel cmd pos = Done cmd' ->
          (value t ∈ flags cmd' -> value t ∈ flags cmd)
          /\ (value t ∉ SEGMENT_NAMES ->
              exists v, keywords cmd' !! value t = Some v
                        /\ scalar_or_list v)
          /\ (value t ∈ SEGMENT_NAMES ->
              is_Some (segments cmd' !! value t)
              /\ keywords cmd' !! value t = keywords cmd !! value t))
      /\ (forall fuel seg seg' pos',
            parse_segment_loop tokens fuel seg pos = Done (seg', pos') ->
            exists v, seg_keywords seg' !! value t = Some v /\ v <> VTrue)).
Proof.
  intros Ht Hty. split.
  - intros Hflag. split.
    + intros [|fuel] cmd cmd' H; [discriminate|].
      rewrite (parse_keywords_at_keyword _ _ _ _ Ht Hty) in H.
      rewrite decide_True in H by assumption.
      apply parse_keywords_grows in H as [G1 _ G3 G4 _ _].
      split; [|split].
      * apply G1. cbn. apply elem_of_union_l, elem_of_singleton. reflexivity.
      * apply (G3 (value t)). auto.
      * apply (G4 (value t)). auto.
    + intros [|fuel] seg seg' pos' H; [discriminate|].
      rewrite (parse_segment_loop_at_keyword _ _ _ _ Ht Hty) in H.
      rewrite decide_True in H by assumption.
      apply parse_segment_loop_grows in H as [_ G2 _].
      apply G2; [assumption|]. apply set_keyword_lookup.
  - intros Hflag next Hnext Hlp. split.
    + intros [|fuel] cmd cmd' H; [discriminate|]. split; [|split].
      * apply parse_keywords_grows in H as [_ G2 _ _ _ _].
        intros Hin. destruct (G2 _ Hin); [assumption|contradiction].
      * intros Hseg.
        rewrite (parse_keywords_at_keyword _ _ _ _ Ht Hty) in H.
        rewrite decide_False in H by assumption.
        rewrite decide_False in H by assumption.
        rewrite Hnext in H. cbn [mbind outcome_bind] in H.
        rewrite decide_True in H by assumption.
        bind_case H. destruct a as [v pos2].
        apply parse_single_value_scalar_or_list in E.
        apply parse_keywords_grows in H as [_ _ _ _ G5 _].
        apply (G5 (value t) v); [|assumption]. cbn. apply lookup_insert_eq.
      * intros Hseg.
        rewrite (parse_keywords_at_keyword _ _ _ _ Ht Hty) in H.
        rewrite decide_False in H by assumption.
        rewrite decide_True in H by assumption.
        bind_case H. destruct a as [seg pos2].
        apply parse_keywords_grows in H as [_ _ G3 _ _ G6]. split.
        -- apply G6. cbn. rewrite lookup_insert_eq. eauto.
        -- rewrite G3 by auto. reflexivity.
    + intros [|fuel] seg seg' pos' H; [discriminate|].
      rewrite (parse_segment_loop_at_keyword _ _ _ _ Ht Hty) in H.
      rewrite decide_False in H by assumption.
      rewrite Hnext in H. cbn [mbind outcome_bind] in H.
      rewrite decide_True in H by assumption.
      case_decide.
      * bind_case H. destruct a as [inner pos2].
        apply parse_segment_loop_grows in H as [_ _ G3].
        apply (G3 (value t) (VSegment inner)); [assumption| |discriminate].
        apply set_keyword_lookup.
      * bind_case H. destruct a as [v pos2].
        apply parse_single_value_scalar_or_list, scalar_or_list_not_true in E.
        apply parse_segment_loop_grows in H as [_ _ G3].
        apply (G3 (value t) v); [assumption| |assumption].
        apply set_keyword_lookup.
Qed.

End Steps.

End ParserFacts.

(** *** Nested segments *)

Module NestedSegments.
Import AdduserParser ParserFacts.

Section Nesting.

Variable tokens : list Token.

Lemma expect_lookup ty pos t :
  tokens !! pos = Some t -> type t = ty ->
  expect tokens ty pos = Done (t, S pos).
Proof.
  intros Ht Hty. unfold expect. rewrite (current_lookup _ _ _ Ht).
  cbn [mbind outcome_bind]. rewrite decide_True by assumption.
  now apply advance_tok_lookup.
Qed.

Lemma parse_segment_loop_at_rparen fuel seg pos t :
  tokens !! pos = Some t -> type t = RPAREN ->
  parse_segment_loop tokens (S fuel) seg pos = Done (seg, pos).
Proof.
  intros Ht Hty. rewrite parse_segment_loop_S, (current_lookup _ _ _ Ht).
  cbn [mbind outcome_bind]. now rewrite decide_True.
Qed.

Lemma parse_keywords_at_eof fuel cmd pos t :
  tokens !! pos = Some t -> type t = EOF ->
  parse_keywords tokens (S fuel) cmd pos = Done cmd.
Proof.
  intros Ht Hty. rewrite parse_keywords_S, (current_lookup _ _ _ Ht).
  cbn [mbind outcome_bind]. now rewrite decide_True.
Qed.

(** [( v )] : a value list with one identifier. *)
Lemma parse_value_list_single fuel pos lp t rp :
  tokens !! pos = Some lp -> type lp = LPAREN ->
  tokens !! S pos = Some t -> type t = IDENTIFIER ->
  tokens !! S (S pos) = Some rp -> type rp = RPAREN ->
  parse_value_list tokens (S (S fuel)) pos = Done ([value t], S (S (S pos))).
Proof.
  intros Hlp Hlpt Ht Htt Hrp Hrpt. unfold parse_value_list.
  rewrite (expect_lookup _ _ _ Hlp Hlpt). cbn [mbind outcome_bind].
  rewrite parse_value_list_loop_S, (current_lookup _ _ _ Ht).
  cbn [mbind outcome_bind]. rewrite Htt.
  rewrite (decide_False (P := IDENTIFIER = RPAREN)) by discriminate.
  cbn [is_value_type]. rewrite (advance_tok_lookup _ _ _ Ht).
  cbn [mbind outcome_bind].
  rewrite parse_value_list_loop_S, (current_lookup _ _ _ Hrp).
  cbn [mbind outcome_bind]. rewrite decide_True by assumption.
  cbn [mbind outcome_bind].
  rewrite (expect_lookup _ _ _ Hrp Hrpt). reflexivity.
Qed.

(** [NAME ( X )] with a flag keyword [X]: the innermost segment. *)
Lemma parse_segment_flag fuel name pos lp x rp :
  tokens !! pos = Some lp -> type lp = LPAREN ->
  tokens !! S pos = Some x -> type x = KEYWORD -> value x ∈ FLAG_KEYWORDS ->
  tokens !! S (S pos) = Some rp -> type rp = RPAREN ->
  parse_segment tokens (S (S (S fuel))) name pos
  = Done (mkSegment name {[value x := VTrue]}, S (S (S pos))).
Proof.
  intros Hlp Hlpt Hx Hxt Hxf Hrp Hrpt. rewrite parse_segment_S.
  rewrite (expect_lookup _ _ _ Hlp Hlpt). cbn [mbind outcome_bind].
  rewrite (parse_segment_loop_at_keyword _ _ _ _ _ Hx Hxt).
  rewrite decide_True by assumption.
  rewrite (parse_segment_loop_at_rparen _ _ _ _ Hrp Hrpt).
  cbn [mbind outcome_bind].
  rewrite (expect_lookup _ _ _ Hrp Hrpt). reflexivity.
Qed.

(** [NAME ( INNER ( ... ) )] with a segment name [INNER]: one more level. *)
Lemma parse_segment_nested fuel name pos lp k inner pos' rp :
  tokens !! pos = Some lp -> type lp = LPAREN ->
  tokens !! S pos = Some k -> type k = KEYWORD ->
  value k ∉ FLAG_KEYWORDS -> value k ∈ SEGMENT_NAMES ->
  parse_segment tokens (S fuel) (value k) (S (S pos)) = Done (inner, pos') ->
  tokens !! pos' = Some rp -> type rp = RPAREN ->
  parse_segment tokens (S (S (S fuel))) name pos
  = Done (mkSegment name {[value k := VSegment inner]}, S pos').
Proof.
  intros Hlp Hlpt Hk Hkt Hkf Hks Hin Hrp Hrpt. rewrite parse_segment_S.
  rewrite (expect_lookup _ _ _ Hlp Hlpt). cbn [mbind outcome_bind].
  rewrite (parse_segment_loop_at_keyword _ _ _ _ _ Hk Hkt).
  rewrite decide_False by assumption.
  assert (exists lp', current tokens (S (S pos)) = Done lp' /\ type lp' = LPAREN)
    as (lp' & Hlp' & Hlpt').
  { rewrite parse_segment_S in Hin. unfold expect in Hin.
    destruct (current tokens (S (S pos))) as [lp'| |];
      cbn [mbind outcome_bind] in Hin; try discriminate.
    case_decide; [eauto|discriminate]. }
  rewrite Hlp'. cbn [mbind outcome_bind].
  rewrite decide_True by assumption. rewrite decide_True by assumption.
  rewrite Hin. cbn [mbind outcome_bind].
  rewrite (parse_segment_loop_at_rparen _ _ _ _ Hrp Hrpt).
  cbn [mbind outcome_bind].
  rewrite (expect_lookup _ _ _ Hrp Hrpt). reflexivity.
Qed.

End Nesting.

Lemma segment_name_not_flag k : k ∈ SEGMENT_NAMES -> k ∉ FLAG_KEYWORDS.
Proof.
  unfold SEGMENT_NAMES. rewrite elem_of_list_to_set. intros H.
  repeat (apply elem_of_cons in H as [->|H]; [compute_done|]).
  apply elem_of_nil in H. contradiction.
Qed.

(** C8 (as amended).  Take the tokens of a command, its user id list, and
    then [A ( B ( C ( X ) ) )], where [A], [B] and [C] are segment names and
    [X] is a flag keyword.  The parser returns a command whose [segments]
    hold, under [A], a segment whose keyword mapping holds, under [B], a
    segment whose keyword mapping holds, under [C], a segment whose keyword
    mapping holds [True] under [X]; nothing else is recorded. *)
Theorem nested_segments_three_deep tokens c u A B C X :
  map (fun t => (type t, value t)) tokens
  = [(COMMAND, c); (LPAREN, "("); (IDENTIFIER, u); (RPAREN, ")");
     (KEYWORD, A); (LPAREN, "("); (KEYWORD, B); (LPAREN, "(");
     (KEYWORD, C); (LPAREN, "("); (KEYWORD, X);
     (RPAREN, ")"); (RPAREN, ")"); (RPAREN, ")"); (EOF, EmptyString)] ->
  A ∈ SEGMENT_NAMES -> B ∈ SEGMENT_NAMES -> C ∈ SEGMENT_NAMES ->
  X ∈ FLAG_KEYWORDS ->
  Parser_parse tokens
  = Done (mkAddUserCommand [u] ∅
            {[A := mkSegment A
                     {[B := VSegment (mkSegment B
                              {[C := VSegment (mkSegment C
                                       {[X := VTrue]})]})]}]}
            ∅).
Proof.
  intros Hshape HA HB HC HX.
  pose proof (segment_name_not_flag _ HA) as HA'.
  pose proof (segment_name_not_flag _ HB) as HB'.
  pose proof (segment_name_not_flag _ HC) as HC'.
  do 15 (destruct tokens as [|[? ? ? ?] tokens]; [discriminate Hshape|]).
  destruct tokens; [|discriminate Hshape].
  cbn [map type value] in Hshape.
  injection Hshape as -> -> -> -> -> -> -> -> -> -> -> -> -> -> -> -> -> ->
                      -> -> -> -> -> -> -> -> -> -> -> ->.
  unfold Parser_parse.
  match goal with
  | |- parse (Parser_init ?l) _ = _ =>
      change (Parser_init l) with l; change (length l) with 15%nat;
      set (toks := l)
  end.
  unfold parse.
  rewrite (current_lookup toks 0 _ eq_refl). cbn [mbind outcome_bind type].
  rewrite (decide_True (P := COMMAND = COMMAND)) by reflexivity.
  rewrite (advance_tok_lookup toks 0 _ eq_refl). cbn [mbind outcome_bind].
  rewrite (parse_value_list_single toks 14 1 _ _ _
             eq_refl eq_refl eq_refl eq_refl eq_refl eq_refl).
  cbn [mbind outcome_bind value].
  rewrite (parse_keywords_at_keyword toks 15 _ 4 _ eq_refl eq_refl).
  cbn [value].
  rewrite decide_False by assumption. rewrite decide_True by assumption.
  pose proof (parse_segment_flag toks 8 C 9 _ _ _
                eq_refl eq_refl eq_refl eq_refl HX eq_refl eq_refl) as HinC.
  cbn [value] in HinC.
  pose proof (parse_segment_nested toks 10 B 7 _ _ _ _ _
                eq_refl eq_refl eq_refl eq_refl HC' HC HinC eq_refl eq_refl)
    as HinB.
  cbn [value] in HinB.
  pose proof (parse_segment_nested toks 12 A 5 _ _ _ _ _
                eq_refl eq_refl eq_refl eq_refl HB' HB HinB eq_refl eq_refl)
    as HinA.
  cbn [value] in HinA.
  rewrite HinA. cbn [mbind outcome_bind].
  rewrite (parse_keywords_at_eof toks 14 _ 14 _ eq_refl eq_refl).
  reflexivity.
Qed.

End NestedSegments.

(** *** Concrete commands *)

Module ParserExamples.
Import AdduserParser ParserFacts NestedSegments.

(** The scenarios of the specification. *)
Example parse_name_and_group :
  parse_adduser "ADDUSER (JSMITH) NAME('John Smith') DFLTGRP(PAYROLL)"
  = Done (mkAddUserCommand ["JSMITH"]
            {["NAME" := VStr "John Smith"; "DFLTGRP" := VStr "PAYROLL"]}
            ∅ ∅).
Proof. vm_compute. reflexivity. Qed.

Example parse_flags :
  parse_adduser "ADDUSER (SECADMIN) SPECIAL AUDITOR OPERATIONS"
  = Done (mkAddUserCommand ["SECADMIN"] ∅ ∅
            {["SPECIAL"; "AUDITOR"; "OPERATIONS"]}).
Proof. vm_compute. reflexivity. Qed.

Example parse_omvs_two_lines :
  parse_adduser ("ADDUSER (JSMITH) -" ++ String NL
                 "  OMVS(UID(1000) HOME('/u/jsmith'))")
  = Done (mkAddUserCommand ["JSMITH"] ∅
            {["OMVS" := mkSegment "OMVS"
                {["UID" := VStr "1000"; "HOME" := VStr "/u/jsmith"]}]}
            ∅).
Proof. vm_compute. reflexivity. Qed.

(** C7, counterexample.  OMVS and NAME are not flag keywords and each is
    followed by a left parenthesis.  The value of OMVS is not recorded in the
    [keywords] mapping (a segment name at command level goes to
    [segments]); and with a value list that is not closed, nothing is
    recorded for NAME at all, the parser raises. *)
Lemma nonflag_keyword_value_not_in_keywords :
  (exists cmd,
      parse_adduser "ADDUSER (JSMITH) OMVS(UID(7))" = Done cmd
      /\ ("OMVS" ∉ FLAG_KEYWORDS)
      /\ keywords cmd !! "OMVS" = None
      /\ is_Some (segments cmd !! "OMVS"))
  /\ ("NAME" ∉ FLAG_KEYWORDS)
  /\ parse_adduser "ADDUSER (JSMITH) NAME("
     = Raise (SyntaxError_expected RPAREN EOF 1 23).
Proof.
  split; [|split].
  - eexists. split; [vm_compute; reflexivity|].
    split; [compute_done|]. split; [reflexivity|].
    vm_compute. eexists. reflexivity.
  - compute_done.
  - vm_compute. reflexivity.
Qed.

(** A command with a flag keyword (SPECIAL), a keyword with a value
    (NAME) and a segment (OMVS) that holds a flag keyword (AUTOUID) and a
    keyword with a value (UID). *)
Definition disjointness_source : string :=
  "ADDUSER (JSMITH) SPECIAL NAME(X) OMVS(AUTOUID UID(7))".

Definition disjointness_tokens : list Token :=
  Eval vm_compute in default [] (tokenize disjointness_source).

Lemma flag_value_disjointness_witness :
  let toks := disjointness_tokens in
  let cmd0 := mkAddUserCommand ["JSMITH"] ∅ ∅ ∅ in
  let seg0 := mkSegment "OMVS" ∅ in
  tokenize disjointness_source = Some toks
  /\ map value toks
     = ["ADDUSER"; "("; "JSMITH"; ")"; "SPECIAL"; "NAME"; "("; "X"; ")";
        "OMVS"; "("; "AUTOUID"; "UID"; "("; "7"; ")"; ")"; EmptyString]
  /\ (exists cmd',
        parse_keywords toks 20 cmd0 4 = Done cmd'
        /\ "SPECIAL" ∈ flags cmd'
        /\ keywords cmd' !! "SPECIAL" = keywords cmd0 !! "SPECIAL"
        /\ segments cmd' !! "SPECIAL" = segments cmd0 !! "SPECIAL")
  /\ (exists cmd',
        parse_keywords toks 20 cmd0 5 = Done cmd'
        /\ ("NAME" ∈ flags cmd' -> "NAME" ∈ flags cmd0)
        /\ (exists v, keywords cmd' !! "NAME" = Some v /\ scalar_or_list v))
  /\ (exists cmd',
        parse_keywords toks 20 cmd0 9 = Done cmd'
        /\ ("OMVS" ∈ flags cmd' -> "OMVS" ∈ flags cmd0)
        /\ is_Some (segments cmd' !! "OMVS")
        /\ keywords cmd' !! "OMVS" = keywords cmd0 !! "OMVS")
  /\ (exists seg' pos',
        parse_segment_loop toks 20 seg0 11 = Done (seg', pos')
        /\ seg_keywords seg' !! "AUTOUID" = Some VTrue)
  /\ (exists seg' pos',
        parse_segment_loop toks 20 seg0 12 = Done (seg', pos')
        /\ exists v, seg_keywords seg' !! "UID" = Some v /\ v <> VTrue).
Proof.
  intros toks cmd0 seg0.
  split; [vm_compute; reflexivity|]. split; [reflexivity|].
  split; [|split; [|split; [|split]]].
  - eexists. split; [vm_compute; reflexivity|].
    eapply (proj1 (proj1 (flag_value_disjointness toks 4 _ eq_refl eq_refl)
                     ltac:(compute_done)) 20 cmd0).
    vm_compute. reflexivity.
  - eexists. split; [vm_compute; reflexivity|].
    destruct (proj1 (proj2 (flag_value_disjointness toks 5 _ eq_refl eq_refl)
                       ltac:(compute_done) _ eq_refl eq_refl) 20 cmd0 _
                ltac:(vm_compute; reflexivity)) as (H1 & H2 & _).
    split; [exact H1|]. apply H2. compute_done.
  - eexists. split; [vm_compute; reflexivity|].
    destruct (proj1 (proj2 (flag_value_disjointness toks 9 _ eq_refl eq_refl)
                       ltac:(compute_done) _ eq_refl eq_refl) 20 cmd0 _
                ltac:(vm_compute; reflexivity)) as (H1 & _ & H3).
    split; [exact H1|]. apply H3. compute_done.
  - do 2 eexists. split; [vm_compute; reflexivity|].
    eapply (proj2 (proj1 (flag_value_disjointness toks 11 _ eq_refl eq_refl)
                     ltac:(compute_done)) 20 seg0).
    vm_compute. reflexivity.
  - do 2 eexists. split; [vm_compute; reflexivity|].
    eapply (proj2 (proj2 (flag_value_disjointness toks 12 _ eq_refl eq_refl)
                     ltac:(compute_done) _ eq_refl eq_refl) 20 seg0).
    vm_compute. reflexivity.
Defined.

(** C8, counterexample.  KERB, ENCRYPT and OMVS are segment names and UID is
    a known keyword, yet after parsing [KERB(ENCRYPT(OMVS(UID)))] the
    innermost segment does not contain UID: a keyword that is not a flag and
    has no value list is skipped. *)
Lemma nested_keyword_without_value_is_lost :
  "UID" ∈ ADDUSER_KEYWORDS
  /\ parse_adduser "ADDUSER (JSMITH) KERB(ENCRYPT(OMVS(UID)))"
     = Done (mkAddUserCommand ["JSMITH"] ∅
               {["KERB" := mkSegment "KERB"
                   {["ENCRYPT" := VSegment (mkSegment "ENCRYPT"
                       {["OMVS" := VSegment (mkSegment "OMVS" ∅)]})]}]}
               ∅).
Proof. split; [compute_done|vm_compute; reflexivity]. Qed.

Lemma nested_segments_three_deep_witness :
  exists toks,
    tokenize "ADDUSER (JSMITH) KERB(ENCRYPT(OMVS(AUTOUID)))" = Some toks
    /\ map (fun t => (type t, value t)) toks
       = [(COMMAND, "ADDUSER"); (LPAREN, "("); (IDENTIFIER, "JSMITH");
          (RPAREN, ")");
          (KEYWORD, "KERB"); (LPAREN, "("); (KEYWORD, "ENCRYPT");
          (LPAREN, "("); (KEYWORD, "OMVS"); (LPAREN, "(");
          (KEYWORD, "AUTOUID");
          (RPAREN, ")"); (RPAREN, ")"); (RPAREN, ")"); (EOF, EmptyString)]
    /\ "KERB" ∈ SEGMENT_NAMES /\ "ENCRYPT" ∈ SEGMENT_NAMES
    /\ "OMVS" ∈ SEGMENT_NAMES /\ "AUTOUID" ∈ FLAG_KEYWORDS
    /\ Parser_parse toks
       = Done (mkAddUserCommand ["JSMITH"] ∅
                 {["KERB" := mkSegment "KERB"
                     {["ENCRYPT" := VSegment (mkSegment "ENCRYPT"
                         {["OMVS" := VSegment (mkSegment "OMVS"
                             {["AUTOUID" := VTrue]})]})]}]}
                 ∅).
Proof.
  eexists. split; [vm_compute; reflexivity|].
  split; [reflexivity|].
  do 4 (split; [compute_done|]).
  apply (nested_segments_three_deep _ "ADDUSER" "JSMITH"
           "KERB" "ENCRYPT" "OMVS" "AUTOUID");
    [reflexivity|compute_done..].
Defined.

Lemma unvalued_keyword_is_skipped_witness :
  exists toks t next,
    tokenize "ADDUSER (JSMITH) UID SPECIAL" = Some toks
    /\ toks !! 4%nat = Some t /\ type t = KEYWORD
    /\ (value t ∉ FLAG_KEYWORDS)
    /\ current toks 5 = Done next /\ type next <> LPAREN
    /\ (value t ∉ SEGMENT_NAMES ->
        forall fuel cmd,
          parse_keywords toks (S fuel) cmd 4
          = parse_keywords toks fuel cmd 5)
    /\ (forall fuel segment,
          parse_segment_loop toks (S fuel) segment 4
          = parse_segment_loop toks fuel segment 5).
Proof.
  do 3 eexists. split; [vm_compute; reflexivity|].
  split; [reflexivity|]. split; [reflexivity|].
  split; [compute_done|].
  split; [reflexivity|]. split; [discriminate|].
  eapply (unvalued_keyword_is_skipped _ 4);
    [reflexivity|reflexivity|compute_done|reflexivity|discriminate].
Defined.

End ParserExamples.

(** ** Continuation folding *)

(** *** The token stream does not depend on positions *)

Module PositionFree.
Import AdduserParser ExampleLexerFacts.

(** What the sub-lexers read and leave, as functions of the text alone. *)
Fixpoint ws_rest (s : string) : string :=
  match s with
  | EmptyString => EmptyString
  | String c s' => if char_in c WHITESPACE then ws_rest s' else s
  end.

Definition comment_rest (s : string) : string :=
  default EmptyString (comment_end s).

Fixpoint str_val (s : string) : string :=
  match s with
  | EmptyString => EmptyString
  | String c s' =>
      if Ascii.eqb c QUOTE then
        match s' with
        | String d s'' =>
            if Ascii.eqb d QUOTE then String QUOTE (str_val s'')
            else EmptyString
        | EmptyString => EmptyString
        end
      else String c (str_val s')
  end.

Definition str_rest (s : string) : string :=
  default EmptyString (string_end s).

Fixpoint word_val (s : string) : string :=
  match s with
  | EmptyString => EmptyString
  | String c s' => if ident_char c then String c (word_val s') else EmptyString
  end.

Fixpoint word_rest (s : string) : string :=
  match s with
  | EmptyString => EmptyString
  | String c s' => if ident_char c then word_rest s' else s
  end.

Definition tv (t : Token) : TokenType * string := (type t, value t).

Definition starts_with (d : ascii) (s : string) : bool :=
  match s with
  | String c _ => Ascii.eqb c d
  | EmptyString => false
  end.

Definition line_ends (s : string) : bool :=
  match s with
  | EmptyString => true
  | String d _ => char_in d NL_CR
  end.

Definition tail (s : string) : string :=
  match s with
  | EmptyString => EmptyString
  | String _ s' => s'
  end.

(** The main loop of [tokenize] with the positions left out. *)
Fixpoint slex (fuel : nat) (s : string) : option (list (TokenType * string)) :=
  match fuel with
  | O => None
  | S fuel' =>
      match s with
      | EmptyString => Some [(EOF, EmptyString)]
      | String c s' =>
          if char_in c WHITESPACE then slex fuel' (ws_rest s)
          else if Ascii.eqb c "/" && starts_with "*" s' then
            slex fuel' (comment_rest (tail s'))
          else if Ascii.eqb c "-" && line_ends s' then
            cons (CONTINUATION, "-") <$> slex fuel' s'
          else if Ascii.eqb c "(" then cons (LPAREN, "(") <$> slex fuel' s'
          else if Ascii.eqb c ")" then cons (RPAREN, ")") <$> slex fuel' s'
          else if Ascii.eqb c QUOTE then
            cons (STRING, str_val s') <$> slex fuel' (str_rest s')
          else if isalnum c || char_in c "@#$" then
            cons (tv (classify (word_val s) 1 1)) <$> slex fuel' (word_rest s)
          else slex fuel' s'
      end
  end.







Section Bridge.

Variables (lx : Lexer) (c : ascii) (s' : string).
Hypothesis Hs : source lx = String c s'.








End Bridge.






(** The stream of types and values of a text. *)
Definition lexs (s : string) : list (TokenType * string) :=
  default [] (slex (S (String.length s)) s).









(** One iteration of the main loop, on the stream. *)
Lemma lexs_nil : lexs EmptyString = [(EOF, EmptyString)].
Proof. reflexivity. Qed.


End PositionFree.

(** *** Text after a lexically closed piece *)

Module Folding.
Import AdduserParser ExampleLexerFacts PositionFree.

(** Dropping the continuation markers, as [Parser.__init__] does. *)
Definition strip (l : list (TokenType * string)) : list (TokenType * string) :=
  List.filter (fun p => negb (bool_decide (p.1 = CONTINUATION))) l.






















End Folding.

(** *** The parser reads only the type and the value of a token *)

Module ParserPositions.
Import AdduserParser ExampleLexerFacts PositionFree ParserFacts.

(** Two runs that agree up to the text of the exceptions. *)
Inductive orel {A B : Type} (R : A -> B -> Prop)
  : outcome A -> outcome B -> Prop :=
  | orel_done a b : R a b -> orel R (Done a) (Done b)
  | orel_raise e1 e2 : orel R (Raise e1) (Raise e2)
  | orel_timeout : orel R Timeout Timeout.

Lemma orel_bind {A B A' B'} (R : A -> B -> Prop) (S : A' -> B' -> Prop)
    (m1 : outcome A) (m2 : outcome B) f g :
  orel R m1 m2 -> (forall a b, R a b -> orel S (f a) (g b)) ->
  orel S (m1 ≫= f) (m2 ≫= g).
Proof. intros [a b H| |] Hfg; cbn; auto; constructor. Qed.

Lemma orel_eq_refl {A} (o : outcome A) : orel eq o o.
Proof. destruct o; constructor. reflexivity. Qed.

Definition same_tok (t1 t2 : Token) : Prop :=
  type t1 = type t2 /\ value t1 = value t2.

Definition same_step {A} (x y : A * nat) : Prop := x = y.

Definition same_tok_step (x y : Token * nat) : Prop :=
  same_tok x.1 y.1 /\ x.2 = y.2.

Section Sim.

Variables ts1 ts2 : list Token.
Hypothesis Hsim : map tv ts1 = map tv ts2.

Lemma sim_lookup : forall pos,
  match ts1 !! pos, ts2 !! pos with
  | Some a, Some b => same_tok a b
  | None, None => True
  | _, _ => False
  end.
Proof.
  revert Hsim. generalize ts2. clear.
  induction ts1 as [|a l1 IH]; intros [|b l2] Hsim pos; try discriminate.
  - exact I.
  - cbn [map] in Hsim. injection Hsim as Ht Hv Hl. destruct pos as [|pos].
    + cbn. split; assumption.
    + cbn. now apply IH.
Qed.

Lemma sim_last :
  match last ts1, last ts2 with
  | Some a, Some b => same_tok a b
  | None, None => True
  | _, _ => False
  end.
Proof.
  revert Hsim. generalize ts2. clear.
  induction ts1 as [|a l1 IH]; intros [|b l2] Hsim; try discriminate.
  - exact I.
  - cbn [map] in Hsim. injection Hsim as Ht Hv Hl.
    specialize (IH l2 Hl).
    destruct l1 as [|a' l1], l2 as [|b' l2]; try discriminate.
    + cbn. split; assumption.
    + exact IH.
Qed.

Lemma sim_current pos : orel same_tok (current ts1 pos) (current ts2 pos).
Proof.
  unfold current. pose proof (sim_lookup pos) as H.
  destruct (ts1 !! pos), (ts2 !! pos); try contradiction.
  - now constructor.
  - pose proof sim_last as HL.
    destruct (last ts1), (last ts2); try contradiction; now constructor.
Qed.

Lemma sim_advance_tok pos :
  orel same_tok_step (advance_tok ts1 pos) (advance_tok ts2 pos).
Proof.
  unfold advance_tok. eapply orel_bind; [apply sim_current|].
  intros a b H. constructor. split; [exact H|reflexivity].
Qed.

Lemma sim_expect ty pos :
  orel same_tok_step (expect ts1 ty pos) (expect ts2 ty pos).
Proof.
  unfold expect. eapply orel_bind; [apply sim_current|].
  intros a b [Ht Hv]. rewrite Ht.
  case_decide; [apply sim_advance_tok|constructor].
Qed.

Lemma sim_parse_value_list_loop fuel : forall values pos,
  orel eq (parse_value_list_loop ts1 fuel values pos)
          (parse_value_list_loop ts2 fuel values pos).
Proof.
  induction fuel as [|fuel IH]; intros values pos; [constructor|].
  rewrite !parse_value_list_loop_S.
  eapply orel_bind; [apply sim_current|].
  intros a b [Ht Hv]. rewrite Ht, Hv.
  case_decide; [now constructor|].
  destruct (is_value_type (type b)); [|now constructor].
  eapply orel_bind; [apply sim_advance_tok|].
  intros [t1 p1] [t2 p2] [_ Hp]. cbn in Hp. subst p2. apply IH.
Qed.

Lemma sim_parse_value_list fuel pos :
  orel eq (parse_value_list ts1 fuel pos) (parse_value_list ts2 fuel pos).
Proof.
  unfold parse_value_list.
  eapply orel_bind; [apply sim_expect|].
  intros [t1 p1] [t2 p2] [_ Hp]. cbn in Hp. subst p2.
  eapply orel_bind; [apply sim_parse_value_list_loop|].
  intros [v1 q1] [v2 q2] [= -> ->].
  eapply orel_bind; [apply sim_expect|].
  intros [u1 r1] [u2 r2] [_ Hr]. cbn in Hr. subst r2.
  now constructor.
Qed.

Lemma sim_parse_single_value fuel pos :
  orel eq (parse_single_value ts1 fuel pos) (parse_single_value ts2 fuel pos).
Proof.
  unfold parse_single_value.
  eapply orel_bind; [apply sim_parse_value_list|].
  intros [v1 q1] [v2 q2] [= -> ->]. apply orel_eq_refl.
Qed.

Lemma sim_parse_segment fuel :
  (forall name pos,
      orel eq (parse_segment ts1 fuel name pos)
              (parse_segment ts2 fuel name pos))
  /\ (forall seg pos,
        orel eq (parse_segment_loop ts1 fuel seg pos)
                (parse_segment_loop ts2 fuel seg pos)).
Proof.
  induction fuel as [|fuel [IHs IHl]]; [split; intros; constructor|].
  split.
  - intros name pos. rewrite !parse_segment_S.
    eapply orel_bind; [apply sim_expect|].
    intros [t1 p1] [t2 p2] [_ Hp]. cbn in Hp. subst p2.
    eapply orel_bind; [apply IHl|].
    intros [s1 q1] [s2 q2] [= -> ->].
    eapply orel_bind; [apply sim_expect|].
    intros [u1 r1] [u2 r2] [_ Hr]. cbn in Hr. subst r2.
    now constructor.
  - intros seg pos. rewrite !parse_segment_loop_S.
    eapply orel_bind; [apply sim_current|].
    intros a b [Ht Hv]. rewrite Ht.
    case_decide; [now constructor|].
    case_decide.
    + eapply orel_bind; [apply sim_advance_tok|].
      intros [t1 p1] [t2 p2] [[_ Hv'] Hp]. cbn in Hp, Hv'. subst p2.
      cbv zeta. cbn [fst]. rewrite Hv'.
      case_decide; [apply IHl|].
      eapply orel_bind; [apply sim_current|].
      intros n1 n2 [Hnt _]. rewrite Hnt.
      case_decide; [|apply IHl].
      case_decide.
      * eapply orel_bind; [apply IHs|].
        intros [s1 q1] [s2 q2] [= -> ->]. apply IHl.
      * eapply orel_bind; [apply sim_parse_single_value|].
        intros [v1 q1] [v2 q2] [= -> ->]. apply IHl.
    + case_decide; [now constructor|].
      eapply orel_bind; [apply sim_advance_tok|].
      intros [t1 p1] [t2 p2] [_ Hp]. cbn in Hp. subst p2. apply IHl.
Qed.

Lemma sim_parse_keywords fuel : forall cmd pos,
  orel eq (parse_keywords ts1 fuel cmd pos) (parse_keywords ts2 fuel cmd pos).
Proof.
  induction fuel as [|fuel IH]; intros cmd pos; [constructor|].
  rewrite !parse_keywords_S.
  eapply orel_bind; [apply sim_current|].
  intros a b [Ht Hv]. rewrite Ht.
  case_decide; [now constructor|].
  case_decide.
  - eapply orel_bind; [apply sim_advance_tok|].
    intros [t1 p1] [t2 p2] [[_ Hv'] Hp]. cbn in Hp, Hv'. subst p2.
    cbv zeta. cbn [fst]. rewrite Hv'.
    case_decide; [apply IH|].
    case_decide.
    + eapply orel_bind; [apply sim_parse_segment|].
      intros [s1 q1] [s2 q2] [= -> ->]. apply IH.
    + eapply orel_bind; [apply sim_current|].
      intros n1 n2 [Hnt _]. rewrite Hnt.
      case_decide; [|apply IH].
      eapply orel_bind; [apply sim_parse_single_value|].
      intros [v1 q1] [v2 q2] [= -> ->]. apply IH.
  - eapply orel_bind; [apply sim_advance_tok|].
    intros [t1 p1] [t2 p2] [_ Hp]. cbn in Hp. subst p2. apply IH.
Qed.

Lemma sim_parse fuel : orel eq (parse ts1 fuel) (parse ts2 fuel).
Proof.
  unfold parse. eapply orel_bind; [apply sim_current|].
  intros a b [Ht _]. rewrite Ht.
  case_decide; [|constructor].
  eapply orel_bind; [apply sim_advance_tok|].
  intros [t1 p1] [t2 p2] [_ Hp]. cbn in Hp. subst p2.
  eapply orel_bind; [apply sim_parse_value_list|].
  intros [v1 q1] [v2 q2] [= -> ->]. apply sim_parse_keywords.
Qed.

End Sim.

(** Token lists with the same stream of types and values parse alike. *)
Lemma Parser_parse_stream toks1 toks2 :
  token_stream toks1 = token_stream toks2 ->
  orel eq (Parser_parse toks1) (Parser_parse toks2).
Proof.
  unfold token_stream, Parser_parse. intros H.
  assert (length (Parser_init toks1) = length (Parser_init toks2)) as ->.
  { apply (f_equal (@length _)) in H. now rewrite !length_map in H. }
  now apply sim_parse.
Qed.

End ParserPositions.

(** *** The parser returns on what the lexer produces *)

Module ParserTermination.
Import AdduserParser ExampleLexerFacts ParserFacts.

(** An outcome that is a result or an exception, with the position (if any)
    between [pos] and [n]. *)
Definition returns {A} (n pos : nat) (o : outcome (A * nat)) : Prop :=
  match o with
  | Done (_, pos') => pos <= pos' <= n
  | Raise _ => True
  | Timeout => False
  end.

Lemma returns_weaken {A} n pos pos' (o : outcome (A * nat)) :
  pos <= pos' -> returns n pos' o -> returns n pos o.
Proof. destruct o as [[a p]| |]; cbn; lia. Qed.

Section Terminated.

Variables (body : list Token) (eof : Token).
Hypothesis Heof : type eof = EOF.
Hypothesis Hbody : Forall (fun t => type t <> EOF) body.

Let tokens : list Token := (body ++ [eof])%list.
Let n : nat := length body.

Lemma current_within pos :
  pos <= n ->
  exists t, current tokens pos = Done t /\ (type t = EOF <-> pos = n).
Proof.
  intros Hpos. unfold current, tokens.
  destruct (decide (pos = n)) as [->|Hne].
  - exists eof. split; [|tauto].
    unfold n. rewrite lookup_app_r by lia. now rewrite Nat.sub_diag.
  - assert (pos < n) as Hlt by lia.
    destruct (lookup_lt_is_Some_2 body pos Hlt) as [t Ht].
    exists t. rewrite lookup_app_l by exact Hlt. rewrite Ht.
    split; [reflexivity|]. split; [|contradiction].
    intros Hty. rewrite Forall_forall in Hbody.
    exfalso. eapply Hbody; [|exact Hty]. eapply list_elem_of_lookup_2; eauto.
Qed.

Lemma advance_tok_within pos t :
  current tokens pos = Done t -> advance_tok tokens pos = Done (t, S pos).
Proof. unfold advance_tok. now intros ->. Qed.

Lemma expect_returns ty pos :
  ty <> EOF -> pos <= n ->
  match expect tokens ty pos with
  | Done (_, pos') => pos' = S pos /\ pos < n
  | Raise _ => True
  | Timeout => False
  end.
Proof.
  intros Hty Hpos. unfold expect.
  destruct (current_within pos Hpos) as (t & Ht & Hn).
  rewrite Ht. cbn [mbind outcome_bind].
  case_decide as Hd; [|exact I].
  rewrite (advance_tok_within _ _ Ht).
  split; [reflexivity|].
  destruct (decide (pos = n)) as [Heq|Hne]; [|lia].
  apply Hn in Heq. congruence.
Qed.

Lemma value_list_loop_returns fuel : forall values pos,
  pos <= n -> n - pos < fuel ->
  returns n pos (parse_value_list_loop tokens fuel values pos).
Proof.
  induction fuel as [|fuel IH]; intros values pos Hpos Hf; [lia|].
  rewrite parse_value_list_loop_S.
  destruct (current_within pos Hpos) as (t & Ht & Hn).
  rewrite Ht. cbn [mbind outcome_bind].
  case_decide; [cbn; lia|].
  destruct (is_value_type (type t)) eqn:Hv; [|cbn; lia].
  assert (pos < n) as Hlt.
  { destruct (decide (pos = n)) as [Heq|Hne]; [|lia].
    apply Hn in Heq. rewrite Heq in Hv. discriminate. }
  rewrite (advance_tok_within _ _ Ht). cbn [mbind outcome_bind].
  eapply returns_weaken; [|apply IH]; lia.
Qed.

Lemma value_list_returns fuel pos :
  pos <= n -> n - pos < fuel ->
  returns n pos (parse_value_list tokens fuel pos).
Proof.
  intros Hpos Hf. unfold parse_value_list.
  pose proof (expect_returns LPAREN pos ltac:(discriminate) Hpos) as He.
  destruct (expect tokens LPAREN pos) as [[t1 p1]| |];
    [|exact I|contradiction].
  destruct He as [-> Hlt]. cbn [mbind outcome_bind].
  pose proof (value_list_loop_returns fuel [] (S pos) ltac:(lia) ltac:(lia))
    as Hl.
  destruct (parse_value_list_loop tokens fuel [] (S pos)) as [[vs p2]| |];
    [|exact I|contradiction].
  cbn in Hl. cbn [mbind outcome_bind].
  pose proof (expect_returns RPAREN p2 ltac:(discriminate) ltac:(lia)) as Hr.
  destruct (expect tokens RPAREN p2) as [[t3 p3]| |];
    [|exact I|contradiction].
  destruct Hr as [-> Hlt2]. cbn. lia.
Qed.

Lemma single_value_returns fuel pos :
  pos <= n -> n - pos < fuel ->
  returns n pos (parse_single_value tokens fuel pos).
Proof.
  intros Hpos Hf. unfold parse_single_value.
  pose proof (value_list_returns fuel pos Hpos Hf) as H.
  destruct (parse_value_list tokens fuel pos) as [[vs p]| |];
    [|exact I|contradiction].
  cbn [mbind outcome_bind]. destruct vs as [|v [|w vs]]; exact H.
Qed.

Lemma segment_returns fuel :
  (forall name pos,
      pos <= n -> n - pos < fuel ->
      returns n pos (parse_segment tokens fuel name pos))
  /\ (forall seg pos,
        pos <= n -> n - pos < fuel ->
        returns n pos (parse_segment_loop tokens fuel seg pos)).
Proof.
  induction fuel as [|fuel [IHs IHl]]; [split; intros; lia|].
  split.
  - intros name pos Hpos Hf. rewrite parse_segment_S.
    pose proof (expect_returns LPAREN pos ltac:(discriminate) Hpos) as He.
    destruct (expect tokens LPAREN pos) as [[t1 p1]| |];
      [|exact I|contradiction].
    destruct He as [-> Hlt]. cbn [mbind outcome_bind].
    pose proof (IHl (mkSegment name ∅) (S pos) ltac:(lia) ltac:(lia)) as Hl.
    destruct (parse_segment_loop tokens fuel _ (S pos)) as [[sg p2]| |];
      [|exact I|contradiction].
    cbn in Hl. cbn [mbind outcome_bind].
    pose proof (expect_returns RPAREN p2 ltac:(discriminate) ltac:(lia)) as Hr.
    destruct (expect tokens RPAREN p2) as [[t3 p3]| |];
      [|exact I|contradiction].
    destruct Hr as [-> Hlt2]. cbn. lia.
  - intros seg pos Hpos Hf. rewrite parse_segment_loop_S.
    destruct (current_within pos Hpos) as (t & Ht & Hn).
    rewrite Ht. cbn [mbind outcome_bind].
    case_decide as Hrp; [cbn; lia|].
    assert (type t <> EOF -> pos < n) as Hlt.
    { intros Hne. destruct (decide (pos = n)) as [Heq|]; [|lia].
      apply Hn in Heq. contradiction. }
    case_decide as Hkw.
    + specialize (Hlt ltac:(congruence)).
      rewrite (advance_tok_within _ _ Ht). cbn [mbind outcome_bind].
      cbv zeta. case_decide.
      { eapply returns_weaken; [|apply IHl]; lia. }
      destruct (current_within (S pos) ltac:(lia)) as (nx & Hnx & _).
      rewrite Hnx. cbn [mbind outcome_bind].
      case_decide; [|eapply returns_weaken; [|apply IHl]; lia].
      case_decide.
      * pose proof (IHs (value t) (S pos) ltac:(lia) ltac:(lia)) as Hs.
        destruct (parse_segment tokens fuel (value t) (S pos))
          as [[inner p2]| |]; [|exact I|contradiction].
        cbn in Hs. cbn [mbind outcome_bind].
        eapply returns_weaken; [|apply IHl]; lia.
      * pose proof (single_value_returns fuel (S pos) ltac:(lia) ltac:(lia))
          as Hs.
        destruct (parse_single_value tokens fuel (S pos))
          as [[v p2]| |]; [|exact I|contradiction].
        cbn in Hs. cbn [mbind outcome_bind].
        eapply returns_weaken; [|apply IHl]; lia.
    + case_decide as He; [cbn; lia|].
      specialize (Hlt He).
      rewrite (advance_tok_within _ _ Ht). cbn [mbind outcome_bind].
      eapply returns_weaken; [|apply IHl]; lia.
Qed.

Lemma keywords_returns fuel : forall cmd pos,
  pos <= n -> n - pos < fuel ->
  parse_keywords tokens fuel cmd pos <> Timeout.
Proof.
  induction fuel as [|fuel IH]; intros cmd pos Hpos Hf; [lia|].
  rewrite parse_keywords_S.
  destruct (current_within pos Hpos) as (t & Ht & Hn).
  rewrite Ht. cbn [mbind outcome_bind].
  case_decide as He; [discriminate|].
  assert (pos < n) as Hlt.
  { destruct (decide (pos = n)) as [Heq|]; [|lia].
    apply Hn in Heq. contradiction. }
  rewrite (advance_tok_within _ _ Ht).
  case_decide as Hkw.
  - cbn [mbind outcome_bind]. cbv zeta. case_decide.
    { apply IH; lia. }
    case_decide.
    + pose proof (proj1 (segment_returns fuel) (value t) (S pos)
                    ltac:(lia) ltac:(lia)) as Hs.
      destruct (parse_segment tokens fuel (value t) (S pos))
        as [[sg p2]| |]; [|discriminate|contradiction].
      cbn in Hs. cbn [mbind outcome_bind]. apply IH; lia.
    + destruct (current_within (S pos) ltac:(lia)) as (nx & Hnx & _).
      rewrite Hnx. cbn [mbind outcome_bind].
      case_decide; [|apply IH; lia].
      pose proof (single_value_returns fuel (S pos) ltac:(lia) ltac:(lia))
        as Hs.
      destruct (parse_single_value tokens fuel (S pos))
        as [[v p2]| |]; [|discriminate|contradiction].
      cbn in Hs. cbn [mbind outcome_bind]. apply IH; lia.
  - cbn [mbind outcome_bind]. apply IH; lia.
Qed.

Lemma parse_returns fuel : n < fuel -> parse tokens fuel <> Timeout.
Proof.
  intros Hf. unfold parse.
  destruct (current_within 0 ltac:(lia)) as (t & Ht & Hn).
  rewrite Ht. cbn [mbind outcome_bind].
  case_decide as Hc; [|discriminate].
  rewrite (advance_tok_within _ _ Ht). cbn [mbind outcome_bind].
  assert (0 < n) as Hlt.
  { destruct (decide (0 = n)) as [Heq|]; [|lia].
    apply Hn in Heq. congruence. }
  pose proof (value_list_returns fuel 1 ltac:(lia) ltac:(lia)) as Hv.
  destruct (parse_value_list tokens fuel 1) as [[ids p2]| |];
    [|discriminate|contradiction].
  cbn in Hv. cbn [mbind outcome_bind]. apply keywords_returns; lia.
Qed.

End Terminated.

Lemma Parser_init_eof_terminated toks :
  eof_terminated toks -> eof_terminated (Parser_init toks).
Proof.
  intros (body & eof & -> & Heof & Hbody).
  exists (Parser_init body), eof. unfold Parser_init.
  rewrite List.filter_app. cbn [List.filter]. rewrite Heof.
  rewrite bool_decide_eq_false_2 by discriminate. cbn [negb].
  split; [reflexivity|]. split; [reflexivity|].
  rewrite Forall_forall in *. intros t Ht.
  apply list_elem_of_In, filter_In in Ht as [Ht _].
  apply Hbody. now apply list_elem_of_In.
Qed.

(** On a token list that ends in its only EOF token, the fuel given by
    [Parser_parse] is enough: the parser returns a command or raises. *)
Lemma Parser_parse_no_timeout toks :
  eof_terminated toks -> Parser_parse toks <> Timeout.
Proof.
  intros H%Parser_init_eof_terminated. unfold Parser_parse.
  destruct H as (body & eof & -> & Heof & Hbody).
  apply parse_returns; auto. rewrite length_app. cbn. lia.
Qed.

Lemma parse_adduser_no_timeout src : parse_adduser src <> Timeout.
Proof.
  unfold parse_adduser.
  destruct (example_tokenize_total src) as (toks & -> & Ht).
  now apply Parser_parse_no_timeout.
Qed.

End ParserTermination.

(** *** Lines joined by continuation markers *)

Module ContinuationFolding.
Import AdduserParser ExampleLexerFacts PositionFree Folding ParserPositions
       ParserTermination.





Definition three_lines : list string :=
  ["ADDUSER (JSMITH) NAME('John Smith') /* new user */ ";
   "  SPECIAL ";
   "  OMVS(UID(1000) HOME('/u/jsmith'))"].



(** The folded text of the witness, parsed. *)
Example three_lines_parsed :
  parse_adduser (join_lines CONTINUED_LINE_BREAK three_lines)
  = Done (mkAddUserCommand ["JSMITH"]
            {["NAME" := VStr "John Smith"]}
            {["OMVS" := mkSegment "OMVS"
                {["UID" := VStr "1000"; "HOME" := VStr "/u/jsmith"]}]}
            {["SPECIAL"]}).
Proof. vm_compute. reflexivity. Qed.

End ContinuationFolding.

(** ** The exceptions of the ADDUSER parser *)

Module ParserOutcomes.
Import AdduserParser ExampleLexerFacts ParserFacts ParserTermination.

(** The [SyntaxError] of [expect], as the parser's methods can raise it: a
    parenthesis was expected and another token found. *)
Definition expected_paren (e : exn) : Prop :=
  match e with
  | SyntaxError_expected ty got _ _ => (ty = LPAREN \/ ty = RPAREN) /\ got <> ty
  | SyntaxError_command _ => False
  | IndexError => False
  end.

Definition raises_only {A} (P : exn -> Prop) (o : outcome A) : Prop :=
  match o with
  | Raise e => P e
  | _ => True
  end.

Lemma raises_only_bind {A B} (P : exn -> Prop) (m : outcome A)
    (f : A -> outcome B) :
  raises_only P m -> (forall a, raises_only P (f a)) ->
  raises_only P (m ≫= f).
Proof. destruct m as [a|e|]; cbn; auto. Qed.

Lemma raises_only_impl {A} (P Q : exn -> Prop) (o : outcome A) :
  (forall e, P e -> Q e) -> raises_only P o -> raises_only Q o.
Proof. destruct o; cbn; auto. Qed.

Section NonEmpty.

Variable tokens : list Token.
Hypothesis Hne : tokens <> [].

Lemma current_done pos : exists t, current tokens pos = Done t.
Proof.
  unfold current. destruct (tokens !! pos) as [t|]; [eauto|].
  destruct (last tokens) as [t|] eqn:Hl; [eauto|].
  apply last_None in Hl. contradiction.
Qed.

Lemma current_never_raises pos : raises_only (fun _ => False) (current tokens pos).
Proof. destruct (current_done pos) as [t ->]. exact I. Qed.

Lemma advance_tok_never_raises pos :
  raises_only (fun _ => False) (advance_tok tokens pos).
Proof.
  unfold advance_tok. destruct (current_done pos) as [t ->]. exact I.
Qed.

Lemma expect_raises ty pos :
  ty = LPAREN \/ ty = RPAREN ->
  raises_only expected_paren (expect tokens ty pos).
Proof.
  intros Hty. unfold expect, advance_tok.
  destruct (current_done pos) as [t ->]. cbn [mbind outcome_bind].
  case_decide as Hd; cbn; [exact I|]. split; assumption.
Qed.

Lemma value_list_loop_raises fuel : forall values pos,
  raises_only expected_paren (parse_value_list_loop tokens fuel values pos).
Proof.
  induction fuel as [|fuel IH]; intros values pos; [exact I|].
  rewrite parse_value_list_loop_S.
  destruct (current_done pos) as [t Ht]. rewrite Ht.
  cbn [mbind outcome_bind]. case_decide; [exact I|].
  destruct (is_value_type (type t)); [|exact I].
  unfold advance_tok. rewrite Ht. cbn [mbind outcome_bind]. apply IH.
Qed.

Lemma value_list_raises fuel pos :
  raises_only expected_paren (parse_value_list tokens fuel pos).
Proof.
  unfold parse_value_list.
  apply raises_only_bind; [apply expect_raises; auto|]. intros [t1 p1].
  apply raises_only_bind; [apply value_list_loop_raises|]. intros [vs p2].
  apply raises_only_bind; [apply expect_raises; auto|]. intros [t3 p3].
  exact I.
Qed.

Lemma single_value_raises fuel pos :
  raises_only expected_paren (parse_single_value tokens fuel pos).
Proof.
  unfold parse_single_value.
  apply raises_only_bind; [apply value_list_raises|]. intros [vs p].
  destruct vs as [|v [|w vs]]; exact I.
Qed.

Lemma segment_raises fuel :
  (forall name pos,
      raises_only expected_paren (parse_segment tokens fuel name pos))
  /\ (forall seg pos,
        raises_only expected_paren (parse_segment_loop tokens fuel seg pos)).
Proof.
  induction fuel as [|fuel [IHs IHl]]; [split; intros; exact I|].
  split.
  - intros name pos. rewrite parse_segment_S.
    apply raises_only_bind; [apply expect_raises; auto|]. intros [t1 p1].
    apply raises_only_bind; [apply IHl|]. intros [sg p2].
    apply raises_only_bind; [apply expect_raises; auto|]. intros [t3 p3].
    exact I.
  - intros seg pos. rewrite parse_segment_loop_S.
    destruct (current_done pos) as [t Ht]. rewrite Ht.
    cbn [mbind outcome_bind]. case_decide; [exact I|].
    case_decide.
    + unfold advance_tok. rewrite Ht. cbn [mbind outcome_bind].
      case_decide; [apply IHl|].
      destruct (current_done (S pos)) as [nx ->]. cbn [mbind outcome_bind].
      case_decide; [|apply IHl].
      case_decide.
      * apply raises_only_bind; [apply IHs|]. intros [inner p2]. apply IHl.
      * apply raises_only_bind; [apply single_value_raises|].
        intros [v p2]. apply IHl.
    + case_decide; [exact I|].
      unfold advance_tok. rewrite Ht. cbn [mbind outcome_bind]. apply IHl.
Qed.

Lemma keywords_raises fuel : forall cmd pos,
  raises_only expected_paren (parse_keywords tokens fuel cmd pos).
Proof.
  induction fuel as [|fuel IH]; intros cmd pos; [exact I|].
  rewrite parse_keywords_S.
  destruct (current_done pos) as [t Ht]. rewrite Ht.
  cbn [mbind outcome_bind]. case_decide; [exact I|].
  case_decide.
  - unfold advance_tok. rewrite Ht. cbn [mbind outcome_bind].
    case_decide; [apply IH|].
    case_decide.
    + apply raises_only_bind; [apply segment_raises|]. intros [sg p2].
      apply IH.
    + destruct (current_done (S pos)) as [nx ->]. cbn [mbind outcome_bind].
      case_decide; [|apply IH].
      apply raises_only_bind; [apply single_value_raises|].
      intros [v p2]. apply IH.
  - unfold advance_tok. rewrite Ht. cbn [mbind outcome_bind]. apply IH.
Qed.

Lemma parse_after_command fuel t :
  current tokens 0 = Done t -> type t = COMMAND ->
  raises_only expected_paren (parse tokens fuel).
Proof.
  intros Ht Hty. unfold parse. rewrite Ht. cbn [mbind outcome_bind].
  rewrite decide_True by assumption.
  unfold advance_tok. rewrite Ht. cbn [mbind outcome_bind].
  apply raises_only_bind; [apply value_list_raises|]. intros [ids p2].
  apply keywords_raises.
Qed.

End NonEmpty.

Lemma current_head t rest : current (t :: rest) 0 = Done t.
Proof. reflexivity. Qed.

Lemma parse_by_first_token (toks : list Token) :
  match Parser_init toks with
  | [] => Parser_parse toks = Raise IndexError
  | t :: _ =>
      (type t <> COMMAND ->
       Parser_parse toks = Raise (SyntaxError_command (line t)))
      /\ (type t = COMMAND ->
          raises_only expected_paren (Parser_parse toks))
  end.
Proof.
  unfold Parser_parse. destruct (Parser_init toks) as [|t rest] eqn:E.
  - reflexivity.
  - split; intros Hty.
    + unfold parse. rewrite current_head. cbn [mbind outcome_bind].
      now rewrite decide_False by assumption.
    + apply (parse_after_command (t :: rest) ltac:(discriminate) _ t);
        [apply current_head|assumption].
Qed.

(** X1.  Which of its own exceptions [Parser(tokens).parse()] raises is
    decided by the first token the parser keeps.  With no token left after
    the continuation markers are dropped, [current] raises [IndexError] from
    [tokens[-1]]; with a first token that is not a COMMAND, [parse] raises
    its [SyntaxError] naming that token's line; with a COMMAND first,
    neither of these two is raised, and a [SyntaxError] can only be the one
    of [expect] for a parenthesis that is not there.  (The interpreter's
    [RecursionError] on deeply nested segments is not an exception of the
    parser and is not modelled.) *)
Theorem Parser_parse_first_token (toks : list Token) :
  match Parser_init toks with
  | [] => Parser_parse toks = Raise IndexError
  | t :: _ =>
      (type t <> COMMAND ->
       Parser_parse toks = Raise (SyntaxError_command (line t)))
      /\ (type t = COMMAND ->
          raises_only expected_paren (Parser_parse toks))
  end.
Proof. apply parse_by_first_token. Qed.

(** X2.  [parse_adduser] never raises [IndexError], because the lexer always
    appends an EOF token, and none of its loops runs forever; and whenever
    [expect] raises its [SyntaxError], the token it expected is a parenthesis
    and the token it found is of another type.  (What is left is a command,
    a [SyntaxError], or the interpreter's [RecursionError] on deeply nested
    segments, which is not modelled: the statement says nothing about a
    run that returns a command in the model.) *)
Theorem parse_adduser_outcome (src : string) :
  match parse_adduser src with
  | Done _ => True
  | Raise (SyntaxError_expected ty got _ _) =>
      (ty = LPAREN \/ ty = RPAREN) /\ got <> ty
  | Raise (SyntaxError_command _) => True
  | Raise IndexError => False
  | Timeout => False
  end.
Proof.
  pose proof (parse_adduser_no_timeout src) as Hto.
  unfold parse_adduser in *.
  destruct (example_tokenize_total src) as (toks & Htok & Heof).
  rewrite Htok in *.
  apply Parser_init_eof_terminated in Heof as (body & eof & E & _ & _).
  pose proof (parse_by_first_token toks) as H. rewrite E in H.
  destruct (body ++ [eof])%list as [|t rest] eqn:E2.
  { destruct body; discriminate E2. }
  destruct H as [Hno Hyes].
  destruct (decide (type t = COMMAND)) as [Hc|Hc].
  - specialize (Hyes Hc). destruct (Parser_parse toks) as [cmd|e|];
      [exact I| |contradiction].
    destruct e; cbn in Hyes; tauto.
  - now rewrite (Hno Hc).
Qed.

End ParserOutcomes.

(** ** Value lists and user ids *)

Module ValueLists.
Import AdduserParser ParserFacts.

Definition value_typed (t : Token) : Prop := is_value_type (type t) = true.

Lemma lookup_middle (pre : list Token) t post :
  (pre ++ t :: post)%list !! length pre = Some t.
Proof. rewrite lookup_app_r by lia. now rewrite Nat.sub_diag. Qed.

(** The loop of [parse_value_list] over a run of value tokens that ends at
    the token [t]. *)
Lemma parse_value_list_loop_run vals : forall pre acc t post fuel,
  Forall value_typed vals -> is_value_type (type t) = false ->
  parse_value_list_loop (pre ++ vals ++ t :: post)%list fuel acc (length pre)
  = if decide (length vals < fuel)
    then Done ((acc ++ map value vals)%list, length pre + length vals)
    else Timeout.
Proof.
  induction vals as [|v vals IH]; intros pre acc t post fuel Hvals Ht.
  - cbn [app length map]. destruct fuel as [|fuel].
    + now rewrite decide_False by lia.
    + rewrite decide_True by lia. rewrite parse_value_list_loop_S.
      rewrite (current_lookup _ _ _ (lookup_middle pre t post)).
      cbn [mbind outcome_bind]. rewrite app_nil_r, Nat.add_0_r.
      case_decide; [reflexivity|]. now rewrite Ht.
  - apply Forall_cons_1 in Hvals as [Hv Hvals]. unfold value_typed in Hv.
    destruct fuel as [|fuel].
    + now rewrite decide_False by (cbn; lia).
    + rewrite parse_value_list_loop_S.
      pose proof (lookup_middle pre v (vals ++ t :: post)) as Hl.
      cbn [app] in *.
      rewrite (current_lookup _ _ _ Hl). cbn [mbind outcome_bind].
      rewrite decide_False by (intros E; rewrite E in Hv; discriminate).
      rewrite Hv. rewrite (advance_tok_lookup _ _ _ Hl).
      cbn [mbind outcome_bind].
      specialize (IH (pre ++ [v])%list (acc ++ [value v])%list t post fuel
                     Hvals Ht).
      rewrite <- !app_assoc in IH. cbn [app] in IH.
      rewrite length_app in IH. cbn [length] in IH.
      replace (length pre + 1) with (S (length pre)) in IH by lia.
      rewrite IH. cbn [length map].
      destruct (decide (length vals < fuel));
        [rewrite decide_True by lia | rewrite decide_False by lia];
        [|reflexivity].
      do 2 f_equal. lia.
Qed.

Lemma expect_at pre t post ty :
  expect (pre ++ t :: post)%list ty (length pre)
  = if decide (type t = ty) then Done (t, S (length pre))
    else Raise (SyntaxError_expected ty (type t) (line t) (column t)).
Proof.
  unfold expect. rewrite (current_lookup _ _ _ (lookup_middle pre t post)).
  cbn [mbind outcome_bind]. case_decide; [|reflexivity].
  now rewrite (advance_tok_lookup _ _ _ (lookup_middle pre t post)).
Qed.

(** X3.  [parse_value_list] on an opening parenthesis followed by a run of
    value tokens (identifiers, strings, numbers, keywords) returns the values
    of the run, in order, when the token after the run is the closing
    parenthesis, and otherwise raises the [SyntaxError] of [expect] at that
    token.  An empty run is accepted: [()] is the empty list.
    [parse_single_value] unwraps a list of exactly one value and returns the
    list in every other case. *)
Theorem parse_value_list_spec (pre : list Token) lp vals t post fuel :
  type lp = LPAREN -> Forall value_typed vals ->
  is_value_type (type t) = false -> length vals < fuel ->
  let tokens := (pre ++ lp :: vals ++ t :: post)%list in
  let after := length pre + length vals + 2 in
  parse_value_list tokens fuel (length pre)
  = (if decide (type t = RPAREN) then Done (map value vals, after)
     else Raise (SyntaxError_expected RPAREN (type t) (line t) (column t)))
  /\ parse_single_value tokens fuel (length pre)
     = (if decide (type t = RPAREN) then
          match vals with
          | [v] => Done (VStr (value v), after)
          | _ => Done (VList (map value vals), after)
          end
        else Raise (SyntaxError_expected RPAREN (type t) (line t) (column t))).
Proof.
  intros Hlp Hvals Ht Hfuel tokens after.
  assert (parse_value_list tokens fuel (length pre)
          = if decide (type t = RPAREN) then Done (map value vals, after)
            else Raise (SyntaxError_expected RPAREN (type t) (line t)
                                             (column t))) as Hlist.
  { unfold parse_value_list, tokens. rewrite expect_at.
    rewrite decide_True by assumption. cbn [mbind outcome_bind].
    pose proof (parse_value_list_loop_run vals (pre ++ [lp])%list [] t post
                  fuel Hvals Ht) as Hloop.
    rewrite <- !app_assoc in Hloop. cbn [app] in Hloop.
    rewrite length_app in Hloop. cbn [length] in Hloop.
    replace (length pre + 1) with (S (length pre)) in Hloop by lia.
    rewrite Hloop. rewrite decide_True by assumption.
    cbn [mbind outcome_bind app].
    pose proof (expect_at (pre ++ lp :: vals)%list t post RPAREN) as He.
    rewrite <- !app_assoc in He. cbn [app] in He.
    rewrite length_app in He. cbn [length] in He.
    replace (length pre + S (length vals))
      with (S (length pre) + length vals) in He by lia.
    rewrite He. case_decide; [|reflexivity].
    cbn [mbind outcome_bind]. unfold after. do 2 f_equal. lia. }
  split; [exact Hlist|].
  unfold parse_single_value. rewrite Hlist.
  case_decide; [|reflexivity]. cbn [mbind outcome_bind].
  destruct vals as [|v [|w vals]]; reflexivity.
Qed.

Lemma parse_value_list_spec_witness :
  let lp := mkToken LPAREN "(" 1 9 in
  let u := mkToken IDENTIFIER "JSMITH" 1 10 in
  let rp := mkToken RPAREN ")" 1 16 in
  let au := mkToken COMMAND "ADDUSER" 1 1 in
  let eof := mkToken EOF EmptyString 1 17 in
  parse_value_list [au; lp; u; rp; eof] 2 1 = Done (["JSMITH"], 4)
  /\ parse_single_value [au; lp; u; rp; eof] 2 1 = Done (VStr "JSMITH", 4).
Proof.
  intros lp u rp au eof.
  apply (parse_value_list_spec [au] lp [u] rp [eof] 2);
    [reflexivity | repeat constructor | reflexivity | cbn; lia].
Defined.

Ltac bind_case H :=
  match type of H with
  | context [mbind _ ?m] =>
      let E := fresh "E" in
      destruct m as [?| |] eqn:E; cbn [mbind outcome_bind] in H;
      try discriminate H
  end.

Lemma parse_keywords_userids tokens fuel : forall cmd pos cmd',
  parse_keywords tokens fuel cmd pos = Done cmd' -> userids cmd' = userids cmd.
Proof.
  induction fuel as [|fuel IH]; intros cmd pos cmd' H; [discriminate|].
  rewrite parse_keywords_S in H. bind_case H.
  case_decide; [now injection H as <-|].
  case_decide.
  - bind_case H. destruct a0 as [tk p1].
    case_decide; [now apply IH in H|].
    case_decide.
    + bind_case H. destruct a0 as [sg p2]. now apply IH in H.
    + bind_case H. case_decide; [|now apply IH in H].
      bind_case H. destruct a1 as [v p2]. now apply IH in H.
  - bind_case H. destruct a0 as [tk p1]. now apply IH in H.
Qed.

(** X4.  The user ids of a parsed command are the values of the parenthesised
    list that follows the command word, in order; nothing that comes later
    changes them.  The list may be empty, and a keyword inside it is taken
    as a user id like any other value token. *)
Theorem parse_userids c lp vals rp post fuel cmd :
  type c = COMMAND -> type lp = LPAREN -> Forall value_typed vals ->
  type rp = RPAREN ->
  parse (c :: lp :: vals ++ rp :: post)%list fuel = Done cmd ->
  userids cmd = map value vals.
Proof.
  intros Hc Hlp Hvals Hrp H. unfold parse in H.
  cbn [current lookup list_lookup mbind outcome_bind] in H.
  change ((c :: lp :: vals ++ rp :: post)%list !! 0%nat) with (Some c) in H.
  cbn [mbind outcome_bind] in H. rewrite decide_True in H by assumption.
  unfold advance_tok in H.
  cbn [current lookup list_lookup mbind outcome_bind] in H.
  change ((c :: lp :: vals ++ rp :: post)%list !! 0%nat) with (Some c) in H.
  cbn [mbind outcome_bind] in H.
  destruct (decide (length vals < fuel)) as [Hf|Hf].
  - assert (is_value_type (type rp) = false) as Hrp' by now rewrite Hrp.
    destruct (parse_value_list_spec [c] lp vals rp post fuel Hlp Hvals
                Hrp' Hf) as [Hl _].
    cbn [app length] in Hl. rewrite Hl in H.
    rewrite decide_True in H by assumption. cbn [mbind outcome_bind] in H.
    now apply parse_keywords_userids in H.
  - exfalso. unfold parse_value_list in H.
    pose proof (expect_at [c] lp (vals ++ rp :: post)%list LPAREN) as He.
    cbn [app length] in He. rewrite He in H.
    rewrite decide_True in H by assumption. cbn [mbind outcome_bind] in H.
    assert (is_value_type (type rp) = false) as Hrp' by now rewrite Hrp.
    pose proof (parse_value_list_loop_run vals [c; lp] [] rp post fuel
                  Hvals Hrp') as Hloop.
    cbn [app length] in Hloop. rewrite Hloop in H.
    rewrite decide_False in H by assumption. discriminate H.
Qed.

Lemma parse_userids_witness :
  let au := mkToken COMMAND "ADDUSER" 1 1 in
  let lp := mkToken LPAREN "(" 1 9 in
  let u1 := mkToken IDENTIFIER "USER1" 1 10 in
  let u2 := mkToken KEYWORD "SPECIAL" 1 16 in
  let rp := mkToken RPAREN ")" 1 23 in
  let eof := mkToken EOF EmptyString 1 24 in
  parse [au; lp; u1; u2; rp; eof] 7
  = Done (mkAddUserCommand ["USER1"; "SPECIAL"] ∅ ∅ ∅)
  /\ userids (mkAddUserCommand ["USER1"; "SPECIAL"] ∅ ∅ ∅)
     = ["USER1"; "SPECIAL"].
Proof.
  intros au lp u1 u2 rp eof.
  assert (parse [au; lp; u1; u2; rp; eof] 7
          = Done (mkAddUserCommand ["USER1"; "SPECIAL"] ∅ ∅ ∅)) as H
    by (vm_compute; reflexivity).
  split; [exact H|].
  apply (parse_userids au lp [u1; u2] rp [eof] 7 _ eq_refl eq_refl);
    [repeat constructor | reflexivity | exact H].
Defined.

End ValueLists.

(** ** What a parsed command can contain *)

Module AstShape.
Import AdduserParser ParserFacts NestedSegments ParserPositions.

Ltac bind_case H :=
  match type of H with
  | context [mbind _ ?m] =>
      let E := fresh "E" in
      destruct m as [?| |] eqn:E; cbn [mbind outcome_bind] in H;
      try discriminate H
  end.

(** Every entry of a segment's keyword dictionary is well formed. *)
Definition wf_entries (seg : Segment) : Prop :=
  forall k v, seg_keywords seg !! k = Some v -> wf_value k v.

Lemma wf_entries_empty name : wf_entries (mkSegment name ∅).
Proof. intros k v H. cbn in H. now rewrite lookup_empty in H. Qed.

Lemma wf_entries_set kw v seg :
  wf_value kw v -> wf_entries seg -> wf_entries (set_keyword kw v seg).
Proof.
  intros Hv Hseg k w. unfold set_keyword. cbn [seg_keywords].
  destruct (decide (kw = k)) as [->|Hne].
  - rewrite lookup_insert_eq. now intros [= <-].
  - rewrite lookup_insert_ne by assumption. apply Hseg.
Qed.

Lemma wf_segment_value k seg :
  k ∉ FLAG_KEYWORDS -> k ∈ SEGMENT_NAMES -> seg_name seg = k ->
  wf_entries seg -> wf_value k (VSegment seg).
Proof.
  destruct seg as [n kws]. cbn [seg_name]. intros Hf Hs -> Hw.
  now apply wf_nested.
Qed.

Section Shape.

Variable tokens : list Token.

Lemma single_value_shape fuel pos v pos' k :
  k ∉ FLAG_KEYWORDS -> k ∉ SEGMENT_NAMES ->
  parse_single_value tokens fuel pos = Done (v, pos') -> wf_value k v.
Proof.
  intros Hf Hs H. unfold parse_single_value in H. bind_case H.
  destruct a as [vs p]. destruct vs as [|x [|y vs]]; injection H as <- _.
  - now apply wf_list.
  - now apply wf_str.
  - apply wf_list; [assumption..|]. cbn. lia.
Qed.

Lemma segment_shape fuel :
  (forall name pos seg pos',
      parse_segment tokens fuel name pos = Done (seg, pos') ->
      seg_name seg = name /\ wf_entries seg)
  /\ (forall seg pos seg' pos',
        parse_segment_loop tokens fuel seg pos = Done (seg', pos') ->
        wf_entries seg -> seg_name seg' = seg_name seg /\ wf_entries seg').
Proof.
  induction fuel as [|fuel [IHs IHl]]; [split; intros; discriminate|].
  split.
  - intros name pos seg pos' H. rewrite parse_segment_S in H.
    bind_case H. destruct a as [t1 p1].
    bind_case H. destruct a as [sg p2].
    bind_case H. destruct a as [t3 p3]. injection H as <- _.
    apply IHl in E0 as [Hn Hw]; [|apply wf_entries_empty].
    split; assumption.
  - intros seg pos seg' pos' H Hw. rewrite parse_segment_loop_S in H.
    bind_case H. case_decide; [now injection H as <- _|].
    case_decide.
    + bind_case H. destruct a0 as [tk p1]. cbn zeta in H.
      case_decide as Hflag.
      * apply IHl in H as [Hn Hw'];
          [|apply wf_entries_set; [now apply wf_flag|assumption]].
        split; assumption.
      * bind_case H. case_decide; [|now apply IHl in H].
        case_decide as Hseg.
        -- bind_case H. destruct a1 as [inner p2].
           apply IHs in E2 as [Hin Hwin].
           apply IHl in H as [Hn Hw'];
             [|apply wf_entries_set;
               [now apply wf_segment_value|assumption]].
           split; assumption.
        -- bind_case H. destruct a1 as [v p2].
           apply (single_value_shape _ _ _ _ (value tk) Hflag Hseg) in E2.
           apply IHl in H as [Hn Hw'];
             [|now apply wf_entries_set].
           split; assumption.
    + case_decide; [now injection H as <- _|].
      bind_case H. destruct a0 as [tk p1]. now apply IHl in H.
Qed.

Lemma wf_command_add_flag kw cmd :
  kw ∈ FLAG_KEYWORDS -> wf_command cmd -> wf_command (add_flag kw cmd).
Proof.
  intros Hkw [Hf Hs Hk]. split; cbn; [|assumption..].
  intros k [->%elem_of_singleton|H]%elem_of_union; auto.
Qed.

Lemma wf_command_add_segment kw seg cmd :
  wf_value kw (VSegment seg) -> wf_command cmd ->
  wf_command (add_segment kw seg cmd).
Proof.
  intros Hseg [Hf Hs Hk]. split; cbn; [assumption| |assumption].
  intros k sg. destruct (decide (kw = k)) as [->|Hne].
  - rewrite lookup_insert_eq. now intros [= <-].
  - rewrite lookup_insert_ne by assumption. apply Hs.
Qed.

Lemma wf_command_add_keyword kw v cmd :
  wf_value kw v -> kw ∉ FLAG_KEYWORDS -> kw ∉ SEGMENT_NAMES ->
  wf_command cmd -> wf_command (add_keyword kw v cmd).
Proof.
  intros Hv Hflag Hseg [Hf Hs Hk]. split; cbn; [assumption..|].
  intros k w. destruct (decide (kw = k)) as [->|Hne].
  - rewrite lookup_insert_eq. intros [= <-]. auto.
  - rewrite lookup_insert_ne by assumption. apply Hk.
Qed.

Lemma keywords_shape fuel : forall cmd pos cmd',
  parse_keywords tokens fuel cmd pos = Done cmd' ->
  wf_command cmd -> wf_command cmd'.
Proof.
  induction fuel as [|fuel IH]; intros cmd pos cmd' H Hw; [discriminate|].
  rewrite parse_keywords_S in H. bind_case H.
  case_decide; [now injection H as <-|].
  case_decide.
  - bind_case H. destruct a0 as [tk p1]. cbn zeta in H.
    case_decide as Hflag.
    { eapply IH; [exact H|]. now apply wf_command_add_flag. }
    case_decide as Hseg.
    + bind_case H. destruct a0 as [sg p2].
      apply (proj1 (segment_shape fuel)) in E1 as [Hn Hwe].
      eapply IH; [exact H|]. apply wf_command_add_segment; [|assumption].
      now apply wf_segment_value.
    + bind_case H. case_decide; [|now eapply IH; eauto].
      bind_case H. destruct a1 as [v p2].
      apply (single_value_shape _ _ _ _ (value tk) Hflag Hseg) in E2.
      eapply IH; [exact H|]. now apply wf_command_add_keyword.
  - bind_case H. destruct a0 as [tk p1]. eapply IH; eauto.
Qed.

Lemma parse_shape fuel cmd : parse tokens fuel = Done cmd -> wf_command cmd.
Proof.
  unfold parse. intros H. bind_case H.
  case_decide; [|discriminate].
  bind_case H. destruct a0 as [tk p1].
  bind_case H. destruct a0 as [ids p2].
  eapply keywords_shape; [exact H|].
  split; cbn.
  - intros k Hk. now apply elem_of_empty in Hk.
  - intros k seg Hk. now rewrite lookup_empty in Hk.
  - intros k v Hk. now rewrite lookup_empty in Hk.
Qed.

End Shape.

(** X5.  Every command [parse_adduser] returns keeps its three containers
    apart.  [flags] holds flag keywords only.  [segments] holds, under a
    segment name, a segment of that very name.  [keywords] holds, under a
    key that is neither a flag keyword nor a segment name, a string or a list
    of strings whose length is not one.  Inside a segment, at any depth, a key
    maps to [True] exactly when it is a flag keyword, to a nested segment of
    its own name when it is a segment name, and to a string or a list
    otherwise. *)
Theorem parsed_command_shape (src : string) (cmd : AddUserCommand) :
  parse_adduser src = Done cmd -> wf_command cmd.
Proof.
  unfold parse_adduser, Parser_parse.
  destruct (tokenize src) as [toks|]; [|discriminate].
  apply parse_shape.
Qed.

Lemma parsed_command_shape_witness :
  let src := "AU (U1) KERB(ENCRYPT(DES) KERBNAME(K)) SPECIAL CLAUTH(A B)" in
  let cmd :=
    mkAddUserCommand ["U1"] {["CLAUTH" := VList ["A"; "B"]]}
      {["KERB" := mkSegment "KERB"
          {["ENCRYPT" := VSegment (mkSegment "ENCRYPT" {["DES" := VTrue]});
            "KERBNAME" := VStr "K"]}]}
      {["SPECIAL"]} in
  parse_adduser src = Done cmd /\ wf_command cmd.
Proof.
  intros src cmd.
  assert (parse_adduser src = Done cmd) as H by (vm_compute; reflexivity).
  split; [exact H|]. exact (parsed_command_shape src cmd H).
Defined.

(** X6.  The parser reads types and values only.  Two token lists that agree
    on the type and value of their tokens, continuation markers left out,
    give the same command, and one parse runs forever exactly when the other
    does; line and column can differ and show only in the text of a
    [SyntaxError]. *)
Theorem parser_ignores_positions (toks1 toks2 : list Token) :
  token_stream toks1 = token_stream toks2 ->
  ast_of (Parser_parse toks1) = ast_of (Parser_parse toks2)
  /\ (Parser_parse toks1 = Timeout <-> Parser_parse toks2 = Timeout)
  /\ ((exists e, Parser_parse toks1 = Raise e)
      <-> (exists e, Parser_parse toks2 = Raise e)).
Proof.
  intros H%Parser_parse_stream.
  destruct H as [a b ->|e1 e2|]; cbn.
  - split; [reflexivity|]. split; split;
      first [discriminate | intros [e He]; discriminate He].
  - split; [reflexivity|]. split; [split; discriminate|].
    split; intros _; eauto.
  - split; [reflexivity|]. split; [tauto|].
    split; intros [e He]; discriminate He.
Qed.

Lemma parser_ignores_positions_witness :
  let toks1 := [mkToken COMMAND "AU" 1 1; mkToken LPAREN "(" 1 4;
                mkToken IDENTIFIER "U1" 1 5; mkToken RPAREN ")" 1 7;
                mkToken CONTINUATION "-" 1 9;
                mkToken KEYWORD "SPECIAL" 2 1;
                mkToken EOF EmptyString 2 8] in
  let toks2 := [mkToken COMMAND "AU" 7 7; mkToken LPAREN "(" 7 7;
                mkToken IDENTIFIER "U1" 7 7; mkToken RPAREN ")" 7 7;
                mkToken KEYWORD "SPECIAL" 7 7;
                mkToken EOF EmptyString 7 7] in
  ast_of (Parser_parse toks1) = ast_of (Parser_parse toks2)
  /\ (Parser_parse toks1 = Timeout <-> Parser_parse toks2 = Timeout)
  /\ ((exists e, Parser_parse toks1 = Raise e)
      <-> (exists e, Parser_parse toks2 = Raise e)).
Proof.
  intros toks1 toks2.
  exact (parser_ignores_positions toks1 toks2 eq_refl).
Defined.

End AstShape.

(** ** Character classes and upper-casing *)

Module CharFacts.
Import AsciiText.

Ltac each_char c := destruct c as [[] [] [] [] [] [] [] []].

(** Upper-casing an ASCII character changes none of the tests the lexers
    make. *)
Lemma upper_char_tests c :
  Ascii.eqb (ascii_upper c) NL = Ascii.eqb c NL
  /\ char_in (ascii_upper c) WHITESPACE = char_in c WHITESPACE
  /\ char_in (ascii_upper c) NL_CR = char_in c NL_CR
  /\ Ascii.eqb (ascii_upper c) "/" = Ascii.eqb c "/"
  /\ Ascii.eqb (ascii_upper c) "*" = Ascii.eqb c "*"
  /\ Ascii.eqb (ascii_upper c) "-" = Ascii.eqb c "-"
  /\ Ascii.eqb (ascii_upper c) "(" = Ascii.eqb c "("
  /\ Ascii.eqb (ascii_upper c) ")" = Ascii.eqb c ")"
  /\ Ascii.eqb (ascii_upper c) QUOTE = Ascii.eqb c QUOTE
  /\ isalnum (ascii_upper c) = isalnum c
  /\ char_in (ascii_upper c) "@#$" = char_in c "@#$"
  /\ char_in (ascii_upper c) "@#$_" = char_in c "@#$_"
  /\ isascii_char (ascii_upper c) = isascii_char c.
Proof. each_char c; vm_compute; repeat split; reflexivity. Qed.

Lemma append_assoc (a b c : string) : (a ++ b) ++ c = a ++ b ++ c.
Proof.
  induction a as [|x a IH]; [reflexivity|].
  rewrite !append_cons. now rewrite IH.
Qed.

Lemma upper_app a b : upper (a ++ b) = upper a ++ upper b.
Proof.
  induction a as [|c a IH]; [reflexivity|].
  rewrite append_cons. cbn [upper]. now rewrite IH, append_assoc.
Qed.

(** The upper-case form of a character is in upper case already, is a digit
    string exactly when the character is a digit, and is never empty. *)
Lemma upper_char_idem c : upper (upper_char c) = upper_char c.
Proof. each_char c; reflexivity. Qed.

Lemma upper_char_digits c : all_digits (upper_char c) = isdigit_char c.
Proof. each_char c; reflexivity. Qed.

Lemma upper_char_nonempty c : exists d r, upper_char c = String d r.
Proof. each_char c; vm_compute; eauto. Qed.

Lemma upper_char_digit c :
  isdigit_char c = true -> upper_char c = String c EmptyString.
Proof. each_char c; vm_compute; intros H; first [reflexivity|discriminate]. Qed.

Lemma upper_idem s : upper (upper s) = upper s.
Proof.
  induction s as [|c s IH]; [reflexivity|].
  cbn [upper]. now rewrite upper_app, upper_char_idem, IH.
Qed.

Lemma all_digits_app a b : all_digits (a ++ b) = all_digits a && all_digits b.
Proof.
  induction a as [|c a IH]; [reflexivity|].
  rewrite append_cons. cbn [all_digits]. now rewrite IH, andb_assoc.
Qed.

Lemma all_digits_upper s : all_digits (upper s) = all_digits s.
Proof.
  induction s as [|c s IH]; [reflexivity|]. cbn [upper all_digits].
  now rewrite all_digits_app, upper_char_digits, IH.
Qed.

Lemma upper_nonempty s : s <> EmptyString -> upper s <> EmptyString.
Proof.
  destruct s as [|c s]; [contradiction|]. intros _. cbn [upper].
  destruct (upper_char_nonempty c) as (d & r & ->). discriminate.
Qed.

Lemma isdigit_upper s : isdigit (upper s) = isdigit s.
Proof.
  destruct s as [|c s]; [reflexivity|].
  pose proof (upper_nonempty (String c s) ltac:(discriminate)) as Hne.
  pose proof (all_digits_upper (String c s)) as Hd.
  destruct (upper (String c s)); [contradiction|exact Hd].
Qed.

Lemma all_digits_upper_id s : all_digits s = true -> upper s = s.
Proof.
  induction s as [|c s IH]; [reflexivity|]. cbn [all_digits upper].
  intros [Hc Hs]%andb_prop. rewrite (upper_char_digit c Hc), IH by assumption.
  now rewrite append_cons, append_nil.
Qed.

Lemma isdigit_upper_id s : isdigit s = true -> upper s = s.
Proof. destruct s; [discriminate|]. apply all_digits_upper_id. Qed.

(** [s'] is what is left of [s] after some characters were consumed. *)
Inductive str_suffix (s' : string) : string -> Prop :=
  | suffix_here : str_suffix s' s'
  | suffix_skip c s : str_suffix s' s -> str_suffix s' (String c s).

Lemma str_suffix_trans s1 s2 s3 :
  str_suffix s1 s2 -> str_suffix s2 s3 -> str_suffix s1 s3.
Proof.
  intros H12 H23. induction H23 as [|c s H23 IH]; [assumption|].
  now apply suffix_skip.
Qed.

Lemma str_suffix_length s' s :
  str_suffix s' s -> String.length s' <= String.length s.
Proof. induction 1; cbn; lia. Qed.

Lemma str_suffix_char_in d s' s :
  str_suffix s' s -> char_in d s' = true -> char_in d s = true.
Proof.
  induction 1 as [|c s H IH]; [auto|]. intros Hd. cbn [char_in].
  rewrite (IH Hd). apply orb_true_r.
Qed.

(** The text contains no character [d]; [char_in] is read with the text as
    the set. *)
Definition free_of (d : ascii) (s : string) : Prop := char_in d s = false.

Lemma free_of_suffix d s' s : str_suffix s' s -> free_of d s -> free_of d s'.
Proof.
  unfold free_of. intros Hs Hf.
  destruct (char_in d s') eqn:E; [|reflexivity].
  now rewrite (str_suffix_char_in d s' s Hs E) in Hf.
Qed.

Lemma free_of_cons d c s :
  free_of d (String c s) -> Ascii.eqb d c = false /\ free_of d s.
Proof. unfold free_of. cbn [char_in]. now intros [? ?]%orb_false_elim. Qed.

End CharFacts.

(** ** What the example lexer returns *)

Module ExampleLexerShape.
Import AdduserParser ExampleLexerFacts CharFacts.

Lemma adduser_classify_ok v ln col :
  v <> EmptyString -> adduser_token_ok (classify v ln col).
Proof.
  intros Hv. unfold classify, adduser_token_ok.
  case_bool_decide as Hkw.
  - destruct (bool_decide (upper v = "ADDUSER") || bool_decide (upper v = "AU"))
      eqn:Hc; cbn [type value].
    + apply orb_prop in Hc as [Hc|Hc]; apply bool_decide_eq_true_1 in Hc; auto.
    + apply orb_false_elim in Hc as [H1 H2].
      apply bool_decide_eq_false_1 in H1, H2. auto.
  - destruct (isdigit v) eqn:Hd; cbn [type value].
    + split; [assumption|]. now rewrite <- (isdigit_upper_id v Hd).
    + rewrite upper_idem, isdigit_upper.
      split; [assumption|]. split; [reflexivity|].
      split; [now apply upper_nonempty|assumption].
Qed.

Lemma read_word_nonempty c s ln col :
  ident_char c = true -> (read_word_from (String c s) ln col).1 <> EmptyString.
Proof.
  intros Hc. cbn [read_word_from]. rewrite Hc.
  destruct (read_word_from s _ _). discriminate.
Qed.

Lemma read_identifier_ok lx c t lx' :
  current_char lx = Some c -> isalnum c || char_in c "@#$" = true ->
  read_identifier_or_keyword lx = (t, lx') -> adduser_token_ok t.
Proof.
  intros (s' & E)%current_char_source Hc%word_start_ident_char.
  unfold read_identifier_or_keyword. rewrite E.
  pose proof (read_word_nonempty c s' (cur_line lx) (cur_column lx) Hc) as Hne.
  destruct (read_word_from (String c s') _ _) as [v lx2].
  intros [<- _]%pair_equal_spec. now apply adduser_classify_ok.
Qed.

Lemma read_string_ok lx t lx' : read_string lx = (t, lx') -> adduser_token_ok t.
Proof.
  intros H. pose proof (read_string_type _ _ _ H) as Hty.
  unfold adduser_token_ok. now rewrite Hty.
Qed.

(** *** Positions count from one *)

Local Open Scope Z_scope.

Definition one_based (lx : Lexer) : Prop := 1 <= cur_line lx /\ 1 <= cur_column lx.

Lemma next_position c ln col :
  1 <= ln -> 1 <= col -> 1 <= next_line c ln /\ 1 <= next_column c col.
Proof.
  unfold next_line, next_column. destruct (Ascii.eqb c NL); lia.
Qed.

Lemma advance_one_based lx : one_based lx -> one_based (advance lx).
Proof.
  unfold one_based, advance. intros [Hl Hc].
  destruct (source lx) as [|c s]; cbn [cur_line cur_column]; [lia|].
  now apply next_position.
Qed.

Lemma skip_whitespace_from_one_based s : forall ln col,
  1 <= ln -> 1 <= col -> one_based (skip_whitespace_from s ln col).
Proof.
  induction s as [|c s IH]; intros ln col Hl Hc; cbn [skip_whitespace_from];
    [split; assumption|].
  destruct (char_in c WHITESPACE); [|split; assumption].
  destruct (next_position c ln col Hl Hc). now apply IH.
Qed.

Lemma skip_comment_from_one_based s : forall ln col,
  1 <= ln -> 1 <= col -> one_based (skip_comment_from s ln col).
Proof.
  induction s as [|c s IH]; intros ln col Hl Hc; [split; assumption|].
  cbn [skip_comment_from]. destruct (next_position c ln col Hl Hc) as [Hl1 Hc1].
  destruct s as [|d s'']; [now apply IH|].
  destruct (Ascii.eqb c "*" && Ascii.eqb d "/"); [|now apply IH].
  unfold one_based. cbn [cur_line cur_column]. now apply next_position.
Qed.

Lemma skip_comment_one_based lx : one_based lx -> one_based (skip_comment lx).
Proof.
  intros H. unfold skip_comment.
  destruct (current_char lx); [|assumption].
  destruct (peek lx); [|assumption].
  destruct (_ && _); [|assumption].
  apply advance_one_based, advance_one_based in H as [? ?].
  now apply skip_comment_from_one_based.
Qed.

Lemma read_string_from_one_based n : forall s ln col,
  (String.length s <= n)%nat -> 1 <= ln -> 1 <= col ->
  one_based (read_string_from s ln col).2.
Proof.
  induction n as [|n IH]; intros s ln col Hn Hl Hc.
  - destruct s; [split; assumption | simpl in Hn; lia].
  - destruct s as [|c s]; [split; assumption|].
    cbn [read_string_from].
    destruct (next_position c ln col Hl Hc) as [Hl1 Hc1].
    destruct (Ascii.eqb c QUOTE).
    + destruct s as [|d s'']; [split; assumption|].
      destruct (Ascii.eqb d QUOTE); [|split; assumption].
      destruct (next_position d _ _ Hl1 Hc1) as [Hl2 Hc2].
      specialize (IH s'' _ _ ltac:(simpl in Hn; lia) Hl2 Hc2).
      now destruct (read_string_from s'' _ _).
    + specialize (IH s _ _ ltac:(simpl in Hn; lia) Hl1 Hc1).
      now destruct (read_string_from s _ _).
Qed.

Lemma read_word_from_one_based s : forall ln col,
  1 <= ln -> 1 <= col -> one_based (read_word_from s ln col).2.
Proof.
  induction s as [|c s IH]; intros ln col Hl Hc; cbn [read_word_from];
    [split; assumption|].
  destruct (ident_char c); [|split; assumption].
  destruct (next_position c ln col Hl Hc) as [Hl1 Hc1].
  specialize (IH _ _ Hl1 Hc1). now destruct (read_word_from s _ _).
Qed.

Lemma read_string_one_based lx t lx' :
  one_based lx -> read_string lx = (t, lx') ->
  (1 <= line t /\ 1 <= column t) /\ one_based lx'.
Proof.
  intros H. unfold read_string.
  pose proof (advance_one_based lx H) as [Hl Hc].
  pose proof (read_string_from_one_based _ (source (advance lx)) _ _
                (Nat.le_refl _) Hl Hc) as Hr.
  destruct (read_string_from _ _ _) as [v lx2].
  intros [<- <-]%pair_equal_spec. split; [exact H|exact Hr].
Qed.

Lemma adduser_classify_position v ln col :
  line (classify v ln col) = ln /\ column (classify v ln col) = col.
Proof. unfold classify. repeat case_match; split; reflexivity. Qed.

Lemma read_identifier_one_based lx t lx' :
  one_based lx -> read_identifier_or_keyword lx = (t, lx') ->
  (1 <= line t /\ 1 <= column t) /\ one_based lx'.
Proof.
  intros [Hl Hc]. unfold read_identifier_or_keyword.
  pose proof (read_word_from_one_based (source lx) _ _ Hl Hc) as Hr.
  destruct (read_word_from _ _ _) as [v lx2].
  intros [<- <-]%pair_equal_spec.
  destruct (adduser_classify_position v (cur_line lx) (cur_column lx)) as [-> ->].
  split; [split; assumption|exact Hr].
Qed.

Definition token_ok (t : Token) : Prop :=
  adduser_token_ok t /\ 1 <= line t /\ 1 <= column t.

Lemma adduser_here_ok ty v lx :
  one_based lx -> adduser_token_ok (here ty v lx) -> token_ok (here ty v lx).
Proof. intros [Hl Hc] Hok. split; [exact Hok|]. split; assumption. Qed.

Lemma tokenize_loop_ok fuel lx :
  one_based lx ->
  forall toks, tokenize_loop fuel lx = Some toks -> Forall token_ok toks.
Proof.
  revert fuel lx.
  apply (example_tokenize_loop_ind (fun fuel lx res =>
    one_based lx -> forall toks, res = Some toks -> Forall token_ok toks)).
  - intros; discriminate.
  - intros fuel lx fuel' _ c Hc Hws IH Hlx toks H. apply IH; [|exact H].
    destruct Hlx. now apply skip_whitespace_from_one_based.
  - intros fuel lx fuel' _ c Hc _ Hcm IH Hlx toks H. apply IH; [|exact H].
    now apply skip_comment_one_based.
  - intros fuel lx fuel' _ c Hc _ _ _ IH Hlx toks H.
    destruct (tokenize_loop fuel' (advance lx)) as [rest|]; [|discriminate].
    injection H as <-. constructor.
    + apply adduser_here_ok; [assumption|reflexivity].
    + apply IH; [now apply advance_one_based|reflexivity].
  - intros fuel lx fuel' _ c Hc _ _ _ _ IH Hlx toks H.
    destruct (tokenize_loop fuel' (advance lx)) as [rest|]; [|discriminate].
    injection H as <-. constructor.
    + apply adduser_here_ok; [assumption|reflexivity].
    + apply IH; [now apply advance_one_based|reflexivity].
  - intros fuel lx fuel' _ c Hc _ _ _ _ _ IH Hlx toks H.
    destruct (tokenize_loop fuel' (advance lx)) as [rest|]; [|discriminate].
    injection H as <-. constructor.
    + apply adduser_here_ok; [assumption|reflexivity].
    + apply IH; [now apply advance_one_based|reflexivity].
  - intros fuel lx fuel' _ c Hc _ _ _ _ _ _ t lx' Hrd IH Hlx toks H.
    destruct (tokenize_loop fuel' lx') as [rest|]; [|discriminate].
    injection H as <-.
    destruct (read_string_one_based _ _ _ Hlx Hrd) as [Hpos Hlx'].
    constructor.
    + split; [eapply read_string_ok; eauto|exact Hpos].
    + now apply IH.
  - intros fuel lx fuel' _ c Hc _ _ _ _ _ _ Hw t lx' Hrd IH Hlx toks H.
    destruct (tokenize_loop fuel' lx') as [rest|]; [|discriminate].
    injection H as <-.
    destruct (read_identifier_one_based _ _ _ Hlx Hrd) as [Hpos Hlx'].
    constructor.
    + split; [eapply read_identifier_ok; eauto|exact Hpos].
    + now apply IH.
  - intros fuel lx fuel' _ c Hc _ _ _ _ _ _ _ IH Hlx toks H.
    apply IH; [now apply advance_one_based|exact H].
  - intros fuel lx fuel' _ _ Hlx toks [= <-]. constructor; [|constructor].
    apply adduser_here_ok; [assumption|reflexivity].
Qed.

(** X7.  The example lexer returns a token list for every source text.  The
    list ends with its only EOF token, every token carries a line and a
    column counted from one, and the type of a token decides what its value
    can be: a COMMAND is ADDUSER or AU, a KEYWORD is another word of
    [ADDUSER_KEYWORDS], a NUMBER is a non-empty run of digits, an IDENTIFIER
    is a non-empty upper-case word that is neither a keyword nor a number,
    and the punctuation tokens carry their own character. *)
Theorem example_tokenize_shape (src : string) :
  exists body eof,
    tokenize src = Some (body ++ [eof])%list
    /\ type eof = EOF
    /\ Forall (fun t => type t <> EOF) body
    /\ Forall (fun t => adduser_token_ok t /\ 1 <= line t /\ 1 <= column t)
              (body ++ [eof])%list.
Proof.
  destruct (example_tokenize_total src) as (toks & Htok & body & eof & -> & He & Hb).
  exists body, eof. split; [exact Htok|]. split; [exact He|].
  split; [exact Hb|].
  apply (tokenize_loop_ok (S (String.length src)) (Lexer_init src));
    [|exact Htok].
  split; cbn; lia.
Qed.

End ExampleLexerShape.

(** ** The example lexer does not look at the case of letters *)

Module CaseInsensitive.
Import AdduserParser ExampleLexerFacts AsciiText CharFacts.

(** The lexer on the upper-cased rest of the text, at the same position. *)
Definition up_lx (lx : Lexer) : Lexer :=
  mkLexer (upper (source lx)) (cur_line lx) (cur_column lx).

Lemma next_line_upper c ln : next_line (ascii_upper c) ln = next_line c ln.
Proof.
  unfold next_line. now destruct (upper_char_tests c) as (-> & _).
Qed.

Lemma next_column_upper c col :
  next_column (ascii_upper c) col = next_column c col.
Proof.
  unfold next_column. now destruct (upper_char_tests c) as (-> & _).
Qed.

Lemma ident_char_upper c : ident_char (ascii_upper c) = ident_char c.
Proof.
  unfold ident_char.
  destruct (upper_char_tests c) as (_&_&_&_&_&_&_&_&_&->&_&->&_).
  reflexivity.
Qed.

Lemma up_lx_cons c s ln col :
  isascii_char c = true ->
  up_lx (mkLexer (String c s) ln col)
  = mkLexer (String (ascii_upper c) (upper s)) ln col.
Proof.
  intros Hc. unfold up_lx. cbn [source cur_line cur_column].
  now rewrite (upper_cons_ascii c s Hc).
Qed.

Lemma skip_whitespace_from_upper s : forall ln col,
  isascii s = true ->
  skip_whitespace_from (upper s) ln col = up_lx (skip_whitespace_from s ln col).
Proof.
  induction s as [|c s IH]; intros ln col Hs; [reflexivity|].
  apply isascii_cons in Hs as [Hc Hs].
  rewrite (upper_cons_ascii c s Hc). cbn [skip_whitespace_from].
  destruct (upper_char_tests c) as (_ & -> & _).
  rewrite next_line_upper, next_column_upper.
  destruct (char_in c WHITESPACE); [now apply IH|].
  now rewrite up_lx_cons.
Qed.

Lemma skip_comment_from_cons2 c d s ln col :
  skip_comment_from (String c (String d s)) ln col
  = if Ascii.eqb c "*" && Ascii.eqb d "/"
    then mkLexer s (next_line d (next_line c ln))
                   (next_column d (next_column c col))
    else skip_comment_from (String d s) (next_line c ln) (next_column c col).
Proof. reflexivity. Qed.

Lemma skip_comment_from_upper s : forall ln col,
  isascii s = true ->
  skip_comment_from (upper s) ln col = up_lx (skip_comment_from s ln col).
Proof.
  induction s as [|c s IH]; intros ln col Hs; [reflexivity|].
  apply isascii_cons in Hs as [Hc Hs].
  specialize (IH (next_line c ln) (next_column c col) Hs).
  rewrite (upper_cons_ascii c s Hc).
  destruct s as [|d s''].
  - cbn [upper skip_comment_from].
    now rewrite next_line_upper, next_column_upper.
  - apply isascii_cons in Hs as [Hd Hs].
    rewrite (upper_cons_ascii d s'' Hd) in *.
    rewrite !skip_comment_from_cons2.
    destruct (upper_char_tests c) as (_&_&_&_&Hc'&_).
    destruct (upper_char_tests d) as (_&_&_&Hd'&_).
    rewrite Hc', Hd', !next_line_upper, !next_column_upper.
    destruct (Ascii.eqb c "*" && Ascii.eqb d "/"); [reflexivity|].
    exact IH.
Qed.

Lemma read_word_from_upper s : forall ln col,
  isascii s = true ->
  read_word_from (upper s) ln col
  = (upper (read_word_from s ln col).1, up_lx (read_word_from s ln col).2).
Proof.
  induction s as [|c s IH]; intros ln col Hs; [reflexivity|].
  apply isascii_cons in Hs as [Hc Hs].
  rewrite (upper_cons_ascii c s Hc). cbn [read_word_from].
  rewrite ident_char_upper, next_line_upper, next_column_upper.
  destruct (ident_char c).
  - rewrite (IH _ _ Hs). destruct (read_word_from s _ _) as [v lx].
    cbn [fst snd]. now rewrite (upper_cons_ascii c v Hc).
  - cbn [fst snd]. now rewrite up_lx_cons.
Qed.

Lemma classify_upper v ln col : classify (upper v) ln col = classify v ln col.
Proof.
  unfold classify. rewrite upper_idem, isdigit_upper.
  case_bool_decide; [reflexivity|].
  destruct (isdigit v) eqn:Hd; [|reflexivity].
  now rewrite (isdigit_upper_id v Hd).
Qed.

Definition ascii_left (lx : Lexer) : Prop := isascii (source lx) = true.

Lemma current_char_upper lx :
  ascii_left lx -> current_char (up_lx lx) = ascii_upper <$> current_char lx.
Proof.
  unfold ascii_left, current_char, up_lx. cbn [source].
  destruct (source lx) as [|c s]; [reflexivity|].
  intros [Hc _]%isascii_cons. now rewrite (upper_cons_ascii c s Hc).
Qed.

Lemma peek_upper lx :
  ascii_left lx -> peek (up_lx lx) = ascii_upper <$> peek lx.
Proof.
  unfold ascii_left, peek, up_lx. cbn [source].
  destruct (source lx) as [|c [|d s]]; [reflexivity| |].
  - intros [Hc _]%isascii_cons. now rewrite (upper_cons_ascii c _ Hc).
  - intros [Hc [Hd _]%isascii_cons]%isascii_cons.
    now rewrite (upper_cons_ascii c _ Hc), (upper_cons_ascii d _ Hd).
Qed.

Lemma peek_star_upper lx :
  ascii_left lx ->
  bool_decide (peek (up_lx lx) = Some "*"%char)
  = bool_decide (peek lx = Some "*"%char).
Proof.
  intros H. rewrite (peek_upper lx H).
  destruct (peek lx) as [d|]; [|reflexivity].
  cbn [fmap option_fmap option_map].
  destruct (upper_char_tests d) as (_&_&_&_&Hd&_).
  apply bool_decide_ext. split; intros [= E].
  - f_equal. apply Ascii.eqb_eq. rewrite <- Hd. now apply Ascii.eqb_eq.
  - f_equal. apply Ascii.eqb_eq. rewrite Hd. now apply Ascii.eqb_eq.
Qed.

Lemma at_line_end_upper lx :
  ascii_left lx -> at_line_end (up_lx lx) = at_line_end lx.
Proof.
  intros H. unfold at_line_end. rewrite (peek_upper lx H).
  destruct (peek lx) as [d|]; [|reflexivity].
  cbn [fmap option_fmap option_map].
  now destruct (upper_char_tests d) as (_&_&->&_).
Qed.

Lemma advance_upper lx :
  ascii_left lx -> advance (up_lx lx) = up_lx (advance lx).
Proof.
  unfold ascii_left, advance, up_lx. cbn [source cur_line cur_column].
  destruct (source lx) as [|c s]; [reflexivity|].
  intros [Hc _]%isascii_cons. rewrite (upper_cons_ascii c s Hc).
  cbn [source cur_line cur_column].
  now rewrite next_line_upper, next_column_upper.
Qed.

Lemma skip_whitespace_upper lx :
  ascii_left lx -> skip_whitespace (up_lx lx) = up_lx (skip_whitespace lx).
Proof. apply skip_whitespace_from_upper. Qed.

Lemma advance_ascii_left lx : ascii_left lx -> ascii_left (advance lx).
Proof.
  unfold ascii_left, advance. destruct (source lx) as [|c s]; [auto|].
  now intros [_ Hs]%isascii_cons.
Qed.

Lemma skip_comment_upper lx :
  ascii_left lx -> skip_comment (up_lx lx) = up_lx (skip_comment lx).
Proof.
  intros H. unfold skip_comment.
  rewrite (current_char_upper lx H), (peek_upper lx H).
  destruct (current_char lx) as [c|]; [|reflexivity].
  destruct (peek lx) as [d|]; [|reflexivity].
  cbn [fmap option_fmap option_map].
  destruct (upper_char_tests c) as (_&_&_&->&_).
  destruct (upper_char_tests d) as (_&_&_&_&->&_).
  destruct (Ascii.eqb c "/" && Ascii.eqb d "*"); [|reflexivity].
  pose proof (advance_ascii_left lx H) as H1.
  pose proof (advance_ascii_left _ H1) as H2.
  rewrite (advance_upper lx H), (advance_upper _ H1).
  now apply skip_comment_from_upper.
Qed.

Lemma read_identifier_upper lx :
  ascii_left lx ->
  read_identifier_or_keyword (up_lx lx)
  = ((read_identifier_or_keyword lx).1, up_lx (read_identifier_or_keyword lx).2).
Proof.
  intros H. unfold read_identifier_or_keyword, up_lx at 1.
  cbn [source cur_line cur_column].
  rewrite (read_word_from_upper _ _ _ H).
  destruct (read_word_from (source lx) _ _) as [v lx'].
  cbn [fst snd]. now rewrite classify_upper.
Qed.

Lemma isascii_suffix s' s :
  str_suffix s' s -> isascii s = true -> isascii s' = true.
Proof.
  induction 1 as [|c s H IH]; [auto|].
  intros [_ Hs]%isascii_cons. now apply IH.
Qed.

(** *** What is left of the text never holds a quote *)

Lemma advance_suffix lx : str_suffix (source (advance lx)) (source lx).
Proof.
  unfold advance. destruct (source lx); cbn [source]; repeat constructor.
Qed.

Lemma skip_whitespace_from_suffix s : forall ln col,
  str_suffix (source (skip_whitespace_from s ln col)) s.
Proof.
  induction s as [|c s IH]; intros ln col; cbn [skip_whitespace_from];
    [constructor|].
  destruct (char_in c WHITESPACE); [|constructor].
  constructor. apply IH.
Qed.

Lemma skip_comment_from_suffix s : forall ln col,
  str_suffix (source (skip_comment_from s ln col)) s.
Proof.
  induction s as [|c s IH]; intros ln col; [constructor|].
  cbn [skip_comment_from]. destruct s as [|d s''].
  - constructor. apply IH.
  - destruct (Ascii.eqb c "*" && Ascii.eqb d "/").
    + cbn [source]. repeat constructor.
    + constructor. apply IH.
Qed.

Lemma skip_comment_suffix lx : str_suffix (source (skip_comment lx)) (source lx).
Proof.
  unfold skip_comment.
  destruct (current_char lx); [|constructor].
  destruct (peek lx); [|constructor].
  destruct (_ && _); [|constructor].
  eapply str_suffix_trans; [apply skip_comment_from_suffix|].
  eapply str_suffix_trans; apply advance_suffix.
Qed.

Lemma read_word_from_suffix s : forall ln col,
  str_suffix (source (read_word_from s ln col).2) s.
Proof.
  induction s as [|c s IH]; intros ln col; cbn [read_word_from];
    [constructor|].
  destruct (ident_char c); [|constructor].
  specialize (IH (next_line c ln) (next_column c col)).
  destruct (read_word_from s _ _). constructor. exact IH.
Qed.

Lemma read_identifier_suffix lx :
  str_suffix (source (read_identifier_or_keyword lx).2) (source lx).
Proof.
  unfold read_identifier_or_keyword.
  pose proof (read_word_from_suffix (source lx) (cur_line lx) (cur_column lx)).
  now destruct (read_word_from _ _ _).
Qed.

Lemma tokenize_loop_S fuel lx :
  tokenize_loop (S fuel) lx =
    match current_char lx with
    | None => Some [here EOF EmptyString lx]
    | Some c =>
        if char_in c WHITESPACE then
          tokenize_loop fuel (skip_whitespace lx)
        else if Ascii.eqb c "/"
                && bool_decide (peek lx = Some "*"%char) then
          tokenize_loop fuel (skip_comment lx)
        else if Ascii.eqb c "-" && at_line_end lx then
          cons (here CONTINUATION "-" lx)
            <$> tokenize_loop fuel (advance lx)
        else if Ascii.eqb c "(" then
          cons (here LPAREN "(" lx) <$> tokenize_loop fuel (advance lx)
        else if Ascii.eqb c ")" then
          cons (here RPAREN ")" lx) <$> tokenize_loop fuel (advance lx)
        else if Ascii.eqb c QUOTE then
          let '(t, lx') := read_string lx in
          cons t <$> tokenize_loop fuel lx'
        else if isalnum c || char_in c "@#$" then
          let '(t, lx') := read_identifier_or_keyword lx in
          cons t <$> tokenize_loop fuel lx'
        else
          tokenize_loop fuel (advance lx)
    end.
Proof. reflexivity. Qed.

Lemma tokenize_loop_upper fuel : forall lx,
  free_of QUOTE (source lx) -> ascii_left lx ->
  tokenize_loop fuel (up_lx lx) = tokenize_loop fuel lx.
Proof.
  induction fuel as [|fuel IH]; intros lx Hq Ha; [reflexivity|].
  rewrite !tokenize_loop_S, (current_char_upper lx Ha).
  destruct (current_char lx) as [c|] eqn:Hc; [|reflexivity].
  cbn [fmap option_fmap option_map].
  assert (forall lx', str_suffix (source lx') (source lx) ->
            tokenize_loop fuel (up_lx lx') = tokenize_loop fuel lx') as Hrec.
  { intros lx' Hs. apply IH.
    - eapply free_of_suffix; eauto.
    - eapply isascii_suffix; eauto. }
  destruct (upper_char_tests c)
    as (_ & -> & _ & -> & _ & -> & -> & -> & -> & -> & -> & _).
  rewrite (peek_star_upper lx Ha), (at_line_end_upper lx Ha).
  destruct (char_in c WHITESPACE).
  { rewrite (skip_whitespace_upper lx Ha).
    apply Hrec, skip_whitespace_from_suffix. }
  destruct (Ascii.eqb c "/" && _).
  { rewrite (skip_comment_upper lx Ha). apply Hrec, skip_comment_suffix. }
  destruct (Ascii.eqb c "-" && _).
  { rewrite (advance_upper lx Ha), Hrec by apply advance_suffix.
    reflexivity. }
  destruct (Ascii.eqb c "(").
  { rewrite (advance_upper lx Ha), Hrec by apply advance_suffix.
    reflexivity. }
  destruct (Ascii.eqb c ")").
  { rewrite (advance_upper lx Ha), Hrec by apply advance_suffix.
    reflexivity. }
  destruct (Ascii.eqb c QUOTE) eqn:Hcq.
  { exfalso. apply current_char_source in Hc as (s' & E).
    rewrite E in Hq. apply free_of_cons in Hq as [Hq _].
    rewrite Ascii.eqb_sym in Hq. congruence. }
  destruct (isalnum c || char_in c "@#$").
  { rewrite (read_identifier_upper lx Ha).
    pose proof (read_identifier_suffix lx) as Hs.
    destruct (read_identifier_or_keyword lx) as [t lx']. cbn [fst snd] in *.
    now rewrite Hrec. }
  rewrite (advance_upper lx Ha). apply Hrec, advance_suffix.
Qed.

(** X8.  Outside string literals the example lexer and parser do not see
    the case of ASCII letters.  For an ASCII source text without a quote
    character, upper-casing the whole text changes neither the tokens
    (types, values, lines and columns) nor the result of [parse_adduser]. *)
Theorem example_lexer_ignores_case (src : string) :
  isascii src = true -> char_in QUOTE src = false ->
  tokenize (upper src) = tokenize src
  /\ parse_adduser (upper src) = parse_adduser src.
Proof.
  intros Ha Hq.
  assert (tokenize (upper src) = tokenize src) as H.
  { unfold tokenize. rewrite (upper_length src Ha).
    apply (tokenize_loop_upper _ (Lexer_init src)); assumption. }
  split; [exact H|]. unfold parse_adduser. now rewrite H.
Qed.

Lemma example_lexer_ignores_case_witness :
  let src := "adduser (jsmith) omvs(uid(7)) Special" in
  upper src = "ADDUSER (JSMITH) OMVS(UID(7)) SPECIAL"
  /\ tokenize (upper src) = tokenize src
  /\ parse_adduser (upper src) = parse_adduser src.
Proof.
  intros src. split; [reflexivity|].
  exact (example_lexer_ignores_case src eq_refl eq_refl).
Defined.

(** Beyond ASCII the columns can move: the upper-case form of the sharp s
    is one character longer, and the token after it starts one column
    later. *)
Example upper_case_moves_columns :
  let src := String "223" " x" in
  upper src = "SS X"
  /\ tokenize src
     = Some [mkToken IDENTIFIER "SS" 1 1; mkToken IDENTIFIER "X" 1 3;
             mkToken EOF EmptyString 1 4]
  /\ tokenize (upper src)
     = Some [mkToken IDENTIFIER "SS" 1 1; mkToken IDENTIFIER "X" 1 4;
             mkToken EOF EmptyString 1 5].
Proof. repeat split; vm_compute; reflexivity. Qed.

End CaseInsensitive.

(** ** The server's lexer, one iteration at a time *)

Module ServerLexerSteps.
Import RacfServer ServerLexerFacts CharFacts.

Local Open Scope Z_scope.

(** Line and column after the characters of [pre] have been consumed by
    [advance], one by one. *)
Fixpoint line_after (ln : Z) (pre : string) : Z :=
  match pre with
  | EmptyString => ln
  | String c p => line_after (next_line c ln) p
  end.

Fixpoint column_after (col : Z) (pre : string) : Z :=
  match pre with
  | EmptyString => col
  | String c p => column_after (next_column c col) p
  end.

(** From the text [s] at [(ln, col)], the cursor [lx'] is reached by
    consuming exactly [pre]. *)
Record consumes (pre s : string) (ln col : Z) (lx' : Lexer) : Prop := {
  consumed_text : s = pre ++ source lx';
  consumed_line : cur_line lx' = line_after ln pre;
  consumed_column : cur_column lx' = column_after col pre
}.

Lemma consumes_nil s ln col : consumes EmptyString s ln col (mkLexer s ln col).
Proof. split; reflexivity. Qed.

Lemma consumes_cons c pre s ln col lx' :
  consumes pre s (next_line c ln) (next_column c col) lx' ->
  consumes (String c pre) (String c s) ln col lx'.
Proof.
  intros [Ht Hl Hc]. split; cbn [line_after column_after]; [|assumption..].
  rewrite append_cons. now f_equal.
Qed.

Lemma line_after_app a : forall ln b,
  line_after ln (a ++ b) = line_after (line_after ln a) b.
Proof.
  induction a as [|c a IH]; intros ln b; [reflexivity|].
  rewrite append_cons. cbn [line_after]. apply IH.
Qed.

Lemma column_after_app a : forall col b,
  column_after col (a ++ b) = column_after (column_after col a) b.
Proof.
  induction a as [|c a IH]; intros col b; [reflexivity|].
  rewrite append_cons. cbn [column_after]. apply IH.
Qed.

Lemma consumes_app pre1 pre2 s ln col lx1 lx2 :
  consumes pre1 s ln col lx1 ->
  consumes pre2 (source lx1) (cur_line lx1) (cur_column lx1) lx2 ->
  consumes (pre1 ++ pre2) s ln col lx2.
Proof.
  intros [Ht1 Hl1 Hc1] [Ht2 Hl2 Hc2]. split.
  - now rewrite append_assoc, <- Ht2.
  - now rewrite line_after_app, <- Hl1.
  - now rewrite column_after_app, <- Hc1.
Qed.

(** Every character of the string passes the test [p]. *)
Fixpoint all_chars (p : ascii -> bool) (s : string) : bool :=
  match s with
  | EmptyString => true
  | String c s' => p c && all_chars p s'
  end.

Lemma all_chars_free p d s :
  p d = false -> all_chars p s = true -> free_of d s.
Proof.
  intros Hd. unfold free_of. induction s as [|c s IH]; [reflexivity|].
  cbn [all_chars char_in]. intros [Hc Hs]%andb_prop.
  rewrite (IH Hs), orb_false_r.
  destruct (Ascii.eqb d c) eqn:E; [|reflexivity].
  apply Ascii.eqb_eq in E. congruence.
Qed.

Lemma free_of_app d a b : free_of d a -> free_of d b -> free_of d (a ++ b).
Proof.
  unfold free_of. induction a as [|c a IH]; [auto|].
  rewrite append_cons. cbn [char_in].
  intros [-> Ha]%orb_false_elim Hb. now rewrite IH.
Qed.

Lemma free_of_app_inv d a b :
  free_of d (a ++ b) -> free_of d a /\ free_of d b.
Proof.
  unfold free_of. induction a as [|c a IH]; [auto|].
  rewrite append_cons. cbn [char_in].
  intros [-> Hab]%orb_false_elim. now apply IH.
Qed.

(** *** What the reading methods consume *)

Lemma skip_whitespace_from_consumes s : forall ln col,
  exists pre,
    consumes pre s ln col (skip_whitespace_from s ln col)
    /\ all_chars (fun c => char_in c SPACE_TAB) pre = true.
Proof.
  induction s as [|c s IH]; intros ln col; cbn [skip_whitespace_from].
  - exists EmptyString. split; [apply consumes_nil|reflexivity].
  - destruct (char_in c SPACE_TAB) eqn:Hc.
    + destruct (IH (next_line c ln) (next_column c col)) as (pre & Hp & Ha).
      exists (String c pre). split; [now apply consumes_cons|].
      cbn [all_chars]. now rewrite Hc.
    + exists EmptyString. split; [apply consumes_nil|reflexivity].
Qed.

Lemma read_comment_from_cons2 c d s ln col :
  read_comment_from (String c (String d s)) ln col
  = if Ascii.eqb c "*" && Ascii.eqb d "/"
    then ("*/", mkLexer s (next_line d (next_line c ln))
                          (next_column d (next_column c col)))
    else let '(v, lx) :=
           read_comment_from (String d s) (next_line c ln) (next_column c col)
         in (String c v, lx).
Proof. reflexivity. Qed.

Lemma read_comment_from_consumes s : forall ln col,
  consumes (read_comment_from s ln col).1 s ln col
           (read_comment_from s ln col).2.
Proof.
  induction s as [|c s IH]; intros ln col; [apply consumes_nil|].
  destruct s as [|d s''].
  - cbn [read_comment_from fst snd]. apply consumes_cons, consumes_nil.
  - rewrite read_comment_from_cons2.
    destruct (Ascii.eqb c "*" && Ascii.eqb d "/") eqn:E.
    + apply andb_prop in E as [->%Ascii.eqb_eq ->%Ascii.eqb_eq].
      cbn [fst snd]. apply consumes_cons, consumes_cons, consumes_nil.
    + specialize (IH (next_line c ln) (next_column c col)).
      destruct (read_comment_from (String d s'') _ _) as [v lx].
      cbn [fst snd] in *. now apply consumes_cons.
Qed.

Lemma read_string_from_consumes n : forall s ln col,
  (String.length s <= n)%nat ->
  exists pre, consumes pre s ln col (read_string_from s ln col).2.
Proof.
  induction n as [|n IH]; intros s ln col Hn.
  - destruct s; [|simpl in Hn; lia].
    exists EmptyString. apply consumes_nil.
  - destruct s as [|c s].
    { exists EmptyString. apply consumes_nil. }
    cbn [read_string_from]. destruct (Ascii.eqb c QUOTE).
    + destruct s as [|d s''].
      * exists (String c EmptyString). cbn [snd].
        apply consumes_cons, consumes_nil.
      * destruct (Ascii.eqb d QUOTE).
        -- destruct (IH s'' (next_line d (next_line c ln))
                       (next_column d (next_column c col))
                       ltac:(simpl in Hn; lia)) as (pre & Hp).
           destruct (read_string_from s'' _ _) as [v lx]. cbn [snd] in *.
           exists (String c (String d pre)).
           now apply consumes_cons, consumes_cons.
        -- exists (String c EmptyString). cbn [snd].
           apply consumes_cons, consumes_nil.
    + destruct (IH s (next_line c ln) (next_column c col)
                  ltac:(simpl in Hn; lia)) as (pre & Hp).
      destruct (read_string_from s _ _) as [v lx]. cbn [snd] in *.
      exists (String c pre). now apply consumes_cons.
Qed.

Lemma read_word_from_consumes s : forall ln col,
  consumes (read_word_from s ln col).1 s ln col (read_word_from s ln col).2
  /\ all_chars ident_char (read_word_from s ln col).1 = true.
Proof.
  induction s as [|c s IH]; intros ln col; cbn [read_word_from].
  - split; [apply consumes_nil|reflexivity].
  - destruct (ident_char c) eqn:Hc.
    + destruct (IH (next_line c ln) (next_column c col)) as [Hp Ha].
      destruct (read_word_from s _ _) as [v lx]. cbn [fst snd] in *.
      split; [now apply consumes_cons|]. cbn [all_chars]. now rewrite Hc.
    + split; [apply consumes_nil|reflexivity].
Qed.

(** *** One iteration of the main loop *)

(** The token appended by an iteration, if any, and the cursor after it;
    [None] when the text is exhausted. *)
Definition step (lx : Lexer) : option (option Token * Lexer) :=
  match current_char lx with
  | None => None
  | Some c =>
      Some
        (if char_in c SPACE_TAB then (None, skip_whitespace lx)
         else if Ascii.eqb c NL then (None, advance lx)
         else if Ascii.eqb c "/"
                 && bool_decide (peek lx = Some "*"%char) then
           let '(t, lx') := read_comment lx in (Some t, lx')
         else if Ascii.eqb c "-" then
           if at_line_end lx
           then (Some (here CONTINUATION "-" lx), advance lx)
           else (None, advance lx)
         else if Ascii.eqb c "(" then (Some (here LPAREN "(" lx), advance lx)
         else if Ascii.eqb c ")" then (Some (here RPAREN ")" lx), advance lx)
         else if Ascii.eqb c QUOTE then
           let '(t, lx') := read_string lx in (Some t, lx')
         else if isalnum c || char_in c "@#$%" then
           let '(t, lx') := read_identifier lx in (Some t, lx')
         else (None, advance lx))
  end.

Definition emit (ot : option Token) (r : option (list Token))
  : option (list Token) :=
  match ot with
  | Some t => cons t <$> r
  | None => r
  end.

Lemma tokenize_loop_step fuel lx :
  tokenize_loop (S fuel) lx =
    match step lx with
    | None => Some [here EOF EmptyString lx]
    | Some (ot, lx') => emit ot (tokenize_loop fuel lx')
    end.
Proof.
  unfold step. cbn [tokenize_loop].
  destruct (current_char lx) as [c|]; [|reflexivity].
  destruct (char_in c SPACE_TAB); [reflexivity|].
  destruct (Ascii.eqb c NL); [reflexivity|].
  destruct (Ascii.eqb c "/" && _).
  { now destruct (read_comment lx). }
  destruct (Ascii.eqb c "-").
  { now destruct (at_line_end lx). }
  destruct (Ascii.eqb c "("); [reflexivity|].
  destruct (Ascii.eqb c ")"); [reflexivity|].
  destruct (Ascii.eqb c QUOTE).
  { now destruct (read_string lx). }
  destruct (isalnum c || char_in c "@#$%"); [|reflexivity].
  now destruct (read_identifier lx).
Qed.

(** *** The percent sign *)

Lemma percent_tests :
  char_in "%" SPACE_TAB = false /\ Ascii.eqb "%" NL = false
  /\ Ascii.eqb "%" "/" = false /\ Ascii.eqb "%" "-" = false
  /\ Ascii.eqb "%" "(" = false /\ Ascii.eqb "%" ")" = false
  /\ Ascii.eqb "%" QUOTE = false
  /\ isalnum "%" || char_in "%" "@#$%" = true
  /\ ident_char "%" = false.
Proof. vm_compute. repeat split; reflexivity. Qed.

Lemma step_at_percent lx s' :
  source lx = String "%" s' ->
  exists t lx', step lx = Some (Some t, lx') /\ source lx' = String "%" s'.
Proof.
  intros E. unfold step, current_char. rewrite E.
  destruct percent_tests as (-> & -> & -> & -> & -> & -> & -> & -> & Hi).
  cbn [andb]. unfold read_identifier. rewrite E. cbn [read_word_from].
  rewrite Hi. eauto.
Qed.

(** At a percent sign the loop appends a token and stays where it is. *)
Lemma stuck_at_percent fuel : forall lx s',
  source lx = String "%" s' -> tokenize_loop fuel lx = None.
Proof.
  induction fuel as [|fuel IH]; intros lx s' E; [reflexivity|].
  rewrite tokenize_loop_step.
  destruct (step_at_percent lx s' E) as (t & lx' & -> & E').
  cbn [emit]. now rewrite (IH lx' s' E').
Qed.

Lemma word_start_not_percent c :
  isalnum c || char_in c "@#$%" = true -> c <> "%"%char ->
  ident_char c = true.
Proof.
  each_char c; vm_compute; intros H Hne;
    first [reflexivity | discriminate H | exfalso; apply Hne; reflexivity].
Qed.

(** *** What an iteration does, away from a percent sign *)

Definition at_cursor (lx : Lexer) (t : Token) : Prop :=
  line t = cur_line lx /\ column t = cur_column lx.

(** How the value of the token relates to the text [pre] consumed for it. *)
Definition reads (t : Token) (pre : string) : Prop :=
  match type t with
  | STRING => exists body, pre = String QUOTE body
  | COMMENT => value t = pre /\ exists body, pre = String "/" body
  | EOF => False
  | _ => value t = upper pre /\ free_of NL pre /\ free_of "%" pre
         /\ free_of QUOTE pre
  end.

Lemma classify_value v ln col : value (classify v ln col) = upper v.
Proof.
  unfold classify, Token_new. repeat case_bool_decide; cbn [value];
    try reflexivity.
  destruct (isdigit v) eqn:Hd; cbn [value]; [|reflexivity].
  symmetry. now apply isdigit_upper_id.
Qed.

Lemma classify_word_type v ln col :
  is_word_type (type (classify v ln col)) = true.
Proof.
  unfold classify, Token_new. repeat case_bool_decide; cbn [type];
    try reflexivity.
  destruct (isdigit v); reflexivity.
Qed.

Lemma reads_word_type t pre :
  is_word_type (type t) = true ->
  value t = upper pre -> free_of NL pre -> free_of "%" pre ->
  free_of QUOTE pre -> reads t pre.
Proof.
  unfold reads. intros Hty Hv Hn Hp Hq.
  destruct (type t); try discriminate Hty; auto.
Qed.

Lemma classify_ok v ln col :
  v <> EmptyString -> racf_token_ok (classify v ln col).
Proof.
  intros Hv. unfold racf_token_ok. split.
  { now destruct (classify_position v ln col) as (_ & -> & ->). }
  unfold classify, Token_new.
  case_bool_decide as H1; cbn [type value].
  { split; [now apply upper_nonempty|]. now left. }
  case_bool_decide as H2; cbn [type value].
  { split; [now apply upper_nonempty|]. now right. }
  case_bool_decide as H3; cbn [type value].
  { auto. }
  case_bool_decide as H4; cbn [type value].
  { auto. }
  destruct (isdigit v) eqn:Hd; cbn [type value].
  - split; [assumption|]. now rewrite <- (isdigit_upper_id v Hd).
  - rewrite upper_idem, isdigit_upper.
    split; [assumption|]. split; [reflexivity|].
    split; [now apply upper_nonempty|assumption].
Qed.

Lemma here_ok ty v lx :
  match ty with
  | LPAREN => v = "(" | RPAREN => v = ")" | CONTINUATION => v = "-"
  | EOF => v = EmptyString
  | _ => False
  end -> racf_token_ok (here ty v lx).
Proof.
  intros H. unfold racf_token_ok, here, Token_new. cbn [type value column end_column].
  split; [reflexivity|]. destruct ty; try contradiction; assumption.
Qed.

Lemma step_spec lx c s' ot lx' :
  source lx = String c s' -> c <> "%"%char -> step lx = Some (ot, lx') ->
  exists pre,
    consumes (String c pre) (source lx) (cur_line lx) (cur_column lx) lx'
    /\ match ot with
       | Some t => at_cursor lx t /\ racf_token_ok t /\ reads t (String c pre)
       | None => free_of "%" (String c pre)
       end.
Proof.
  intros E Hc. unfold step, current_char. rewrite E.
  assert (Ascii.eqb "%" c = false) as Hpc.
  { destruct (Ascii.eqb "%" c) eqn:X; [|reflexivity].
    apply Ascii.eqb_eq in X. congruence. }
  assert (free_of "%" (String c EmptyString)) as Hfree1.
  { unfold free_of. cbn [char_in]. now rewrite Hpc. }
  assert (consumes (String c EmptyString) (String c s') (cur_line lx)
            (cur_column lx) (advance lx)) as Hadv.
  { unfold advance. rewrite E. apply consumes_cons, consumes_nil. }
  destruct (char_in c SPACE_TAB) eqn:Hws.
  { intros [= <- <-]. unfold skip_whitespace. rewrite E.
    cbn [skip_whitespace_from]. rewrite Hws.
    destruct (skip_whitespace_from_consumes s' (next_line c (cur_line lx))
                (next_column c (cur_column lx))) as (pre & Hp & Ha).
    exists pre. split; [now apply consumes_cons|].
    unfold free_of. cbn [char_in]. rewrite Hpc. cbn [orb].
    apply (all_chars_free (fun c => char_in c SPACE_TAB) "%" pre
             (proj1 percent_tests) Ha). }
  destruct (Ascii.eqb c NL) eqn:Hnl.
  { intros [= <- <-]. exists EmptyString. split; assumption. }
  destruct (Ascii.eqb c "/" && bool_decide (peek lx = Some "*"%char)) eqn:Hcm.
  { apply andb_prop in Hcm as [->%Ascii.eqb_eq Hpk%bool_decide_eq_true_1].
    unfold peek in Hpk. rewrite E in Hpk.
    destruct s' as [|d s'']; [discriminate|]. injection Hpk as ->.
    unfold read_comment, advance. rewrite E. cbn [source cur_line cur_column].
    pose proof (read_comment_from_consumes s''
                  (next_line "*" (next_line "/" (cur_line lx)))
                  (next_column "*" (next_column "/" (cur_column lx)))) as Hp.
    destruct (read_comment_from s'' _ _) as [v lx2]. cbn [fst snd] in Hp.
    intros [= <- <-]. exists (String "*" v).
    split; [now apply consumes_cons, consumes_cons|].
    split; [split; reflexivity|].
    split.
    - split; [reflexivity|]. cbn [type value Token_new]. now exists v.
    - unfold reads. cbn [type value Token_new]. split; [reflexivity|eauto]. }
  destruct (Ascii.eqb c "-") eqn:Hminus.
  { apply Ascii.eqb_eq in Hminus as ->.
    destruct (at_line_end lx); intros [= <- <-]; exists EmptyString;
      (split; [assumption|]); [|assumption].
    split; [split; reflexivity|]. split; [now apply here_ok|].
    unfold reads. cbn. repeat split; reflexivity. }
  destruct (Ascii.eqb c "(") eqn:Hlp.
  { apply Ascii.eqb_eq in Hlp as ->. intros [= <- <-]. exists EmptyString.
    split; [assumption|].
    split; [split; reflexivity|]. split; [now apply here_ok|].
    unfold reads. cbn. repeat split; reflexivity. }
  destruct (Ascii.eqb c ")") eqn:Hrp.
  { apply Ascii.eqb_eq in Hrp as ->. intros [= <- <-]. exists EmptyString.
    split; [assumption|].
    split; [split; reflexivity|]. split; [now apply here_ok|].
    unfold reads. cbn. repeat split; reflexivity. }
  destruct (Ascii.eqb c QUOTE) eqn:Hq.
  { apply Ascii.eqb_eq in Hq as ->.
    unfold read_string, advance. rewrite E. cbn [source cur_line cur_column].
    destruct (read_string_from_consumes _ s'
                (next_line QUOTE (cur_line lx))
                (next_column QUOTE (cur_column lx)) (Nat.le_refl _))
      as (pre & Hp).
    destruct (read_string_from s' _ _) as [v lx2]. cbn [snd] in Hp.
    intros [= <- <-]. exists pre. split; [now apply consumes_cons|].
    split; [split; reflexivity|]. split.
    - split; [reflexivity|exact I].
    - unfold reads. cbn [type Token_new]. eauto. }
  destruct (isalnum c || char_in c "@#$%") eqn:Hw.
  { pose proof (word_start_not_percent c Hw Hc) as Hi.
    unfold read_identifier. rewrite E. cbn [read_word_from]. rewrite Hi.
    destruct (read_word_from_consumes s' (next_line c (cur_line lx))
                (next_column c (cur_column lx))) as [Hp Ha].
    destruct (read_word_from s' _ _) as [v lx2]. cbn [fst snd] in *.
    intros [= <- <-]. exists v. split; [now apply consumes_cons|].
    split.
    { destruct (classify_position (String c v) (cur_line lx) (cur_column lx))
        as (? & ? & _). split; assumption. }
    split; [apply classify_ok; discriminate|].
    assert (all_chars ident_char (String c v) = true) as Hall
      by (cbn [all_chars]; now rewrite Hi).
    apply reads_word_type.
    - apply classify_word_type.
    - apply classify_value.
    - eapply all_chars_free; [|exact Hall]. vm_compute. reflexivity.
    - eapply all_chars_free; [|exact Hall]. vm_compute. reflexivity.
    - eapply all_chars_free; [|exact Hall]. vm_compute. reflexivity. }
  intros [= <- <-]. exists EmptyString. split; assumption.
Qed.

(** *** Invariants of the loop *)

(** An invariant [I] of the cursor that every iteration away from a percent
    sign keeps, with a property [P] of the tokens appended on the way: a
    returned list is made of tokens that satisfy [P], followed by the EOF
    token appended at a cursor that satisfies [I] at the end of the text. *)
Lemma tokenize_loop_invariant (I : Lexer -> Prop) (P : Token -> Prop) :
  (forall lx c s' ot lx',
      I lx -> source lx = String c s' -> c <> "%"%char ->
      step lx = Some (ot, lx') ->
      I lx' /\ forall t, ot = Some t -> P t) ->
  forall fuel lx toks,
    I lx -> tokenize_loop fuel lx = Some toks ->
    exists body lx_end,
      toks = (body ++ [here EOF EmptyString lx_end])%list
      /\ Forall P body /\ I lx_end /\ source lx_end = EmptyString.
Proof.
  intros Hstep. induction fuel as [|fuel IH]; intros lx toks HI H;
    [discriminate|].
  rewrite tokenize_loop_step in H.
  destruct (source lx) as [|c s'] eqn:E.
  - unfold step, current_char in H. rewrite E in H. injection H as <-.
    exists [], lx. repeat split; [constructor|assumption..].
  - destruct (decide (c = "%"%char)) as [->|Hc].
    { destruct (step_at_percent lx s' E) as (t & lx' & Hs & E').
      rewrite Hs in H. cbn [emit] in H.
      now rewrite (stuck_at_percent fuel lx' s' E') in H. }
    destruct (step lx) as [[ot lx']|] eqn:Hs.
    + destruct (Hstep lx c s' ot lx' HI E Hc Hs) as [HI' HP].
      destruct ot as [t|]; cbn [emit] in H.
      * destruct (tokenize_loop fuel lx') as [rest|] eqn:Hr; [|discriminate].
        injection H as <-.
        destruct (IH lx' rest HI' Hr) as (body & lx_end & -> & Hb & He & Hs').
        exists (t :: body), lx_end.
        split; [reflexivity|]. split; [|split; assumption].
        constructor; [now apply HP|assumption].
      * now apply (IH lx').
    + unfold step, current_char in Hs. rewrite E in Hs. discriminate.
Qed.

End ServerLexerSteps.

(** ** When the server's lexer returns *)

Module ServerLexerRuns.
Import RacfServer ServerLexerFacts CharFacts ServerLexerSteps.

Lemma append_length (a b : string) :
  String.length (a ++ b) = String.length a + String.length b.
Proof.
  induction a as [|c a IH]; [reflexivity|].
  rewrite append_cons. cbn [String.length]. now rewrite IH.
Qed.

Lemma step_some lx c s' :
  source lx = String c s' -> exists ot lx', step lx = Some (ot, lx').
Proof.
  intros E. unfold step, current_char. rewrite E.
  match goal with |- exists ot lx', Some ?p = _ => exists p.1, p.2 end.
  now rewrite <- surjective_pairing.
Qed.

Lemma emit_is_Some ot r : is_Some r -> is_Some (emit ot r).
Proof. intros [l ->]. destruct ot; cbn; eauto. Qed.

Lemma tokenize_loop_returns fuel : forall lx,
  free_of "%" (source lx) -> String.length (source lx) < fuel ->
  is_Some (tokenize_loop fuel lx).
Proof.
  induction fuel as [|fuel IH]; intros lx Hfree Hlen; [lia|].
  rewrite tokenize_loop_step.
  destruct (source lx) as [|c s'] eqn:E.
  - unfold step, current_char. rewrite E. eauto.
  - destruct (step_some lx c s' E) as (ot & lx' & Hs). rewrite Hs.
    assert (c <> "%"%char) as Hc.
    { intros ->. apply free_of_cons in Hfree as [Hx _]. discriminate Hx. }
    destruct (step_spec lx c s' ot lx' E Hc Hs) as (pre & [Ht _ _] & _).
    apply emit_is_Some, IH.
    + rewrite E in Ht. rewrite Ht in Hfree.
      now apply free_of_app_inv in Hfree as [_ ?].
    + rewrite E in Ht. apply (f_equal String.length) in Ht.
      rewrite append_length in Ht. cbn [String.length] in *. lia.
Qed.

Lemma tokenize_loop_mono fuel : forall lx toks,
  tokenize_loop fuel lx = Some toks -> tokenize_loop (S fuel) lx = Some toks.
Proof.
  induction fuel as [|fuel IH]; intros lx toks H; [discriminate|].
  rewrite tokenize_loop_step in H. rewrite tokenize_loop_step.
  destruct (step lx) as [[ot lx']|]; [|exact H].
  destruct ot as [t|]; cbn [emit] in *.
  - destruct (tokenize_loop fuel lx') as [rest|] eqn:Hr; [|discriminate].
    now rewrite (IH lx' rest Hr).
  - now apply IH.
Qed.

Lemma tokenize_loop_mono_le f f' lx toks :
  f <= f' -> tokenize_loop f lx = Some toks -> tokenize_loop f' lx = Some toks.
Proof.
  induction 1 as [|f' Hle IH]; [auto|]. intros H.
  now apply tokenize_loop_mono, IH.
Qed.

(** X9.  On a source text without a percent sign the server's lexer returns:
    every iteration of the main loop consumes at least one character, so the
    loop ends within [len(source) + 1] iterations, and allowing more
    iterations does not change the tokens. *)
Theorem server_tokenize_returns_without_percent (src : string) :
  char_in "%" src = false ->
  exists toks,
    forall fuel, String.length src < fuel -> tokenize fuel src = Some toks.
Proof.
  intros Hfree.
  destruct (tokenize_loop_returns (S (String.length src)) (Lexer_init src)
              Hfree ltac:(cbn; lia)) as [toks Htoks].
  exists toks. intros fuel Hf. unfold tokenize.
  apply (tokenize_loop_mono_le (S (String.length src))); [lia|exact Htoks].
Qed.

Lemma server_tokenize_returns_without_percent_witness :
  char_in "%" "AU (U1) /* 100 */ OMVS(UID(7))" = false
  /\ exists toks,
       forall fuel, String.length "AU (U1) /* 100 */ OMVS(UID(7))" < fuel ->
                    tokenize fuel "AU (U1) /* 100 */ OMVS(UID(7))" = Some toks.
Proof.
  split; [reflexivity|].
  exact (server_tokenize_returns_without_percent
           "AU (U1) /* 100 */ OMVS(UID(7))" eq_refl).
Defined.

(** *** A percent sign outside string literals and comments *)

Lemma split_at_percent pre : forall a r s,
  pre ++ r = a ++ String "%" s -> free_of "%" pre ->
  exists w, a = pre ++ w /\ r = w ++ String "%" s.
Proof.
  induction pre as [|p pre IH]; intros a r s E Hfree.
  - exists a. split; [reflexivity|exact E].
  - apply free_of_cons in Hfree as [Hp Hfree].
    rewrite append_cons in E. destruct a as [|x a].
    + injection E as -> _. discriminate Hp.
    + rewrite append_cons in E. injection E as -> E.
      destruct (IH a r s E Hfree) as (w & -> & ->).
      exists w. split; [now rewrite append_cons|reflexivity].
Qed.

Lemma emit_None ot : emit ot None = None.
Proof. now destruct ot. Qed.

Lemma tokenize_loop_hangs fuel : forall lx w s,
  source lx = w ++ String "%" s ->
  free_of QUOTE w -> free_of "/" w ->
  tokenize_loop fuel lx = None.
Proof.
  induction fuel as [|fuel IH]; intros lx w s E Hq Hs; [reflexivity|].
  destruct w as [|c w].
  { now apply (stuck_at_percent _ lx s). }
  rewrite append_cons in E.
  destruct (decide (c = "%"%char)) as [->|Hc].
  { now apply (stuck_at_percent _ lx (w ++ String "%" s)). }
  rewrite tokenize_loop_step.
  destruct (step_some lx c _ E) as (ot & lx' & Hstep). rewrite Hstep.
  destruct (step_spec lx c _ ot lx' E Hc Hstep) as (pre & [Ht _ _] & Hot).
  apply free_of_cons in Hq as [Hqc Hq]. apply free_of_cons in Hs as [Hsc Hs].
  assert (free_of "%" (String c pre)) as Hfree.
  { destruct ot as [t|]; [|exact Hot].
    destruct Hot as (_ & _ & Hr). unfold reads in Hr.
    destruct (type t); try apply Hr; try contradiction.
    - destruct Hr as [body [= -> _]]. discriminate Hqc.
    - destruct Hr as (_ & body & [= -> _]). discriminate Hsc. }
  apply free_of_cons in Hfree as [_ Hfree].
  rewrite E, append_cons in Ht. injection Ht as Ht. symmetry in Ht.
  destruct (split_at_percent pre w (source lx') s Ht Hfree) as (w' & -> & E').
  apply free_of_app_inv in Hq as [_ Hq]. apply free_of_app_inv in Hs as [_ Hs].
  rewrite (IH lx' w' s E' Hq Hs). apply emit_None.
Qed.

(** X10.  A percent sign that is reached outside a string literal or a
    comment hangs the server's lexer.  If no quote and no slash comes before
    the first percent sign of the text, [tokenize] does not return, whatever
    follows the percent sign. *)
Theorem server_tokenize_hangs_at_percent (w s : string) :
  char_in QUOTE w = false -> char_in "/" w = false ->
  forall fuel, tokenize fuel (w ++ String "%" s) = None.
Proof.
  intros Hq Hs fuel. unfold tokenize.
  now apply (tokenize_loop_hangs fuel (Lexer_init _) w s).
Qed.

Lemma server_tokenize_hangs_at_percent_witness :
  tokenize 1000 "ADDUSER (U1) DATA(50% done)" = None.
Proof.
  exact (server_tokenize_hangs_at_percent "ADDUSER (U1) DATA(50" " done)"
           eq_refl eq_refl 1000).
Defined.

End ServerLexerRuns.

(** ** Where the server's tokens are in the text *)

Module ServerTokenPlaces.
Import RacfServer ServerLexerFacts CharFacts ServerLexerSteps ServerLexerRuns
       DocumentFacts.

Local Open Scope Z_scope.

(** The token [t] was read from the piece [pre] of the text, which starts
    where [before] ends. *)
Definition located (text : string) (t : Token) : Prop :=
  exists before pre rest,
    text = before ++ pre ++ rest
    /\ line t = line_after 0 before /\ column t = column_after 0 before
    /\ racf_token_ok t /\ reads t pre.

Definition at_pos (text : string) (lx : Lexer) : Prop :=
  exists before, consumes before text 0 0 lx.

Lemma append_empty_r (s : string) : s ++ EmptyString = s.
Proof.
  induction s as [|c s IH]; [reflexivity|]. rewrite append_cons. now rewrite IH.
Qed.

Lemma step_located text lx c s' ot lx' :
  at_pos text lx -> source lx = String c s' -> c <> "%"%char ->
  step lx = Some (ot, lx') ->
  at_pos text lx' /\ forall t, ot = Some t -> located text t.
Proof.
  intros [before Hb] E Hc Hs.
  destruct (step_spec lx c s' ot lx' E Hc Hs) as (pre & Hp & Hot).
  split.
  - exists (before ++ String c pre). now apply (consumes_app _ _ _ _ _ lx).
  - intros t ->. destruct Hot as ([Hl Hcol] & Hok & Hr).
    destruct Hb as [Hbt Hbl Hbc]. destruct Hp as [Hpt _ _].
    exists before, (String c pre), (source lx').
    split; [now rewrite <- Hpt|].
    split; [congruence|]. split; [congruence|]. split; assumption.
Qed.

Lemma tokenize_located fuel text toks :
  tokenize fuel text = Some toks ->
  exists body,
    toks = (body ++ [Token_new EOF EmptyString (line_after 0 text)
                               (column_after 0 text)])%list
    /\ Forall (located text) body.
Proof.
  intros H. unfold tokenize in H.
  destruct (tokenize_loop_invariant (at_pos text) (located text)
              (step_located text) fuel (Lexer_init text) toks)
    as (body & lx_end & -> & Hbody & [before [Ht Hl Hc]] & Hend);
    [exists EmptyString; apply consumes_nil | exact H |].
  exists body. split; [|exact Hbody].
  rewrite Hend, append_empty_r in Ht. subst before.
  unfold here. now rewrite Hl, Hc.
Qed.

(** *** Lines and columns are not negative *)

Lemma line_after_ge pre : forall ln, ln <= line_after ln pre.
Proof.
  induction pre as [|c pre IH]; intros ln; cbn [line_after]; [lia|].
  specialize (IH (next_line c ln)). unfold next_line in *.
  destruct (Ascii.eqb c NL); lia.
Qed.

Lemma column_after_nonneg pre : forall col, 0 <= col -> 0 <= column_after col pre.
Proof.
  induction pre as [|c pre IH]; intros col Hc; cbn [column_after]; [lia|].
  apply IH. unfold next_column. destruct (Ascii.eqb c NL); lia.
Qed.

Lemma located_ok text t :
  located text t -> racf_token_ok t /\ 0 <= line t /\ 0 <= column t.
Proof.
  intros (before & pre & rest & _ & -> & -> & Hok & _).
  split; [exact Hok|]. split; [apply line_after_ge|].
  now apply column_after_nonneg.
Qed.

Lemma tokenize_tokens_ok fuel src toks :
  tokenize fuel src = Some toks -> Forall racf_token_ok toks.
Proof.
  intros (body & -> & Hbody)%tokenize_located.
  apply Forall_app. split.
  - eapply Forall_impl; [exact Hbody|]. intros t Ht.
    exact (proj1 (located_ok _ _ Ht)).
  - constructor; [|constructor]. split; reflexivity.
Qed.

Lemma document_lines fuel u text doc :
  RACFDocument_new fuel u text = Some doc -> lines doc = split_lines text.
Proof.
  unfold RACFDocument_new. destruct (tokenize fuel text); [|discriminate].
  cbn. now intros [= <-].
Qed.

(** X11.  Every token the server's lexer returns is well formed.  Its
    [end_column] is its column plus the length of its value, its line and
    column are not negative, and its type fixes what its value can be: a
    COMMAND is a non-empty command name or abbreviation, a SEGMENT is a
    segment name that is no command, a KEYWORD is a word of [ALL_KEYWORDS]
    that is neither a command nor a segment name, a NUMBER is a non-empty
    run of digits, an IDENTIFIER is a non-empty upper-case word outside
    [ALL_KEYWORDS], a COMMENT starts with slash-star.  In particular the
    COMMAND token with an empty value, which the empty abbreviation of
    RACDCERT allows, is in no returned list. *)
Theorem server_tokens_well_formed fuel (src : string) (toks : list Token) :
  tokenize fuel src = Some toks ->
  Forall (fun t => racf_token_ok t /\ 0 <= line t /\ 0 <= column t) toks.
Proof.
  intros (body & -> & Hbody)%tokenize_located.
  apply Forall_app. split.
  - eapply Forall_impl; [exact Hbody|]. intros t. apply located_ok.
  - constructor; [|constructor]. cbn [line column Token_new].
    split; [split; reflexivity|].
    split; [apply line_after_ge|]. now apply column_after_nonneg.
Qed.

Lemma server_tokens_well_formed_witness :
  let src := "PASSWORD USER(u1) 42 /* x */" in
  let toks :=
    [Token_new COMMAND "PASSWORD" 0 0; Token_new IDENTIFIER "USER" 0 9;
     Token_new LPAREN "(" 0 13; Token_new IDENTIFIER "U1" 0 14;
     Token_new RPAREN ")" 0 16; Token_new NUMBER "42" 0 18;
     Token_new COMMENT "/* x */" 0 21; Token_new EOF EmptyString 0 28] in
  tokenize 40 src = Some toks
  /\ Forall (fun t => racf_token_ok t /\ 0 <= line t /\ 0 <= column t) toks.
Proof.
  intros src toks.
  assert (tokenize 40 src = Some toks) as H by (vm_compute; reflexivity).
  split; [exact H|]. exact (server_tokens_well_formed 40 src toks H).
Defined.

(** *** Lines of the text *)

Fixpoint nl_count (s : string) : nat :=
  match s with
  | EmptyString => 0
  | String c s' => ((if Ascii.eqb c NL then 1 else 0) + nl_count s')%nat
  end.

Lemma line_after_count s : forall ln,
  line_after ln s = ln + Z.of_nat (nl_count s).
Proof.
  induction s as [|c s IH]; intros ln; cbn [line_after nl_count]; [lia|].
  rewrite IH. unfold next_line. destruct (Ascii.eqb c NL); lia.
Qed.

Lemma nl_count_app a b : nl_count (a ++ b) = (nl_count a + nl_count b)%nat.
Proof.
  induction a as [|c a IH]; [reflexivity|].
  rewrite append_cons. cbn [nl_count]. rewrite IH. lia.
Qed.

Lemma split_lines_cons c s :
  split_lines (String c s)
  = if Ascii.eqb c NL then EmptyString :: split_lines s
    else match split_lines s with
         | l :: ls => String c l :: ls
         | [] => [String c EmptyString]
         end.
Proof. reflexivity. Qed.

Lemma split_lines_length s : length (split_lines s) = S (nl_count s).
Proof.
  induction s as [|c s IH]; [reflexivity|].
  rewrite split_lines_cons. cbn [nl_count].
  destruct (Ascii.eqb c NL); [cbn [length]; now rewrite IH|].
  destruct (split_lines s) as [|l ls]; [discriminate IH|].
  cbn [length] in *. lia.
Qed.

Lemma located_line text t :
  located text t -> 0 <= line t < Z.of_nat (length (split_lines text)).
Proof.
  intros (before & pre & rest & -> & -> & _).
  rewrite split_lines_length, line_after_count, !nl_count_app. lia.
Qed.

Lemma located_not_eof text t : located text t -> type t <> EOF.
Proof.
  intros (before & pre & rest & _ & _ & _ & _ & Hr) Hty.
  unfold reads in Hr. now rewrite Hty in Hr.
Qed.

Lemma find_end_line_cases rest : forall e,
  find_end_line rest e = e
  \/ exists u, u ∈ rest /\ find_end_line rest e = line u.
Proof.
  induction rest as [|t rest IH]; intros e; cbn [find_end_line]; [now left|].
  case_decide; [now left|]. case_decide; [now left|].
  right. destruct (IH (line t)) as [->|(u & Hu & ->)].
  - exists t. split; [constructor|reflexivity].
  - exists u. split; [now constructor|reflexivity].
Qed.

Lemma detect_commands_lines (lo hi : Z) toks :
  Forall (fun t => lo <= line t < hi) toks ->
  Forall (fun c => lo <= cmd_line c < hi /\ lo <= end_line c < hi)
         (detect_commands toks).
Proof.
  induction toks as [|t toks IH]; intros H; [constructor|].
  apply Forall_cons_1 in H as [Ht H]. cbn [detect_commands].
  case_decide; [|now apply IH]. constructor; [|now apply IH].
  cbn [cmd_line end_line RACFCommand_new]. split; [exact Ht|].
  destruct (find_end_line_cases toks (line t)) as [->|(u & Hu & ->)];
    [exact Ht|].
  rewrite Forall_forall in H. now apply H.
Qed.

Lemma document_line_bounds fuel (u text : string) (doc : RACFDocument) :
  RACFDocument_new fuel u text = Some doc ->
  let n := Z.of_nat (length (lines doc)) in
  Forall (fun t => 0 <= line t < n) (tokens doc)
  /\ Forall (fun c => 0 <= cmd_line c /\ cmd_line c <= end_line c
                      /\ end_line c < n) (commands doc)
  /\ exists body eof,
       tokens doc = (body ++ [eof])%list /\ type eof = EOF
       /\ Forall (fun t => type t <> EOF) body /\ line eof = n - 1.
Proof.
  intros Hdoc n.
  destruct (document_tokens _ _ _ _ Hdoc) as [Htok Hcmd].
  assert (lines doc = split_lines text) as Hlines.
  { unfold RACFDocument_new in Hdoc.
    destruct (tokenize fuel text); [|discriminate].
    cbn in Hdoc. now injection Hdoc as <-. }
  pose proof (tokenize_started _ _ _ Htok) as Hsorted.
  destruct (tokenize_located _ _ _ Htok) as (body & Hbody & Hloc).
  assert (Forall (fun t => 0 <= line t < n) (tokens doc)) as Hlines_ok.
  { rewrite Hbody. apply Forall_app. split.
    - eapply Forall_impl; [exact Hloc|]. intros t Ht. unfold n.
      rewrite Hlines. now apply located_line.
    - constructor; [|constructor]. cbn [line Token_new]. unfold n.
      rewrite Hlines, split_lines_length, line_after_count. lia. }
  split; [exact Hlines_ok|]. split.
  - rewrite Hcmd.
    pose proof (detect_commands_lines 0 n _ Hlines_ok) as H1.
    destruct (detect_commands_spans (tokens doc)
                (precedes_line_le _ Hsorted)) as [H2 _].
    rewrite Forall_forall in *. intros c Hc.
    specialize (H1 c Hc). specialize (H2 c Hc). cbn beta in *. lia.
  - eexists body, _. split; [exact Hbody|]. split; [reflexivity|].
    split.
    + eapply Forall_impl; [exact Hloc|]. intros t. apply located_not_eof.
    + cbn [line Token_new]. unfold n.
      rewrite Hlines, split_lines_length, line_after_count. lia.
Qed.

(** X12.  Every line number the document stores is an index into
    [doc.lines].  The line of each token and the start and end line of each
    command lie between zero and [len(doc.lines) - 1], and the EOF token, the
    last and only one of its type, is on the last line.  So [handle_document_symbol]
    always takes the branch [cmd.end_line < len(doc.lines)]. *)
Theorem document_lines_in_range fuel (u text : string) (doc : RACFDocument) :
  RACFDocument_new fuel u text = Some doc ->
  let n := Z.of_nat (length (lines doc)) in
  Forall (fun t => 0 <= line t < n) (tokens doc)
  /\ Forall (fun c => 0 <= cmd_line c /\ cmd_line c <= end_line c
                      /\ end_line c < n) (commands doc)
  /\ exists body eof,
       tokens doc = (body ++ [eof])%list /\ type eof = EOF
       /\ Forall (fun t => type t <> EOF) body /\ line eof = n - 1.
Proof. apply document_line_bounds. Qed.

Lemma document_lines_in_range_witness :
  exists doc,
    RACFDocument_new 40 "file:///a.racf"
      (String "A" (String "U" (String NL "(U1)"))) = Some doc
    /\ Forall (fun t => 0 <= line t < Z.of_nat (length (lines doc)))
              (tokens doc)
    /\ Forall (fun c => 0 <= cmd_line c /\ cmd_line c <= end_line c
                        /\ end_line c < Z.of_nat (length (lines doc)))
              (commands doc)
    /\ exists body eof,
         tokens doc = (body ++ [eof])%list /\ type eof = EOF
         /\ Forall (fun t => type t <> EOF) body
         /\ line eof = Z.of_nat (length (lines doc)) - 1.
Proof.
  eexists. split; [vm_compute; reflexivity|].
  refine (document_lines_in_range 40 "file:///a.racf"
            (String "A" (String "U" (String NL "(U1)"))) _ _).
  vm_compute. reflexivity.
Defined.

(** *** The text under a token *)

Fixpoint first_line (s : string) : string :=
  match s with
  | EmptyString => EmptyString
  | String c s' => if Ascii.eqb c NL then EmptyString else String c (first_line s')
  end.

(** The last line of [acc ++ pre], for an [acc] without newline. *)
Fixpoint last_line_acc (acc pre : string) : string :=
  match pre with
  | EmptyString => acc
  | String c p =>
      if Ascii.eqb c NL then last_line_acc EmptyString p
      else last_line_acc (acc ++ String c EmptyString) p
  end.

Lemma split_lines_first s :
  exists ls, split_lines s = first_line s :: ls.
Proof.
  induction s as [|c s [ls IH]]; [now exists []|].
  rewrite split_lines_cons. cbn [first_line].
  destruct (Ascii.eqb c NL); [eauto|]. rewrite IH. eauto.
Qed.

Lemma first_line_app a b :
  free_of NL a -> first_line (a ++ b) = a ++ first_line b.
Proof.
  induction a as [|c a IH]; intros Ha; [reflexivity|].
  apply free_of_cons in Ha as [Hc Ha]. rewrite !append_cons.
  cbn [first_line]. rewrite Ascii.eqb_sym, Hc. now rewrite IH.
Qed.

Lemma split_lines_at_newline a r :
  free_of NL a -> split_lines (a ++ String NL r) = a :: split_lines r.
Proof.
  induction a as [|c a IH]; intros Ha.
  - change (EmptyString ++ String NL r) with (String NL r).
    rewrite split_lines_cons. now rewrite Ascii.eqb_refl.
  - apply free_of_cons in Ha as [Hc Ha]. rewrite append_cons.
    rewrite split_lines_cons, Ascii.eqb_sym, Hc. now rewrite IH.
Qed.

Lemma free_of_snoc d a c :
  free_of d a -> Ascii.eqb d c = false -> free_of d (a ++ String c EmptyString).
Proof.
  intros Ha Hc. apply free_of_app; [exact Ha|].
  unfold free_of. cbn [char_in]. now rewrite Hc.
Qed.

Lemma split_lines_lookup pre : forall acc rest,
  free_of NL acc ->
  split_lines (acc ++ pre ++ rest) !! nl_count pre
  = Some (last_line_acc acc pre ++ first_line rest).
Proof.
  induction pre as [|c pre IH]; intros acc rest Hacc.
  - change (EmptyString ++ rest) with rest. cbn [nl_count last_line_acc].
    destruct (split_lines_first (acc ++ rest)) as [ls ->].
    cbn. now rewrite first_line_app.
  - rewrite append_cons. cbn [nl_count last_line_acc].
    destruct (Ascii.eqb c NL) eqn:Hc.
    + apply Ascii.eqb_eq in Hc as ->.
      rewrite split_lines_at_newline by assumption.
      cbn [Nat.add lookup list_lookup].
      apply (IH EmptyString rest). reflexivity.
    + cbn [Nat.add].
      replace (acc ++ String c (pre ++ rest))
        with ((acc ++ String c EmptyString) ++ pre ++ rest)
        by now rewrite append_assoc.
      apply IH. apply free_of_snoc; [assumption|].
      now rewrite Ascii.eqb_sym.
Qed.

Lemma column_after_last_line pre : forall acc,
  column_after (len acc) pre = len (last_line_acc acc pre).
Proof.
  induction pre as [|c pre IH]; intros acc; [reflexivity|].
  cbn [column_after last_line_acc]. unfold next_column.
  destruct (Ascii.eqb c NL).
  - apply (IH EmptyString).
  - rewrite <- IH. f_equal. unfold len. rewrite append_length.
    cbn [String.length]. lia.
Qed.

Lemma substring_middle a : forall w b,
  substring (String.length a) (String.length w) (a ++ w ++ b) = w.
Proof.
  induction a as [|c a IH]; intros w b.
  - change (EmptyString ++ w ++ b) with (w ++ b). cbn [String.length].
    induction w as [|x w IHw].
    + now destruct b.
    + rewrite append_cons. cbn [String.length substring]. now rewrite IHw.
  - rewrite append_cons. cbn [String.length substring]. apply IH.
Qed.

Lemma located_text text before pre rest t :
  text = before ++ pre ++ rest -> free_of NL pre ->
  line t = line_after 0 before -> column t = column_after 0 before ->
  end_column t = column t + len pre ->
  (l ← split_lines text !! Z.to_nat (line t);
   Some (substring (Z.to_nat (column t)) (Z.to_nat (end_column t - column t)) l))
  = Some pre.
Proof.
  intros -> Hpre Hl Hc He.
  rewrite Hl, line_after_count, Z.add_0_l, Nat2Z.id.
  pose proof (split_lines_lookup before EmptyString (pre ++ rest) eq_refl)
    as Hlook.
  change (EmptyString ++ before ++ pre ++ rest)
    with (before ++ pre ++ rest) in Hlook.
  rewrite Hlook. cbn [mbind option_bind]. f_equal.
  rewrite first_line_app by assumption.
  rewrite He, Hc. change 0 with (len EmptyString).
  rewrite column_after_last_line.
  replace (len (last_line_acc EmptyString before) + len pre
           - len (last_line_acc EmptyString before)) with (len pre) by lia.
  unfold len. rewrite !Nat2Z.id. apply substring_middle.
Qed.

Lemma isascii_app a b :
  isascii (a ++ b) = true -> isascii a = true /\ isascii b = true.
Proof.
  induction a as [|c a IH]; [auto|]. rewrite append_cons. cbn [isascii].
  intros [Hc Hab]%andb_prop. destruct (IH Hab) as [Ha Hb].
  now rewrite Hc, Ha.
Qed.

Lemma located_word_text text t :
  isascii text = true ->
  located text t -> is_word_type (type t) = true ->
  exists w,
    (l ← split_lines text !! Z.to_nat (line t);
     Some (substring (Z.to_nat (column t))
                     (Z.to_nat (end_column t - column t)) l)) = Some w
    /\ upper w = value t.
Proof.
  intros Ha (before & pre & rest & Ht & Hl & Hc & [He _] & Hr) Hty.
  assert (isascii pre = true) as Hpre.
  { rewrite Ht in Ha. apply isascii_app in Ha as [_ Ha].
    now apply isascii_app in Ha as [Ha _]. }
  assert (value t = upper pre /\ free_of NL pre) as [Hv Hnl].
  { unfold reads in Hr. destruct (type t); try discriminate Hty;
      destruct Hr as (? & ? & _); split; assumption. }
  exists pre. split; [|now rewrite Hv].
  apply (located_text text before pre rest); try assumption.
  rewrite He, Hv, len_upper by assumption. reflexivity.
Qed.

Lemma located_comment_text text t :
  located text t -> type t = COMMENT -> char_in NL (value t) = false ->
  (l ← split_lines text !! Z.to_nat (line t);
   Some (substring (Z.to_nat (column t))
                   (Z.to_nat (end_column t - column t)) l)) = Some (value t).
Proof.
  intros (before & pre & rest & Ht & Hl & Hc & [He _] & Hr) Hty Hnl.
  unfold reads in Hr. rewrite Hty in Hr. destruct Hr as [Hv _].
  rewrite Hv in *.
  now apply (located_text text before pre rest).
Qed.

(** X13.  In a document built from ASCII text the position of a token points
    at its text.  For every token that is a command, keyword, segment name,
    identifier, number, parenthesis or continuation marker, the slice
    [doc.lines[line][column:end_column]] is the word the token was read from:
    upper-cased, it is the token's value.  For a comment that does not span
    lines the slice is the value itself. *)
Theorem token_position_points_at_text fuel (u text : string)
    (doc : RACFDocument) :
  isascii text = true ->
  RACFDocument_new fuel u text = Some doc ->
  Forall (fun t =>
            (is_word_type (type t) = true ->
             exists w, token_text doc t = Some w /\ upper w = value t)
            /\ (type t = COMMENT -> char_in NL (value t) = false ->
                token_text doc t = Some (value t)))
         (tokens doc).
Proof.
  intros Hascii Hdoc.
  destruct (document_tokens _ _ _ _ Hdoc) as [Htok _].
  assert (lines doc = split_lines text) as Hlines.
  { unfold RACFDocument_new in Hdoc.
    destruct (tokenize fuel text); [|discriminate].
    cbn in Hdoc. now injection Hdoc as <-. }
  destruct (tokenize_located _ _ _ Htok) as (body & -> & Hloc).
  apply Forall_app. split.
  - eapply Forall_impl; [exact Hloc|]. intros t Ht. unfold token_text.
    rewrite Hlines. split.
    + now apply located_word_text.
    + now apply located_comment_text.
  - constructor; [|constructor]. cbn [type Token_new].
    split; [discriminate|discriminate].
Qed.

Lemma token_position_points_at_text_witness :
  exists doc,
    RACFDocument_new 40 "file:///a.racf"
      (String "a" (String "u" (String NL "  (u1) /* x */"))) = Some doc
    /\ Forall (fun t =>
                 (is_word_type (type t) = true ->
                  exists w, token_text doc t = Some w /\ upper w = value t)
                 /\ (type t = COMMENT -> char_in NL (value t) = false ->
                     token_text doc t = Some (value t)))
              (tokens doc).
Proof.
  eexists. split; [vm_compute; reflexivity|].
  refine (token_position_points_at_text 40 "file:///a.racf"
            (String "a" (String "u" (String NL "  (u1) /* x */"))) _
            eq_refl _).
  vm_compute. reflexivity.
Defined.

(** Beyond ASCII the slice can miss the word: the token read at a sharp s
    has the value SS and the span of two columns, which takes in the
    parenthesis after it. *)
Example sharp_s_token_text :
  exists doc t rest,
    RACFDocument_new 8 "file:///a.racf" (String "223" "(x") = Some doc
    /\ tokens doc = t :: rest
    /\ value t = "SS"
    /\ token_text doc t = Some (String "223" "(")
    /\ upper (String "223" "(") = "SS(".
Proof.
  do 3 eexists. split; [vm_compute; reflexivity|].
  repeat split; reflexivity.
Qed.

End ServerTokenPlaces.

(** ** Hover *)

Module HoverFacts.
Import RacfServer ServerLexerFacts CharFacts ServerLexerSteps
       ServerTokenPlaces DocumentFacts.

Local Open Scope Z_scope.

(** The tables with descriptions have the key lists of the lexer as keys. *)
Lemma items_keys :
  map (fun e => (fst e, fst (snd e))) RACF_COMMANDS_items = RACF_COMMANDS
  /\ map fst BASE_KEYWORDS_items = BASE_KEYWORDS
  /\ map fst SEGMENTS_items = SEGMENTS
  /\ map fst OMVS_KEYWORDS_items = OMVS_KEYWORDS
  /\ map fst TSO_KEYWORDS_items = TSO_KEYWORDS
  /\ map fst ACCESS_LEVELS_items = ACCESS_LEVELS
  /\ map fst RESOURCE_CLASSES_items = RESOURCE_CLASSES.
Proof. repeat split; reflexivity. Qed.

(** The keywords of [ALL_KEYWORDS] that no table of [handle_hover] holds:
    the group authorities that are not commands, and the words the lexer
    adds at the end of [ALL_KEYWORDS]. *)
Definition UNDOCUMENTED_KEYWORDS : list string :=
  ["USE"; "CREATE"; "JOIN"; "CLASS"; "ID"; "ACCESS"; "AUDIT"; "ALL"; "MASK";
   "REFRESH"; "HISTORY"; "INTERVAL"; "CLASSACT"; "RACLIST"; "GID"; "SUPGROUP"].

(** Every word [hover_word] can answer for. *)
Definition hover_keys : list string :=
  (map fst RACF_COMMANDS_items
   ++ map (fun e => fst (snd e)) RACF_COMMANDS_items
   ++ map fst BASE_KEYWORDS_items ++ map fst SEGMENTS_items
   ++ map fst OMVS_KEYWORDS_items ++ map fst TSO_KEYWORDS_items
   ++ map fst ACCESS_LEVELS_items ++ map fst RESOURCE_CLASSES_items)%list.

Lemma dict_get_Some_key {V} (d : list (string * V)) k v :
  dict_get d k = Some v -> k ∈ map fst d.
Proof.
  unfold dict_get. destruct (List.find _ d) as [[k' v']|] eqn:E;
    [|discriminate].
  intros _. apply find_some in E as [Hin Heq]. cbn in Heq.
  apply String.eqb_eq in Heq. subst k'.
  apply list_elem_of_In. now apply (in_map fst) in Hin.
Qed.

Lemma hover_word_key w r : hover_word w = Some r -> w ∈ hover_keys.
Proof.
  unfold hover_word, hover_keys. intros H. rewrite !elem_of_app.
  destruct (dict_get RACF_COMMANDS_items w) as [[a d]|] eqn:E1.
  { apply dict_get_Some_key in E1. auto. }
  destruct (List.find _ RACF_COMMANDS_items) as [[c [a d]]|] eqn:E2.
  { apply find_some in E2 as [Hin Heq]. cbn in Heq.
    apply String.eqb_eq in Heq. subst w. right. left.
    apply list_elem_of_In.
    now apply (in_map (fun e : string * (string * string) => fst (snd e)))
      in Hin. }
  destruct (dict_get BASE_KEYWORDS_items w) eqn:E3.
  { apply dict_get_Some_key in E3. auto. }
  destruct (dict_get SEGMENTS_items w) eqn:E4.
  { apply dict_get_Some_key in E4. auto. }
  destruct (dict_get OMVS_KEYWORDS_items w) eqn:E5.
  { apply dict_get_Some_key in E5. auto 10. }
  destruct (dict_get TSO_KEYWORDS_items w) eqn:E6.
  { apply dict_get_Some_key in E6. auto 10. }
  destruct (dict_get ACCESS_LEVELS_items w) eqn:E7.
  { apply dict_get_Some_key in E7. auto 10. }
  destruct (dict_get RESOURCE_CLASSES_items w) eqn:E8.
  { apply dict_get_Some_key in E8. auto 10. }
  discriminate.
Qed.

Lemma hover_keys_known :
  Forall (fun k => k = EmptyString \/ k ∈ ALL_KEYWORDS) hover_keys.
Proof. apply (bool_decide_unpack _). vm_compute. exact I. Qed.

Lemma hover_keys_no_slash :
  Forall (fun k => startswith k "/" = false) hover_keys.
Proof. apply (bool_decide_unpack _). vm_compute. exact I. Qed.

Lemma command_hover :
  Forall (fun v => v = EmptyString \/ is_Some (hover_word (upper v)))
         (map fst RACF_COMMANDS ++ map snd RACF_COMMANDS)%list.
Proof. apply (bool_decide_unpack _). vm_compute. exact I. Qed.

Lemma segment_hover :
  Forall (fun v => is_Some (hover_word (upper v))) SEGMENTS.
Proof. apply (bool_decide_unpack _). vm_compute. exact I. Qed.

Lemma keyword_hover :
  Forall (fun v =>
    v ∈ map fst RACF_COMMANDS \/ v ∈ map snd RACF_COMMANDS \/ v ∈ SEGMENTS
    \/ ((v ∈ UNDOCUMENTED_KEYWORDS -> ~ is_Some (hover_word (upper v)))
        /\ (v ∉ UNDOCUMENTED_KEYWORDS -> is_Some (hover_word (upper v)))))
    (elements ALL_KEYWORDS).
Proof. apply (bool_decide_unpack _). vm_compute. exact I. Qed.

Lemma hover_unknown w :
  w <> EmptyString -> w ∉ ALL_KEYWORDS -> hover_word w = None.
Proof.
  intros Hne Hk. destruct (hover_word w) as [r|] eqn:E; [|reflexivity].
  apply hover_word_key in E.
  pose proof hover_keys_known as H. rewrite Forall_forall in H.
  destruct (H w E); contradiction.
Qed.

Lemma isdigit_nonempty v : isdigit v = true -> v <> EmptyString.
Proof. now destruct v. Qed.

(** What [handle_hover] finds for a token of each type. *)
Definition hover_of_type (t : Token) : Prop :=
  let h := hover_word (upper (value t)) in
  match type t with
  | COMMAND | SEGMENT => is_Some h
  | KEYWORD =>
      if bool_decide (value t ∈ UNDOCUMENTED_KEYWORDS) then h = None
      else is_Some h
  | STRING => True
  | EOF => forall ln ch, ~ covers t ln ch
  | _ => h = None
  end.

Lemma token_hover t : racf_token_ok t -> hover_of_type t.
Proof.
  intros [He Hty]. unfold hover_of_type. cbn zeta in *.
  destruct (type t).
  - (* COMMAND *)
    destruct Hty as [Hne Hin].
    pose proof command_hover as H. rewrite Forall_forall in H.
    destruct (H (value t)) as [?|?]; [|contradiction|assumption].
    rewrite elem_of_app. exact Hin.
  - (* KEYWORD *)
    destruct Hty as (Hk & H1 & H2 & H3).
    pose proof keyword_hover as H. rewrite Forall_forall in H.
    destruct (H (value t)) as [?|[?|[?|[Hu Hd]]]];
      [now apply elem_of_elements|contradiction..|].
    case_bool_decide as Hb.
    + apply eq_None_not_Some. auto.
    + auto.
  - (* SEGMENT *)
    destruct Hty as (Hs & _).
    pose proof segment_hover as H. rewrite Forall_forall in H. now apply H.
  - now rewrite Hty.
  - now rewrite Hty.
  - exact I.
  - (* IDENTIFIER *)
    destruct Hty as (Hk & Hu & Hne & _). rewrite Hu.
    now apply hover_unknown.
  - (* NUMBER *)
    destruct Hty as (Hd & Hk). rewrite (isdigit_upper_id _ Hd).
    apply hover_unknown; [now apply isdigit_nonempty|assumption].
  - now rewrite Hty.
  - (* COMMENT *)
    destruct Hty as [body Hv]. rewrite Hv.
    destruct (hover_word _) as [r|] eqn:E; [|reflexivity].
    apply hover_word_key in E.
    pose proof hover_keys_no_slash as H. rewrite Forall_forall in H.
    specialize (H _ E). discriminate H.
  - (* EOF *)
    intros ln ch (_ & H1 & H2). rewrite He, Hty in H2.
    change (len EmptyString) with 0 in H2. lia.
Qed.

(** X14.  What hovering over a token shows depends on the type the lexer
    gave it.  A COMMAND or SEGMENT token always has a hover text.  A KEYWORD
    token has one unless its word is one of sixteen that are in
    [ALL_KEYWORDS] but in none of the tables [handle_hover] consults (USE,
    CREATE, JOIN, CLASS, ID, ACCESS, ...).  An IDENTIFIER, NUMBER,
    parenthesis, continuation or COMMENT token never has one, and the EOF
    token covers no position at all. *)
Theorem hover_by_token_type fuel (src : string) (toks : list Token) t :
  tokenize fuel src = Some toks -> t ∈ toks ->
  let h := hover_word (upper (value t)) in
  match type t with
  | COMMAND | SEGMENT => is_Some h
  | KEYWORD =>
      if bool_decide (value t ∈ UNDOCUMENTED_KEYWORDS) then h = None
      else is_Some h
  | STRING => True
  | EOF => forall ln ch, ~ covers t ln ch
  | _ => h = None
  end.
Proof.
  intros Htok Hin. apply (token_hover t).
  pose proof (tokenize_tokens_ok _ _ _ Htok) as H.
  rewrite Forall_forall in H. now apply H.
Qed.

Lemma hover_by_token_type_witness :
  let src := "PERMIT X CLASS(FACILITY) ID(U1) ACCESS(READ)" in
  exists toks,
    tokenize 50 src = Some toks
    /\ Token_new KEYWORD "CLASS" 0 9 ∈ toks
    /\ hover_word (upper "CLASS") = None.
Proof.
  intros src. eexists. split; [vm_compute; reflexivity|].
  split; [repeat constructor|].
  refine (hover_by_token_type 50 src _ (Token_new KEYWORD "CLASS" 0 9) _ _).
  - vm_compute. reflexivity.
  - repeat constructor.
Defined.

Lemma token_at_Some toks ln ch t :
  token_at toks ln ch = Some t -> t ∈ toks /\ covers t ln ch.
Proof.
  induction toks as [|t0 rest IH]; [discriminate|].
  rewrite token_at_cons. case_decide as Hc.
  - intros [= <-]. split; [constructor|assumption].
  - intros [Hin Hcov]%IH. split; [now constructor|assumption].
Qed.

Lemma covered_nonempty t ln ch :
  racf_token_ok t -> covers t ln ch -> value t <> EmptyString.
Proof.
  intros [He _] (_ & H1 & H2) Hv. rewrite He, Hv in H2.
  change (len EmptyString) with 0 in H2. lia.
Qed.

(** X15.  [handle_hover] answers for the first token that covers the
    cursor.  If it returns a text, a token of the document covers the
    position, its value is not empty, its type is COMMAND, SEGMENT, KEYWORD
    or STRING, and the text is the one of the token's upper-cased value; so
    the entry that the empty abbreviation of RACDCERT would match is never
    shown.  If it returns nothing and the text of the document is ASCII, no
    token that covers the position has a text. *)
Theorem handle_hover_spec fuel (docs : documents) (u text : string)
    (doc : RACFDocument) (ln ch : Z) :
  RACFDocument_new fuel u text = Some doc -> docs !! u = Some doc ->
  match handle_hover docs u ln ch with
  | Some r =>
      exists t, t ∈ tokens doc /\ covers t ln ch
        /\ value t <> EmptyString
        /\ type t ∈ [COMMAND; SEGMENT; KEYWORD; STRING]
        /\ hover_word (upper (value t)) = Some r
  | None =>
      isascii text = true ->
      forall t, t ∈ tokens doc -> covers t ln ch ->
                hover_word (upper (value t)) = None
  end.
Proof.
  intros Hdoc Hu. unfold handle_hover, get_token_at_position. rewrite Hu.
  destruct (document_tokens _ _ _ _ Hdoc) as [Htok _].
  pose proof (tokenize_tokens_ok _ _ _ Htok) as Hok.
  rewrite Forall_forall in Hok.
  destruct (token_at (tokens doc) ln ch) as [t|] eqn:Hat.
  - destruct (token_at_Some _ _ _ _ Hat) as [Hin Hcov].
    destruct (hover_word (upper (value t))) as [r|] eqn:Hh.
    + exists t. split; [assumption|]. split; [assumption|].
      split; [eapply covered_nonempty; eauto|]. split; [|assumption].
      pose proof (token_hover t (Hok t Hin)) as Hty.
      unfold hover_of_type in Hty. cbn zeta in Hty. rewrite Hh in Hty.
      destruct (type t); try discriminate Hty;
        try (repeat constructor; fail).
      exfalso. now apply (Hty ln ch).
    + intros Hascii t' Hin' Hcov'.
      pose proof (tokenize_ordered _ _ _ Hascii Htok) as Hsorted.
      pose proof (token_at_covering _ ln ch Hsorted t' Hin' Hcov') as H'.
      congruence.
  - intros Hascii t Hin Hcov.
    pose proof (tokenize_ordered _ _ _ Hascii Htok) as Hsorted.
    pose proof (token_at_covering _ ln ch Hsorted t Hin Hcov) as H'.
    congruence.
Qed.

Lemma handle_hover_spec_witness :
  exists doc,
    RACFDocument_new 40 "u" "LU  'special' X" = Some doc
    /\ ({["u" := doc]} : documents) !! "u" = Some doc
    /\ match handle_hover {["u" := doc]} "u" 0 6 with
       | Some r =>
           exists t, t ∈ tokens doc /\ covers t 0 6
             /\ value t <> EmptyString
             /\ type t ∈ [COMMAND; SEGMENT; KEYWORD; STRING]
             /\ hover_word (upper (value t)) = Some r
       | None =>
           isascii "LU  'special' X" = true ->
           forall t, t ∈ tokens doc -> covers t 0 6 ->
                     hover_word (upper (value t)) = None
       end.
Proof.
  eexists. split; [vm_compute; reflexivity|].
  split; [apply lookup_singleton_eq|].
  apply (handle_hover_spec 40 _ "u" "LU  'special' X");
    [vm_compute; reflexivity | apply lookup_singleton_eq].
Defined.

(** Beyond ASCII a token can hide the one after it.  After two sharp s the
    IDENTIFIER token SSSS spans four columns of a two-letter word, so at
    column 3 hover finds it first and shows nothing, although the command AU
    starts there and has a text. *)
Example hover_hidden_by_sharp_s :
  let text := String "223" (String "223" " au") in
  let au := Token_new COMMAND "AU" 0 3 in
  exists doc,
    RACFDocument_new 8 "u" text = Some doc
    /\ au ∈ tokens doc /\ covers au 0 3
    /\ is_Some (hover_word (upper (value au)))
    /\ handle_hover {["u" := doc]} "u" 0 3 = None.
Proof.
  intros text au. eexists. split; [vm_compute; reflexivity|].
  split; [repeat constructor|].
  split; [unfold covers, au, Token_new, len; cbn; lia|].
  split; [vm_compute; eauto|]. vm_compute. reflexivity.
Qed.

(** Hovering inside a string literal whose content is a keyword shows the
    keyword's text; hovering over the last two characters of the literal
    shows nothing, because the token's span has the length of its value. *)
Example hover_inside_string_literal :
  exists doc,
    RACFDocument_new 40 "u" "LU  'special' X" = Some doc
    /\ handle_hover {["u" := doc]} "u" 0 6
       = Some (markdown ("**SPECIAL**" ++ NLNL
                         ++ "SPECIAL authority (full admin)"))
    /\ handle_hover {["u" := doc]} "u" 0 11 = None
    /\ handle_hover {["u" := doc]} "u" 0 12 = None.
Proof.
  eexists. split; [vm_compute; reflexivity|].
  repeat split; vm_compute; reflexivity.
Qed.

End HoverFacts.

(** ** Completion *)

Module CompletionFacts.
Import RacfServer CharFacts.

Local Open Scope Z_scope.

(** The ['label'] entry of a completion item. *)
Definition label_of (item : json) : option string :=
  match item with
  | JObj fields =>
      match dict_get fields "label" with
      | Some (JStr w) => Some w
      | _ => None
      end
  | _ => None
  end.

Definition same_token (t u : Token) : bool :=
  bool_decide (type t = type u) && String.eqb (value t) (value u)
  && (line t =? line u) && (column t =? column u)
  && (end_column t =? end_column u).

Lemma same_token_eq t u : same_token t u = true -> t = u.
Proof.
  destruct t, u. unfold same_token. cbn.
  intros [[[[H1 H2]%andb_prop H3]%andb_prop H4]%andb_prop H5]%andb_prop.
  apply bool_decide_eq_true_1 in H1. apply String.eqb_eq in H2.
  apply Z.eqb_eq in H3, H4, H5. congruence.
Qed.

Definition offered_type (ty : TokenType) : bool :=
  match ty with
  | COMMAND | SEGMENT | KEYWORD => true
  | _ => false
  end.

(** The lexer, run on the word [w] alone, returns one token that is not an
    identifier (a command, a segment name or a keyword, with [w] as value
    and the length of [w] as span) and the EOF token. *)
Definition lexer_word (w : string) : bool :=
  match tokenize (S (String.length w)) w with
  | Some [t; e] =>
      same_token t (Token_new (type t) w 0 0) && offered_type (type t)
      && same_token e (Token_new EOF EmptyString 0 (len w))
  | _ => false
  end.

Definition label_known (item : json) : bool :=
  match label_of item with
  | Some w => lexer_word w
  | None => false
  end.

(** The lists [handle_completion] can return. *)
Definition general_items : list json :=
  (map keyword_item BASE_KEYWORDS_items ++ map segment_item SEGMENTS_items
   ++ common_items)%list.

Definition completion_lists : list (list json) :=
  [ []; map omvs_item OMVS_KEYWORDS_items; map tso_item TSO_KEYWORDS_items;
    map access_item ACCESS_LEVELS_items; map command_item RACF_COMMANDS_items;
    general_items ].

Lemma handle_completion_lists docs u ln ch items :
  handle_completion docs u ln ch = Some items -> items ∈ completion_lists.
Proof.
  unfold handle_completion, completion_lists.
  destruct (docs !! u) as [doc|]; [|intros [= <-]; constructor].
  destruct (_ <=? ln); [intros [= <-]; constructor|].
  destruct (getitem (lines doc) ln) as [line_text|]; [|discriminate].
  cbn [mbind option_bind]. intros [= <-].
  destruct (0 <? _).
  - destruct (bool_decide (_ = Some "OMVS")); [repeat constructor|].
    destruct (bool_decide (_ = Some "TSO")); repeat constructor.
  - destruct (_ || _ || _); repeat constructor.
Qed.

Lemma completion_lists_known :
  forallb (forallb label_known) completion_lists = true.
Proof. vm_compute. reflexivity. Qed.

Lemma lexer_word_run w :
  lexer_word w = true ->
  exists ty,
    ty ∈ [COMMAND; SEGMENT; KEYWORD]
    /\ forall fuel,
         (String.length w < fuel)%nat ->
         tokenize fuel w
         = Some [Token_new ty w 0 0; Token_new EOF EmptyString 0 (len w)].
Proof.
  unfold lexer_word.
  destruct (tokenize (S (String.length w)) w) as [[|t [|e [|x l]]]|] eqn:E;
    try discriminate.
  intros [[Ht Hty]%andb_prop He]%andb_prop.
  apply same_token_eq in Ht, He. exists (type t). split.
  - destruct (type t); try discriminate Hty; repeat constructor.
  - intros fuel Hf. rewrite <- Ht, <- He. unfold tokenize in *.
    apply (ServerLexerRuns.tokenize_loop_mono_le (S (String.length w)));
      [lia|exact E].
Qed.

(** X16.  Every completion the server offers is a word of its own lexer.
    Whatever the document and the position, each item [handle_completion]
    returns has a label on which the lexer, run on the label alone, returns
    exactly one token before the EOF token: a COMMAND, SEGMENT or KEYWORD
    token that has the label as its value and the length of the label as its
    span.  So no label lexes as an identifier or splits into several
    tokens. *)
Theorem completion_labels_are_lexer_words (docs : documents) (u : string)
    (ln ch : Z) (items : list json) :
  handle_completion docs u ln ch = Some items ->
  Forall (fun item =>
            exists w ty,
              label_of item = Some w
              /\ ty ∈ [COMMAND; SEGMENT; KEYWORD]
              /\ forall fuel,
                   (String.length w < fuel)%nat ->
                   tokenize fuel w
                   = Some [Token_new ty w 0 0;
                           Token_new EOF EmptyString 0 (len w)])
         items.
Proof.
  intros H%handle_completion_lists.
  pose proof completion_lists_known as Hk.
  rewrite forallb_forall in Hk. apply list_elem_of_In in H.
  specialize (Hk _ H). rewrite forallb_forall in Hk.
  apply Forall_forall. intros item Hin%list_elem_of_In.
  specialize (Hk _ Hin). unfold label_known in Hk.
  destruct (label_of item) as [w|]; [|discriminate].
  destruct (lexer_word_run w Hk) as (ty & Hty & Hrun).
  exists w, ty. split; [reflexivity|]. split; assumption.
Qed.

Lemma completion_labels_are_lexer_words_witness :
  exists doc,
    RACFDocument_new 40 "u" "AU (U1) OMVS(" = Some doc
    /\ handle_completion {["u" := doc]} "u" 0 13
       = Some (map omvs_item OMVS_KEYWORDS_items)
    /\ Forall (fun item =>
                 exists w ty,
                   label_of item = Some w
                   /\ ty ∈ [COMMAND; SEGMENT; KEYWORD]
                   /\ forall fuel,
                        (String.length w < fuel)%nat ->
                        tokenize fuel w
                        = Some [Token_new ty w 0 0;
                                Token_new EOF EmptyString 0 (len w)])
              (map omvs_item OMVS_KEYWORDS_items).
Proof.
  eexists. split; [vm_compute; reflexivity|].
  match goal with
  | |- ?eq /\ _ => assert eq as H by (vm_compute; reflexivity)
  end.
  split; [exact H|].
  exact (completion_labels_are_lexer_words _ "u" 0 13 _ H).
Defined.

(** *** Which list is offered *)

Lemma endswith_cons c s p :
  endswith (String c s) p = String.eqb (String c s) p || endswith s p.
Proof. reflexivity. Qed.

Lemma rstrip_never_ends_with_newline s :
  endswith (rstrip_space s) (String NL EmptyString) = false.
Proof.
  induction s as [|c s IH]; [reflexivity|].
  cbn [rstrip_space]. destruct (rstrip_space s) as [|d r] eqn:E.
  - destruct (isspace c) eqn:Hc; [reflexivity|].
    rewrite endswith_cons.
    change (endswith EmptyString (String NL EmptyString)) with false.
    rewrite orb_false_r.
    destruct (String.eqb_spec (String c EmptyString) (String NL EmptyString))
      as [[= ->]|]; [discriminate Hc|reflexivity].
  - rewrite endswith_cons, IH, orb_false_r.
    destruct (String.eqb_spec (String c (String d r)) (String NL EmptyString))
      as [H|]; [discriminate H|reflexivity].
Qed.

Section Context.

Variable prefix : string.

Let has (seg : string) : bool := contains (seg ++ "(") prefix.

Lemma last_segment_priority :
  last_segment prefix =
    if has "WORKATTR" then Some "WORKATTR"
    else if has "WHEN" then Some "WHEN"
    else if has "TSO" then Some "TSO"
    else if has "PROXY" then Some "PROXY"
    else if has "OVM" then Some "OVM"
    else if has "OPERPARM" then Some "OPERPARM"
    else if has "OMVS" then Some "OMVS"
    else if has "NETVIEW" then Some "NETVIEW"
    else if has "NDS" then Some "NDS"
    else if has "LNOTES" then Some "LNOTES"
    else if has "LANGUAGE" then Some "LANGUAGE"
    else if has "KERB" then Some "KERB"
    else if has "EIM" then Some "EIM"
    else if has "DFP" then Some "DFP"
    else if has "DCE" then Some "DCE"
    else if has "CICS" then Some "CICS"
    else None.
Proof. reflexivity. Qed.

(** The items offered inside parentheses. *)
Definition inside_items : list json :=
  if has "WORKATTR" || has "WHEN" then map access_item ACCESS_LEVELS_items
  else if has "TSO" then map tso_item TSO_KEYWORDS_items
  else if has "PROXY" || has "OVM" || has "OPERPARM"
  then map access_item ACCESS_LEVELS_items
  else if has "OMVS" then map omvs_item OMVS_KEYWORDS_items
  else map access_item ACCESS_LEVELS_items.

Lemma inside_items_spec :
  (if bool_decide (last_segment prefix = Some "OMVS")
   then map omvs_item OMVS_KEYWORDS_items
   else if bool_decide (last_segment prefix = Some "TSO")
   then map tso_item TSO_KEYWORDS_items
   else map access_item ACCESS_LEVELS_items) = inside_items.
Proof.
  rewrite last_segment_priority. unfold inside_items.
  destruct (has "WORKATTR"); [reflexivity|].
  destruct (has "WHEN"); [reflexivity|].
  destruct (has "TSO"); [reflexivity|].
  destruct (has "PROXY"); [reflexivity|].
  destruct (has "OVM"); [reflexivity|].
  destruct (has "OPERPARM"); [reflexivity|].
  destruct (has "OMVS"); [reflexivity|].
  repeat match goal with
         | |- context [if has ?s then _ else _] => destruct (has s)
         end; reflexivity.
Qed.

End Context.

(** X17.  Which list [handle_completion] offers at a position of a line it
    can index.  With more opening than closing parentheses before the cursor,
    the offer is decided by the order of [SEGMENTS], not by the place in the
    text: [WORKATTR(] or [WHEN(] anywhere before the cursor gives the access
    levels; failing these, [TSO(] gives the TSO keywords, even when [OMVS(]
    follows it; failing these, [PROXY(], [OVM(] or [OPERPARM(] gives the
    access levels, even inside [OMVS(]; failing these, [OMVS(] gives the OMVS
    keywords; anything else gives the access levels.  Otherwise the commands
    are offered when no command spans the line or the prefix is blank, and
    the keywords and segments in every other case; the third test of the
    source, [prefix.rstrip().endswith(newline)], is never true. *)
Theorem completion_context (docs : documents) (u : string)
    (doc : RACFDocument) (ln ch : Z) (line_text : string) :
  docs !! u = Some doc ->
  ln < Z.of_nat (length (lines doc)) ->
  getitem (lines doc) ln = Some line_text ->
  let prefix := upper (slice_to line_text ch) in
  handle_completion docs u ln ch =
    Some (if count_char ")" prefix <? count_char "(" prefix
          then inside_items prefix
          else if bool_decide (get_command_at_line doc ln = None)
                  || String.eqb (strip prefix) EmptyString
          then map command_item RACF_COMMANDS_items
          else general_items).
Proof.
  intros Hu Hln Hget prefix. unfold handle_completion. rewrite Hu.
  rewrite (proj2 (Z.leb_gt _ _)) by exact Hln.
  rewrite Hget. cbn [mbind option_bind]. fold prefix. f_equal.
  rewrite inside_items_spec, rstrip_never_ends_with_newline, orb_false_r.
  replace (0 <? count_char "(" prefix - count_char ")" prefix)
    with (count_char ")" prefix <? count_char "(" prefix)
    by (destruct (Z.ltb_spec (count_char ")" prefix) (count_char "(" prefix));
        destruct (Z.ltb_spec 0 (count_char "(" prefix - count_char ")" prefix));
        first [reflexivity | lia]).
  destruct (_ <? _); [reflexivity|].
  replace (negb (bool_decide (is_Some (get_command_at_line doc ln))))
    with (bool_decide (get_command_at_line doc ln = None)); [reflexivity|].
  destruct (get_command_at_line doc ln) as [c|].
  - rewrite bool_decide_eq_false_2 by discriminate.
    now rewrite bool_decide_eq_true_2 by eauto.
  - rewrite bool_decide_eq_true_2 by reflexivity.
    rewrite bool_decide_eq_false_2; [reflexivity|]. now intros [? ?].
Qed.

Lemma completion_context_witness :
  exists doc,
    RACFDocument_new 60 "u" "AU (U1) TSO(SIZE(1)) OMVS(" = Some doc
    /\ handle_completion {["u" := doc]} "u" 0 26
       = Some (map tso_item TSO_KEYWORDS_items).
Proof.
  eexists. split; [vm_compute; reflexivity|].
  refine (completion_context _ "u" _ 0 26 "AU (U1) TSO(SIZE(1)) OMVS(" _ _ _).
  - apply lookup_singleton_eq.
  - vm_compute. reflexivity.
  - vm_compute. reflexivity.
Defined.

End CompletionFacts.

(** ** Document symbols and the document store *)

Module DocumentSymbols.
Import RacfServer ServerLexerFacts ServerTokenPlaces DocumentFacts.

Local Open Scope Z_scope.

(** The symbol of a command named [nm] that spans the lines [ln] to [eln],
    the last of which has [end_character] characters. *)
Definition symbol (nm : string) (ln eln end_character : Z) : json :=
  JObj [
    ("name", JStr nm);
    ("detail", JStr EmptyString);
    ("kind", JInt 12);
    ("range", JObj [
       ("start", JObj [("line", JInt ln); ("character", JInt 0)]);
       ("end", JObj [("line", JInt eln);
                     ("character", JInt end_character)])]);
    ("selectionRange", JObj [
       ("start", JObj [("line", JInt ln); ("character", JInt 0)]);
       ("end", JObj [("line", JInt ln); ("character", JInt (len nm))])])].

(** [len(doc.lines[n])] *)
Definition line_length (doc : RACFDocument) (n : Z) : Z :=
  match lines doc !! Z.to_nat n with
  | Some l => len l
  | None => 0
  end.

Lemma mapM_map {A B} (f : A -> option B) (g : A -> B) (l : list A) :
  Forall (fun x => f x = Some (g x)) l -> mapM f l = Some (map g l).
Proof.
  induction 1 as [|x l Hx Hl IH]; [reflexivity|].
  cbn [mapM map]. rewrite Hx. cbn. now rewrite IH.
Qed.

Lemma getitem_nonneg {A} (l : list A) (i : Z) :
  0 <= i -> getitem l i = l !! Z.to_nat i.
Proof.
  intros Hi. unfold getitem. now rewrite (proj2 (Z.leb_le 0 i)) by exact Hi.
Qed.

(** X18.  [handle_document_symbol] on an open document never raises and
    returns one symbol per command, in order.  The detail of a symbol is
    always empty, because no command of a document has arguments; its range
    ends at the length of the command's last line, which is a line of the
    document, so the fallback [0] of the source is never used; and its
    selection range always starts at character zero, whatever the column of
    the command word. *)
Theorem document_symbols_spec fuel (docs : documents) (u text : string)
    (doc : RACFDocument) :
  RACFDocument_new fuel u text = Some doc -> docs !! u = Some doc ->
  handle_document_symbol docs u
  = Some (map (fun c => symbol (name c) (cmd_line c) (end_line c)
                               (line_length doc (end_line c)))
              (commands doc))
  /\ Forall (fun c => is_Some (lines doc !! Z.to_nat (end_line c)))
            (commands doc).
Proof.
  intros Hdoc Hu. unfold handle_document_symbol. rewrite Hu.
  destruct (document_tokens _ _ _ _ Hdoc) as [_ Hcmd].
  destruct (document_line_bounds _ _ _ _ Hdoc) as (_ & Hb & _).
  pose proof (detect_commands_bare (tokens doc)) as Hbare.
  rewrite <- Hcmd in Hbare.
  assert (Forall (fun c => is_Some (lines doc !! Z.to_nat (end_line c)))
                 (commands doc)) as Hlines.
  { eapply Forall_impl; [exact Hb|]. intros c (H0 & H1 & H2). cbn beta.
    apply lookup_lt_is_Some. lia. }
  split; [|exact Hlines].
  apply mapM_map. rewrite Forall_forall in *. intros c Hc.
  destruct (Hb c Hc) as (H0 & H1 & H2).
  destruct (Hbare c Hc) as (tok & _ & _ & _ & _ & Hargs & _).
  destruct (Hlines c Hc) as [l Hl].
  unfold symbol_of, line_length. rewrite Hargs.
  rewrite (proj2 (Z.ltb_lt _ _)) by exact H2.
  rewrite getitem_nonneg by lia. rewrite Hl. reflexivity.
Qed.

Lemma document_symbols_spec_witness :
  exists doc,
    RACFDocument_new 60 "u"
      (String " " (String "L" (String "U" (String NL "X")))) = Some doc
    /\ handle_document_symbol {["u" := doc]} "u"
       = Some (map (fun c => symbol (name c) (cmd_line c) (end_line c)
                                    (line_length doc (end_line c)))
                   (commands doc))
    /\ Forall (fun c => is_Some (lines doc !! Z.to_nat (end_line c)))
              (commands doc).
Proof.
  eexists. split; [vm_compute; reflexivity|].
  apply (document_symbols_spec 60 _ "u"
           (String " " (String "L" (String "U" (String NL "X")))));
    [vm_compute; reflexivity | apply lookup_singleton_eq].
Defined.

(** A command word that starts in column one of line zero and is followed
    by an identifier on the next line: the symbol spans both lines, ends at
    the length of the second line, and its selection starts at character
    zero. *)
Example document_symbol_of_indented_command :
  exists doc,
    RACFDocument_new 60 "u"
      (String " " (String "L" (String "U" (String NL "X")))) = Some doc
    /\ handle_document_symbol {["u" := doc]} "u" = Some [symbol "LU" 0 1 1].
Proof. eexists. split; vm_compute; reflexivity. Qed.

(** X19.  The document store keeps one document per uri.  Opening a document
    stores the document built from the text under its uri and leaves every
    other uri alone; a change notification whose first change carries the
    same text gives the same store, whatever further changes it lists, and a
    notification without changes leaves the store as it is; closing removes
    the entry, after which hover, completion and symbols for the uri answer
    as for a document that was never opened. *)
Theorem document_store_round_trip fuel (docs docs' : documents)
    (u text : string) :
  handle_did_open fuel docs u text = Some docs' ->
  docs' !! u = RACFDocument_new fuel u text
  /\ (forall u', u' <> u -> docs' !! u' = docs !! u')
  /\ (forall more, handle_did_change fuel docs u (Some text :: more)
                   = Some docs')
  /\ handle_did_change fuel docs' u [] = Some docs'
  /\ handle_did_close docs' u = handle_did_close docs u
  /\ (docs !! u = None -> handle_did_close docs' u = docs)
  /\ (forall ln ch,
        handle_hover (handle_did_close docs' u) u ln ch = None
        /\ handle_completion (handle_did_close docs' u) u ln ch = Some []
        /\ handle_document_symbol (handle_did_close docs' u) u = Some []).
Proof.
  unfold handle_did_open. intros H.
  destruct (RACFDocument_new fuel u text) as [doc|] eqn:Hdoc; [|discriminate].
  cbn [mbind option_bind] in H. injection H as <-.
  split; [apply lookup_insert_eq|].
  split; [intros u' Hne; now apply lookup_insert_ne|].
  split.
  { intros more. unfold handle_did_change, handle_did_open.
    change (default EmptyString (Some text)) with text. now rewrite Hdoc. }
  split; [reflexivity|]. unfold handle_did_close.
  split; [apply delete_insert_eq|].
  split.
  { intros Hn. now apply delete_insert_id. }
  intros ln ch.
  unfold handle_hover, handle_completion, handle_document_symbol.
  pose proof (lookup_delete_eq (<[u:=doc]> docs) u) as Hd.
  unfold documents in *. rewrite Hd. auto.
Qed.

Lemma document_store_round_trip_witness :
  exists docs' : documents,
    handle_did_open 20 ∅ "u" "LU X" = Some docs'
    /\ docs' !! "u" = RACFDocument_new 20 "u" "LU X"
    /\ handle_did_close docs' "u" = ∅.
Proof.
  assert (exists docs', handle_did_open 20 ∅ "u" "LU X" = Some docs')
    as [docs' H] by (eexists; vm_compute; reflexivity).
  exists docs'. split; [exact H|].
  destruct (document_store_round_trip 20 ∅ docs' "u" "LU X" H)
    as (H1 & _ & _ & _ & _ & H6 & _).
  split; [exact H1|]. apply H6. apply lookup_empty.
Defined.

End DocumentSymbols.
